(** * yase: first-order optimizers, shallow embedding

    The optimizers of [optimization/unconstrained] are embedded as state
    transformers over records that mirror the Python objects.  numpy's
    float64 scalars are idealised as real numbers [R] (no rounding),
    numpy vectors as [list R], integers as [Z].  Where the heavy-ball
    coefficient divides by a zero norm, the value that numpy leaves ([nan]
    or [inf]) is no real number and is an explicit [None].
    Every [while True] loop is a [while_true] over its body; every
    [for args in batches] loop is a recursion over the list of batches.
    Printing, plotting and callbacks are side effects that never touch
    the optimizer state and are left out. *)

From Stdlib Require Import Reals Lra List ZArith Lia String Bool.
From Stdlib Require Import Permutation.
Import ListNotations.
Open Scope R_scope.

(** ** Scalars: comparisons as booleans *)

Definition Rleb (x y : R) : bool := if Rle_dec x y then true else false.
Definition Rltb (x y : R) : bool := if Rlt_dec x y then true else false.
Definition Reqb (x y : R) : bool := if Req_dec_T x y then true else false.

(** ** Vectors and matrices (numpy arrays) *)

Definition vec := list R.
Definition matrix := list vec.

Fixpoint map2 {A B C} (op : A -> B -> C) (u : list A) (v : list B) : list C :=
  match u, v with
  | a :: u', b :: v' => op a b :: map2 op u' v'
  | _, _ => []
  end.

Definition zeros (n : nat) : vec := repeat 0 n.
Definition vadd : vec -> vec -> vec := map2 Rplus.
Definition vsub : vec -> vec -> vec := map2 Rminus.
Definition vmul : vec -> vec -> vec := map2 Rmult.
Definition vneg : vec -> vec := map Ropp.
Definition vscale (a : R) : vec -> vec := map (Rmult a).
Definition dot (u v : vec) : R := fold_right Rplus 0 (vmul u v).
(* np.linalg.norm *)
Definition norm (v : vec) : R := sqrt (dot v v).
(* M.dot(v) *)
Definition matvec (M : matrix) (v : vec) : vec := map (fun row => dot row v) M.
Definition column (M : matrix) (j : nat) : vec := map (fun row => nth j row 0) M.
(* v.T.dot(M) *)
Definition vecmat (v : vec) (M : matrix) : vec :=
  map (fun j => dot v (column M j)) (seq 0 (List.length (hd [] M))).

(** A numpy operand that is either a Python scalar or a 1-d array:
    attributes such as [self.step = 0] start as scalars and are combined
    with arrays by broadcasting. *)
Inductive ndarray : Type :=
| Scalar0 (r : R)
| Array1 (v : vec).

(* k * a *)
Definition nd_scale (k : R) (a : ndarray) : ndarray :=
  match a with
  | Scalar0 r => Scalar0 (k * r)
  | Array1 v => Array1 (vscale k v)
  end.

(* a * k *)
Definition nd_mul (a : ndarray) (k : R) : ndarray :=
  match a with
  | Scalar0 r => Scalar0 (r * k)
  | Array1 v => Array1 (map (fun vi => vi * k) v)
  end.

(* a + v, v a 1-d array *)
Definition nd_add (a : ndarray) (v : vec) : vec :=
  match a with
  | Scalar0 r => map (Rplus r) v
  | Array1 u => vadd u v
  end.

(* x - a, x a 1-d array *)
Definition nd_rsub (x : vec) (a : ndarray) : vec :=
  match a with
  | Scalar0 r => map (fun xi => xi - r) x
  | Array1 u => vsub x u
  end.

(* a[i], where a scalar stands for the array it is broadcast to *)
Definition nd_nth (i : nat) (a : ndarray) : R :=
  match a with
  | Scalar0 r => r
  | Array1 v => nth i v 0
  end.

(* np.sign *)
Definition sign (r : R) : R :=
  if Rltb 0 r then 1 else if Rltb r 0 then -1 else 0.

(* np.clip(v, lo, hi) = minimum(maximum(v, lo), hi) *)
Definition clip1 (lo hi r : R) : R := Rmin (Rmax r lo) hi.
Definition clip (v : vec) (lo hi : R) : vec := map (clip1 lo hi) v.

(* v[mask] *= k *)
Definition imul_where (mask : list bool) (k : R) (v : vec) : vec :=
  map2 (fun (b : bool) c => if b then c * k else c) mask v.

(** ** Termination status, exceptions, loops *)

Inductive status : Set := optimal | unbounded | stopped | error.

Inductive exn : Set :=
| ValueError (msg : string)
| UnboundLocalError (name : string)
| ZeroDivisionError.

Inductive result (A : Type) : Type :=
| Return (a : A)
| Raised (e : exn).
Arguments Return {A} a.
Arguments Raised {A} e.

(** What one pass through a loop body does: fall through to the next
    pass, [break] with a status assigned, or raise. *)
Inductive outcome (S : Type) : Type :=
| Next (s : S)
| Break (s : S) (st : status)
| Raise (e : exn).
Arguments Next {S} s.
Arguments Break {S} s st.
Arguments Raise {S} e.

(** [while True: body]; [None] only when [fuel] passes were not enough. *)
Fixpoint while_true {S : Type} (body : S -> outcome S)
         (fuel : nat) (s : S) : option (result (S * status)) :=
  match fuel with
  | O => None
  | Datatypes.S k =>
      match body s with
      | Next s' => while_true body k s'
      | Break s' st => Some (Return (s', st))
      | Raise e => Some (Raised e)
      end
  end.

(** [s'] is the state at the start of some later pass of the loop. *)
Inductive reaches {S : Type} (body : S -> outcome S) (s : S) : S -> Prop :=
| reaches_refl : reaches body s s
| reaches_step s1 s2 :
    reaches body s s1 -> body s1 = Next s2 -> reaches body s s2.

(** Arguments of constructors that numpy checks with [np.isscalar]. *)
Inductive pyval : Type :=
| PyScalar (r : R)
| PyArray (v : vec).

Definition isscalar (p : pyval) : bool :=
  match p with PyScalar _ => true | PyArray _ => false end.

(** ** The objective contract *)

Record Objective : Type := {
  function : vec -> R;
  jacobian : vec -> vec;
  hessian : matrix
}.

(** Modelled from the spec: the quadratic objective class (its module is
    not under src/); [f(x) = 1/2 x^T Q x - q^T x], gradient [Q x - q],
    constant Hessian [Q]. *)
Definition Quadratic (Q : matrix) (q : vec) : Objective :=
  {| function := fun x => 1 / 2 * dot x (matvec Q x) - dot q x;
     jacobian := fun x => vsub (matvec Q x) q;
     hessian := Q |}.

(** The attributes the base class [Optimizer] leaves on the object
    ([optimization/optimizer.py] is not under src/; its constructor is
    taken as the outcome of the [super().__init__] call). *)
Record Optimizer : Type := {
  opt_f : Objective;
  opt_wrt : vec;
  opt_eps : R;
  opt_max_iter : Z;
  opt_iter : Z
}.

(** ** SteepestGradientDescentQuadratic (gradient_descent.py) *)

Module SteepestGradientDescentQuadratic.

Record t : Type := {
  f : Objective;
  wrt : vec;
  eps : R;
  max_iter : Z;
  iter : Z
}.

(** [__init__]: [f_star] is [None] for the default [np.inf]. *)
Definition init (super : result Optimizer) (f_star : option pyval) : result t :=
  match super with
  | Raised e => Raised e
  | Return o =>
      if negb (List.length (opt_wrt o) =? List.length (hessian (opt_f o)))%nat
      then Raised (ValueError "x size does not match with Q")
      else if negb (match f_star with None => true | Some p => isscalar p end)
      then Raised (ValueError "f_star is not a real scalar")
      else Return {| f := opt_f o; wrt := opt_wrt o; eps := opt_eps o;
                     max_iter := opt_max_iter o; iter := opt_iter o |}
  end.

Definition advance (s : t) (last_wrt : vec) : t :=
  {| f := f s; wrt := last_wrt; eps := eps s;
     max_iter := max_iter s; iter := (iter s + 1)%Z |}.

Definition body (s : t) : outcome t :=
  let g := jacobian (f s) (wrt s) in
  let ng := norm g in
  if Rleb ng (eps s) then Break s optimal
  else if (iter s >? max_iter s)%Z then Break s stopped
  else
    let d := vneg g in
    let den := dot (vecmat d (hessian (f s))) d in
    if Rleb den 1e-12 then Break s unbounded
    else
      let a := dot d d / den in
      let last_wrt := vadd (wrt s) (vscale a d) in
      Next (advance s last_wrt).

(** A pass that does not break needs [iter <= max_iter] and adds one to
    [iter], so the loop is left after at most this many passes. *)
Definition budget (s : t) : nat := S (Z.to_nat (max_iter s - iter s + 1)).

(** [minimize] returns [(self.wrt, status)]; the object is returned
    whole so that [iter] can be read off. *)
Definition minimize (s : t) : option (result (t * status)) :=
  while_true body (budget s) s.

End SteepestGradientDescentQuadratic.

(** ** GradientDescent (gradient_descent.py) *)

Module GradientDescent.

Record t : Type := {
  f : Objective;
  wrt : vec;
  eps : R;
  max_iter : Z;
  iter : Z;
  step_rate : R;
  momentum : R;
  momentum_type : string;
  step : ndarray
}.

Definition known_momentum_type (m : string) : bool :=
  (m =? "nesterov")%string || (m =? "standard")%string || (m =? "none")%string.

Definition init (super : result Optimizer) (step_rate momentum : pyval)
           (momentum_type : string) : result t :=
  match super with
  | Raised e => Raised e
  | Return o =>
      match step_rate with
      | PyArray _ => Raised (ValueError "step_rate is not a real scalar")
      | PyScalar sr =>
          if Rltb sr 0 then Raised (ValueError "step_rate must be > 0")
          else
            match momentum with
            | PyArray _ => Raised (ValueError "momentum is not a real scalar")
            | PyScalar m =>
                if Rltb m 0 then Raised (ValueError "momentum must be > 0")
                else if negb (known_momentum_type momentum_type)
                then Raised (ValueError "unknown momentum type")
                else Return {| f := opt_f o; wrt := opt_wrt o; eps := opt_eps o;
                               max_iter := opt_max_iter o; iter := opt_iter o;
                               step_rate := sr; momentum := m;
                               momentum_type := momentum_type;
                               step := Scalar0 0 |}
            end
      end
  end.

(** The locals computed once before the loop and read inside it. *)
Record locals : Type := { ng : R; ng0 : R }.

Definition prelude (s : t) : locals :=
  let g := jacobian (f s) (wrt s) in
  let ng := norm g in
  {| ng := ng; ng0 := if Rltb (eps s) 0 then - ng else 1 |}.

Definition set_wrt (s : t) (w : vec) : t :=
  {| f := f s; wrt := w; eps := eps s; max_iter := max_iter s; iter := iter s;
     step_rate := step_rate s; momentum := momentum s;
     momentum_type := momentum_type s; step := step s |}.

Definition commit (s : t) (st : vec) : t :=
  {| f := f s; wrt := wrt s; eps := eps s; max_iter := max_iter s;
     iter := (iter s + 1)%Z;
     step_rate := step_rate s; momentum := momentum s;
     momentum_type := momentum_type s; step := Array1 st |}.

(** The momentum branch: the moved point and the local [step], which
    stays unbound when no branch matches. *)
Definition move (s : t) : vec * option vec :=
  let step_m1 := step s in
  if (momentum_type s =? "standard")%string then
    let gradient := jacobian (f s) (wrt s) in
    let step := nd_add (nd_mul step_m1 (momentum s)) (vscale (step_rate s) gradient) in
    (vsub (wrt s) step, Some step)
  else if (momentum_type s =? "nesterov")%string then
    let big_jump := nd_mul step_m1 (momentum s) in
    let wrt1 := nd_rsub (wrt s) big_jump in
    let gradient := jacobian (f s) wrt1 in
    let correction := vscale (step_rate s) gradient in
    (vsub wrt1 correction, Some (nd_add big_jump correction))
  else if (momentum_type s =? "none")%string then
    let gradient := jacobian (f s) (wrt s) in
    let step := vscale (step_rate s) gradient in
    (vsub (wrt s) step, Some step)
  else (wrt s, None).

Definition body (l : locals) (s : t) : outcome t :=
  let '(w, step) := move s in
  let s1 := set_wrt s w in
  if Rleb (ng l) (eps s * ng0 l) then Break s1 optimal
  else if (iter s >? max_iter s)%Z then Break s1 stopped
  else
    match step with
    | None => Raise (UnboundLocalError "step")
    | Some st => Next (commit s1 st)
    end.

Definition budget (s : t) : nat := S (Z.to_nat (max_iter s - iter s + 1)).

Definition minimize (s : t) : option (result (t * status)) :=
  while_true (body (prelude s)) (budget s) s.

End GradientDescent.

(** ** NonLinearConjugateGradient (conjugate_gradient.py) *)

Module NonLinearConjugateGradient.

(** [self.line_search.search(d, wrt, last_wrt, last_g, f_eval, a_start, v,
    phi_p0)] returns [(a, v, last_wrt, last_g, f_eval)]; the line-search
    class is not under src/ and is a field of the optimizer here. *)
Definition search_t : Type :=
  vec -> vec -> vec -> vec -> Z -> R -> R -> R -> R * R * vec * vec * Z.

Record t : Type := {
  f : Objective;
  wrt : vec;
  eps : R;
  max_f_eval : Z;
  a_start : R;
  m_inf : option R;          (* None is -np.inf *)
  min_a : R;
  search : search_t;
  n : Z;
  iter : Z;
  wf : Z;
  r_start : Z
}.

(** The attributes [LineSearchOptimizer.__init__] leaves on the object. *)
Record LineSearchOptimizer : Type := {
  ls_f : Objective;
  ls_wrt : vec;
  ls_eps : R;
  ls_max_f_eval : Z;
  ls_a_start : R;
  ls_m_inf : option R;
  ls_min_a : R;
  ls_search : search_t;
  ls_n : Z;
  ls_iter : Z
}.

Definition init (super : result LineSearchOptimizer) (wf : Z) (r_start : option Z)
  : result t :=
  match super with
  | Raised e => Raised e
  | Return o =>
      if ((wf <? 0) || (wf >? 4))%Z
      then Raised (ValueError "unknown NCG formula")
      else
        match r_start with
        | None => Raised (ValueError "r_start is not an integer scalar")
        | Some r =>
            Return {| f := ls_f o; wrt := ls_wrt o; eps := ls_eps o;
                      max_f_eval := ls_max_f_eval o; a_start := ls_a_start o;
                      m_inf := ls_m_inf o; min_a := ls_min_a o;
                      search := ls_search o; n := ls_n o; iter := ls_iter o;
                      wf := wf; r_start := r |}
        end
  end.

(** Locals of [minimize]; [past] holds [(past_g, past_d)], unbound
    until the first pass has assigned them. *)
Record locals : Type := {
  v : R;
  g : vec;
  ng : R;
  ng0 : R;
  last_wrt : vec;
  last_g : vec;
  f_eval : Z;
  past : option (vec * vec)
}.

Definition prelude (s : t) : locals :=
  let v := function (f s) (wrt s) in
  let g := jacobian (f s) (wrt s) in
  let ng := norm g in
  {| v := v; g := g; ng := ng;
     ng0 := if Rltb (eps s) 0 then - ng else 1;
     last_wrt := zeros (Z.to_nat (n s));
     last_g := zeros (Z.to_nat (n s));
     f_eval := 1;
     past := None |}.

(** [self.r_start > 0 and self.iter % self.n * self.r_start == 0]:
    [%] and [*] associate to the left. *)
Definition restart (s : t) : result bool :=
  if (r_start s >? 0)%Z then
    if (n s =? 0)%Z then Raised ZeroDivisionError
    else Return ((iter s mod n s) * r_start s =? 0)%Z
  else Return false.

Definition betaFR (ng : R) (past_g : vec) : R := (ng / norm past_g) ^ 2.
Definition betaPR (g past_g : vec) : R :=
  dot g (vsub g past_g) / norm past_g ^ 2.
Definition betaHS (g past_g past_d : vec) : R :=
  dot g (vsub g past_g) / dot (vsub g past_g) past_d.
Definition betaDY (ng : R) (g past_g past_d : vec) : R :=
  ng ^ 2 / dot (vsub g past_g) past_d.

(** The [if wf == 0: ...] statement followed by the
    [if wf == 1: ... elif ...] chain; [None] when no branch assigns
    [beta]. *)
Definition formula (wf : Z) (ng : R) (g past_g past_d : vec) : option R :=
  let beta0 :=
    if (wf =? 0)%Z
    then Some (Rmax (- betaFR ng past_g) (Rmin (betaPR g past_g) (betaFR ng past_g)))
    else None in
  if (wf =? 1)%Z then Some (betaFR ng past_g)
  else if (wf =? 2)%Z then Some (Rmax (betaPR g past_g) 0)
  else if (wf =? 3)%Z then Some (betaHS g past_g past_d)
  else if (wf =? 4)%Z then Some (betaDY ng g past_g past_d)
  else beta0.

(** [beta] of a pass other than the first. *)
Definition beta (s : t) (l : locals) : result R :=
  match restart s with
  | Raised e => Raised e
  | Return true => Return 0
  | Return false =>
      match past l with
      | Some (past_g, past_d) =>
          match formula (wf s) (ng l) (g l) past_g past_d with
          | Some b => Return b
          | None => Raised (UnboundLocalError "beta")
          end
      | None =>
          if ((0 <=? wf s) && (wf s <=? 4))%Z
          then Raised (UnboundLocalError "past_g")
          else Raised (UnboundLocalError "beta")
      end
  end.

Definition direction (s : t) (l : locals) : result vec :=
  if (iter s =? 1)%Z then Return (vneg (g l))
  else
    match beta s l with
    | Raised e => Raised e
    | Return b =>
        if negb (Reqb b 0) then
          match past l with
          | Some (_, past_d) => Return (vadd (vneg (g l)) (vscale b past_d))
          | None => Raised (UnboundLocalError "past_d")
          end
        else Return (vneg (g l))
    end.

Definition le_m_inf (v : R) (m_inf : option R) : bool :=
  match m_inf with Some m => Rleb v m | None => false end.

Definition body (sl : t * locals) : outcome (t * locals) :=
  let '(s, l) := sl in
  if Rleb (ng l) (eps s * ng0 l) then Break sl optimal
  else if (f_eval l >? max_f_eval s)%Z then Break sl stopped
  else
    match direction s l with
    | Raised e => Raise e
    | Return d =>
        let phi_p0 := dot (g l) d in
        let '(a, v', last_wrt', last_g', f_eval') :=
          search s d (wrt s) (last_wrt l) (last_g l) (f_eval l)
                 (a_start s) (v l) phi_p0 in
        let l1 := {| v := v'; g := g l; ng := ng l; ng0 := ng0 l;
                     last_wrt := last_wrt'; last_g := last_g';
                     f_eval := f_eval'; past := Some (g l, d) |} in
        if Rleb a (min_a s) then Break (s, l1) error
        else if le_m_inf v' (m_inf s) then Break (s, l1) unbounded
        else
          Next ({| f := f s; wrt := last_wrt'; eps := eps s;
                   max_f_eval := max_f_eval s; a_start := a_start s;
                   m_inf := m_inf s; min_a := min_a s; search := search s;
                   n := n s; iter := (iter s + 1)%Z; wf := wf s;
                   r_start := r_start s |},
                {| v := v'; g := last_g'; ng := norm last_g'; ng0 := ng0 l;
                   last_wrt := last_wrt'; last_g := last_g';
                   f_eval := f_eval'; past := Some (g l, d) |})
    end.

(** The loop ends when the line search has used up [max_f_eval]
    evaluations; the search is a parameter, so the passes are counted
    by [fuel]. *)
Definition minimize (fuel : nat) (s : t) : option (result (t * locals * status)) :=
  while_true body fuel (s, prelude s).

End NonLinearConjugateGradient.

(** ** HeavyBallGradient (line_search/heavy_ball_gradient.py) *)

Module HeavyBallGradient.

(** [self.line_search.search(d, x, last_x, last_g, f_eval, f_x, phi_p0,
    verbose)] returns [(a, f_x, last_x, last_g, f_eval)]; the last
    argument only switches printing and is left out.  The direction [d]
    and the slope [phi_p0] are [None] when the code's arithmetic has left
    the finite numbers (a division by [||past_d|| = 0] gives [nan] or
    [inf]), which no real number stands for. *)
Definition search_t : Type :=
  option vec -> vec -> vec -> vec -> Z -> R -> option R -> R * R * vec * vec * Z.

Record LineSearch : Type := {
  search : search_t;
  max_f_eval : Z;
  min_a : R
}.

Record t : Type := {
  f : Objective;
  n : nat;                   (* self.f.n *)
  x : vec;
  beta : R;
  eps : R;
  max_iter : Z;
  m_inf : option R;          (* None is -np.inf *)
  line_search : LineSearch;
  iter : Z;
  f_x : R
}.

Record locals : Type := {
  last_x : vec;
  last_g : vec;
  f_eval : Z;
  past_d : vec
}.

Definition prelude (s : t) : locals :=
  {| last_x := zeros (n s); last_g := zeros (n s); f_eval := 1;
     past_d := zeros (n s) |}.

(** [beta_i]; [-self.beta * ng / np.linalg.norm(past_d)] is not a finite
    number when [past_d] is the zero vector. *)
Definition beta_i (s : t) (ng : R) (past_d : vec) : option R :=
  if Rltb 0 (beta s) then Some (beta s)
  else if Reqb (norm past_d) 0 then None
  else Some (- beta s * ng / norm past_d).

(** The deflected gradient direction of a pass. *)
Definition direction (s : t) (l : locals) : option vec :=
  let g := jacobian (f s) (x s) in
  let ng := norm g in
  if (iter s =? 0)%Z then Some (vneg g)
  else
    match beta_i s ng (past_d l) with
    | Some b => Some (vadd (vneg g) (vscale b (past_d l)))
    | None => None
    end.

Definition upd (s : t) (x' : vec) (it : Z) (fx : R) : t :=
  {| f := f s; n := n s; x := x'; beta := beta s; eps := eps s;
     max_iter := max_iter s; m_inf := m_inf s; line_search := line_search s;
     iter := it; f_x := fx |}.

Definition le_m_inf (v : R) (m_inf : option R) : bool :=
  match m_inf with Some m => Rleb v m | None => false end.

Definition body (sl : t * locals) : outcome (t * locals) :=
  let '(s, l) := sl in
  let fx := function (f s) (x s) in
  let g := jacobian (f s) (x s) in
  let ng := norm g in
  let ng0 := if Rltb (eps s) 0 then - ng else 1 in
  let s0 := upd s (x s) (iter s) fx in
  if Rleb ng (eps s * ng0) then Break (s0, l) optimal
  else if ((iter s >? max_iter s) || (f_eval l >? max_f_eval (line_search s)))%Z
  then Break (s0, l) stopped
  else
    let d := direction s l in
    let phi_p0 := option_map (dot g) d in
    let '(a, fx', last_x', last_g', f_eval') :=
      search (line_search s) d (x s) (last_x l) (last_g l) (f_eval l) fx phi_p0 in
    let s1 := upd s (x s) (iter s) fx' in
    let l1 := {| last_x := last_x'; last_g := last_g'; f_eval := f_eval';
                 past_d := past_d l |} in
    if Rleb a (min_a (line_search s)) then Break (s1, l1) error
    else if le_m_inf fx' (m_inf s) then Break (s1, l1) unbounded
    else
      Next (upd s last_x' (iter s + 1)%Z fx',
            {| last_x := last_x'; last_g := last_g'; f_eval := f_eval';
               past_d := vsub last_x' (x s) |}).

Definition minimize (fuel : nat) (s : t) : option (result (t * locals * status)) :=
  while_true body fuel (s, prelude s).

End HeavyBallGradient.

(** ** The stochastic family (stochastic/rprop.py, stochastic/adamax.py) *)

(** [for args in batches: body]; the loop ends by [break] with a status,
    or because the iterator has no more batches. *)
Fixpoint for_each {S A : Type} (body : A -> S -> outcome S)
         (items : list A) (s : S) : result (S * option status) :=
  match items with
  | [] => Return (s, None)
  | args :: rest =>
      match body args s with
      | Next s' => for_each body rest s'
      | Break s' st => Return (s', Some st)
      | Raise e => Raised e
      end
  end.

(** [return self.x, self.f_x, status] after the loop: [status] is bound
    only when the loop was left by [break]. *)
Definition return_status {S : Type} (r : result (S * option status))
  : result (S * status) :=
  match r with
  | Raised e => Raised e
  | Return (s, Some st) => Return (s, st)
  | Return (s, None) => Raised (UnboundLocalError "status")
  end.

Module Stochastic.

(** The objective of a stochastic optimizer takes the batch as extra
    arguments: [f.function(x, *args)], [f.jacobian(x, *args)]. *)
Record Objective (Batch : Type) : Type := {
  function : vec -> Batch -> R;
  jacobian : vec -> Batch -> vec
}.
Arguments function {Batch} o x args.
Arguments jacobian {Batch} o x args.

(** The attributes the base class [StochasticOptimizer] leaves on the
    object (the class is not under src/); [batches] is the finite run of
    batches its iterator yields. *)
Record StochasticOptimizer (Batch : Type) : Type := {
  so_f : Objective Batch;
  so_x : vec;
  so_batches : list Batch;
  so_eps : R;
  so_max_iter : Z;
  so_iter : Z;
  so_step_size : R;
  so_momentum_type : string;
  so_momentum : R;
  so_step : ndarray;
  so_f_x : R
}.
Arguments so_f {Batch} s.
Arguments so_x {Batch} s.
Arguments so_batches {Batch} s.
Arguments so_eps {Batch} s.
Arguments so_max_iter {Batch} s.
Arguments so_iter {Batch} s.
Arguments so_step_size {Batch} s.
Arguments so_momentum_type {Batch} s.
Arguments so_momentum {Batch} s.
Arguments so_step {Batch} s.
Arguments so_f_x {Batch} s.

End Stochastic.

Module RProp.

Record t (Batch : Type) : Type := {
  f : Stochastic.Objective Batch;
  x : vec;
  batches : list Batch;
  eps : R;
  max_iter : Z;
  iter : Z;
  momentum_type : string;
  momentum : R;
  step : ndarray;
  f_x : R;
  min_step : R;
  step_shrink : R;
  step_grow : R;
  max_step : R;
  jacobian : vec;
  changes : vec
}.
Arguments f {Batch} _.
Arguments x {Batch} _.
Arguments batches {Batch} _.
Arguments eps {Batch} _.
Arguments max_iter {Batch} _.
Arguments iter {Batch} _.
Arguments momentum_type {Batch} _.
Arguments momentum {Batch} _.
Arguments step {Batch} _.
Arguments f_x {Batch} _.
Arguments min_step {Batch} _.
Arguments step_shrink {Batch} _.
Arguments step_grow {Batch} _.
Arguments max_step {Batch} _.
Arguments jacobian {Batch} _.
Arguments changes {Batch} _.

Section Minimize.
Context {Batch : Type}.

Definition init (super : result (Stochastic.StochasticOptimizer Batch))
           (min_step step_shrink step_grow max_step : R) : result (t Batch) :=
  match super with
  | Raised e => Raised e
  | Return o =>
      Return {| f := Stochastic.so_f o; x := Stochastic.so_x o;
                batches := Stochastic.so_batches o;
                eps := Stochastic.so_eps o;
                max_iter := Stochastic.so_max_iter o;
                iter := Stochastic.so_iter o;
                momentum_type := Stochastic.so_momentum_type o;
                momentum := Stochastic.so_momentum o;
                step := Stochastic.so_step o;
                f_x := Stochastic.so_f_x o;
                min_step := min_step; step_shrink := step_shrink;
                step_grow := step_grow; max_step := max_step;
                jacobian := zeros (List.length (Stochastic.so_x o));
                changes := zeros (List.length (Stochastic.so_x o)) |}
  end.

(** The new [self.changes] from the old one, the previous gradient
    [g_m1] and the new gradient [g]. *)
Definition adapt (s : t Batch) (g_m1 g : vec) : vec :=
  let grad_prod := vmul g_m1 g in
  let c1 := imul_where (map (fun p => Rltb 0 p) grad_prod) (step_grow s) (changes s) in
  let c2 := imul_where (map (fun p => Rltb p 0) grad_prod) (step_shrink s) c1 in
  clip c2 (min_step s) (max_step s).

Definition step2 (changes g : vec) : vec := vmul changes (map sign g).

Definition upd (s : t Batch) (x' : vec) (st : vec) (fx : R) (g ch : vec) : t Batch :=
  {| f := f s; x := x'; batches := batches s; eps := eps s;
     max_iter := max_iter s; iter := (iter s + 1)%Z;
     momentum_type := momentum_type s; momentum := momentum s;
     step := Array1 st; f_x := fx;
     min_step := min_step s; step_shrink := step_shrink s;
     step_grow := step_grow s; max_step := max_step s;
     jacobian := g; changes := ch |}.

Definition set_f_x (s : t Batch) (fx : R) : t Batch :=
  {| f := f s; x := x s; batches := batches s; eps := eps s;
     max_iter := max_iter s; iter := iter s;
     momentum_type := momentum_type s; momentum := momentum s;
     step := step s; f_x := fx;
     min_step := min_step s; step_shrink := step_shrink s;
     step_grow := step_grow s; max_step := max_step s;
     jacobian := jacobian s; changes := changes s |}.

(** One pass of the loop.  The three momentum types are set out one
    after the other; each is the source's sequence of statements for
    that type. *)
Definition body (args : Batch) (s : t Batch) : outcome (t Batch) :=
  let fx := Stochastic.function (f s) (x s) args in
  if (iter s >=? max_iter s)%Z then Break (set_f_x s fx) stopped
  else if (momentum_type s =? "standard")%string then
    let step1 := nd_scale (momentum s) (step s) in
    let g := Stochastic.jacobian (f s) (x s) args in
    let ch := adapt s (jacobian s) g in
    let st2 := step2 ch g in
    Next (upd s (vsub (x s) (nd_add step1 st2)) (nd_add step1 st2) fx g ch)
  else if (momentum_type s =? "nesterov")%string then
    let step1 := nd_scale (momentum s) (step s) in
    let x1 := nd_rsub (x s) step1 in
    let g := Stochastic.jacobian (f s) x1 args in
    let ch := adapt s (jacobian s) g in
    let st2 := step2 ch g in
    Next (upd s (vsub x1 st2) (nd_add step1 st2) fx g ch)
  else
    let g := Stochastic.jacobian (f s) (x s) args in
    let ch := adapt s (jacobian s) g in
    let st2 := step2 ch g in
    Next (upd s (vsub (x s) st2) st2 fx g ch).

(** [minimize] returns [(self.x, self.f_x, status)], read off the
    returned object. *)
Definition minimize (s : t Batch) : result (t Batch * status) :=
  return_status (for_each body (batches s) s).

End Minimize.

End RProp.

(* np.maximum(a, v), v a 1-d array *)
Definition nd_maximum (a : ndarray) (v : vec) : vec :=
  match a with
  | Scalar0 r => map (Rmax r) v
  | Array1 u => map2 Rmax u v
  end.

Module AdaMax.

Record t (Batch : Type) : Type := {
  f : Stochastic.Objective Batch;
  x : vec;
  args : list Batch;         (* the batches, [self.args] *)
  eps : R;
  max_iter : Z;
  iter : Z;
  step_size : R;
  momentum_type : string;
  momentum : R;
  step : ndarray;
  f_x : R;
  beta1 : R;
  beta2 : R;
  offset : R;
  est_mom1 : ndarray;        (* 0 after construction *)
  est_mom2 : ndarray         (* 0 after construction *)
}.
Arguments f {Batch} _.
Arguments x {Batch} _.
Arguments args {Batch} _.
Arguments eps {Batch} _.
Arguments max_iter {Batch} _.
Arguments iter {Batch} _.
Arguments step_size {Batch} _.
Arguments momentum_type {Batch} _.
Arguments momentum {Batch} _.
Arguments step {Batch} _.
Arguments f_x {Batch} _.
Arguments beta1 {Batch} _.
Arguments beta2 {Batch} _.
Arguments offset {Batch} _.
Arguments est_mom1 {Batch} _.
Arguments est_mom2 {Batch} _.

Section Minimize.
Context {Batch : Type}.

Definition upd (s : t Batch) (x' : vec) (st : vec) (fx : R) (m1 m2 : vec) : t Batch :=
  {| f := f s; x := x'; args := args s; eps := eps s;
     max_iter := max_iter s; iter := (iter s + 1)%Z;
     step_size := step_size s;
     momentum_type := momentum_type s; momentum := momentum s;
     step := Array1 st; f_x := fx;
     beta1 := beta1 s; beta2 := beta2 s; offset := offset s;
     est_mom1 := Array1 m1; est_mom2 := Array1 m2 |}.

Definition set_f_x (s : t Batch) (fx : R) : t Batch :=
  {| f := f s; x := x s; args := args s; eps := eps s;
     max_iter := max_iter s; iter := iter s;
     step_size := step_size s;
     momentum_type := momentum_type s; momentum := momentum s;
     step := step s; f_x := fx;
     beta1 := beta1 s; beta2 := beta2 s; offset := offset s;
     est_mom1 := est_mom1 s; est_mom2 := est_mom2 s |}.

(** [__init__]: the moment vectors start as the scalar [0]; the warning
    on [beta1 < sqrt(beta2)] has no effect on the object. *)
Definition init (super : result (Stochastic.StochasticOptimizer Batch))
           (beta1 beta2 : R) (offset : pyval) : result (t Batch) :=
  match super with
  | Raised e => Raised e
  | Return o =>
      if negb (Rleb 0 beta1 && Rltb beta1 1)
      then Raised (ValueError "beta1 has to lie in [0, 1)")
      else if negb (Rleb 0 beta2 && Rltb beta2 1)
      then Raised (ValueError "beta2 has to lie in [0, 1)")
      else
        match offset with
        | PyArray _ => Raised (ValueError "offset is not a real scalar")
        | PyScalar off =>
            if negb (Rltb 0 off) then Raised (ValueError "offset must be > 0")
            else
              Return {| f := Stochastic.so_f o; x := Stochastic.so_x o;
                        args := Stochastic.so_batches o;
                        eps := Stochastic.so_eps o;
                        max_iter := Stochastic.so_max_iter o;
                        iter := Stochastic.so_iter o;
                        step_size := Stochastic.so_step_size o;
                        momentum_type := Stochastic.so_momentum_type o;
                        momentum := Stochastic.so_momentum o;
                        step := Stochastic.so_step o;
                        f_x := Stochastic.so_f_x o;
                        beta1 := beta1; beta2 := beta2; offset := off;
                        est_mom1 := Scalar0 0; est_mom2 := Scalar0 0 |}
        end
  end.

(** The moment estimates and [step2] from the gradient [g]. *)
Definition moments (s : t Batch) (g : vec) : vec * vec * vec :=
  let t := (iter s + 1)%Z in
  let m1 := nd_add (nd_scale (beta1 s) (est_mom1 s)) (vscale (1 - beta1 s) g) in
  let m2 := nd_maximum (nd_scale (beta2 s) (est_mom2 s)) (map Rabs g) in
  let est_mom1_crt := map (fun m => m / (1 - powerRZ (beta1 s) t)) m1 in
  let step2 := map2 Rdiv (vscale (step_size s) est_mom1_crt)
                    (map (fun v => v + offset s) m2) in
  (m1, m2, step2).

Definition body (a : Batch) (s : t Batch) : outcome (t Batch) :=
  let fx := Stochastic.function (f s) (x s) a in
  if (iter s >=? max_iter s)%Z then Break (set_f_x s fx) stopped
  else if (momentum_type s =? "standard")%string then
    let step1 := nd_scale (momentum s) (step s) in
    let g := Stochastic.jacobian (f s) (x s) a in
    let '(m1, m2, st2) := moments s g in
    Next (upd s (vsub (x s) (nd_add step1 st2)) (nd_add step1 st2) fx m1 m2)
  else if (momentum_type s =? "nesterov")%string then
    let step1 := nd_scale (momentum s) (step s) in
    let x1 := nd_rsub (x s) step1 in
    let g := Stochastic.jacobian (f s) x1 a in
    let '(m1, m2, st2) := moments s g in
    Next (upd s (vsub x1 st2) (nd_add step1 st2) fx m1 m2)
  else
    let g := Stochastic.jacobian (f s) (x s) a in
    let '(m1, m2, st2) := moments s g in
    Next (upd s (vsub (x s) st2) st2 fx m1 m2).

Definition minimize (s : t Batch) : result (t Batch * status) :=
  return_status (for_each body (args s) s).

End Minimize.

End AdaMax.

(** ** SteepestGradientDescent (gradient_descent.py) *)

Module SteepestGradientDescent.

(** [self.line_search.search], as for the conjugate gradient. *)
Definition search_t : Type :=
  vec -> vec -> vec -> vec -> Z -> R -> R -> R -> R * R * vec * vec * Z.

Record t : Type := {
  f : Objective;
  wrt : vec;
  eps : R;
  max_f_eval : Z;
  a_start : R;
  m_inf : option R;          (* None is -np.inf *)
  min_a : R;
  search : search_t;
  n : Z;
  iter : Z
}.

Record locals : Type := {
  v : R;
  g : vec;
  ng : R;
  ng0 : R;
  last_wrt : vec;
  last_g : vec;
  f_eval : Z
}.

Definition prelude (s : t) : locals :=
  let v := function (f s) (wrt s) in
  let g := jacobian (f s) (wrt s) in
  let ng := norm g in
  {| v := v; g := g; ng := ng;
     ng0 := if Rltb (eps s) 0 then - ng else 1;
     last_wrt := zeros (Z.to_nat (n s));
     last_g := zeros (Z.to_nat (n s));
     f_eval := 1 |}.

Definition le_m_inf (v : R) (m_inf : option R) : bool :=
  match m_inf with Some m => Rleb v m | None => false end.

Definition body (sl : t * locals) : outcome (t * locals) :=
  let '(s, l) := sl in
  if Rleb (ng l) (eps s * ng0 l) then Break sl optimal
  else if (f_eval l >? max_f_eval s)%Z then Break sl stopped
  else
    let d := vneg (g l) in
    let phi_p0 := - ng l * ng l in
    let '(a, v', last_wrt', last_g', f_eval') :=
      search s d (wrt s) (last_wrt l) (last_g l) (f_eval l)
             (a_start s) (v l) phi_p0 in
    let l1 := {| v := v'; g := g l; ng := ng l; ng0 := ng0 l;
                 last_wrt := last_wrt'; last_g := last_g';
                 f_eval := f_eval' |} in
    if Rleb a (min_a s) then Break (s, l1) error
    else if le_m_inf v' (m_inf s) then Break (s, l1) unbounded
    else
      Next ({| f := f s; wrt := last_wrt'; eps := eps s;
               max_f_eval := max_f_eval s; a_start := a_start s;
               m_inf := m_inf s; min_a := min_a s; search := search s;
               n := n s; iter := (iter s + 1)%Z |},
            {| v := v'; g := last_g'; ng := norm last_g'; ng0 := ng0 l;
               last_wrt := last_wrt'; last_g := last_g';
               f_eval := f_eval' |}).

Definition minimize (fuel : nat) (s : t) : option (result (t * locals * status)) :=
  while_true body fuel (s, prelude s).

End SteepestGradientDescent.

(** A line search that counts at least one function evaluation per call
    ("at each iteration at least a function evaluation is performed"). *)
Definition consumes_evaluations
           (search : vec -> vec -> vec -> vec -> Z -> R -> R -> R -> R * R * vec * vec * Z)
  : Prop :=
  forall d wrt last_wrt last_g f_eval a_start v phi_p0,
    (f_eval + 1 <= snd (search d wrt last_wrt last_g f_eval a_start v phi_p0))%Z.

(** What holds at the start of every pass of a conjugate-gradient run
    that was entered on its first pass with valid parameters. *)
Definition NCG_inv (sl : NonLinearConjugateGradient.t * NonLinearConjugateGradient.locals)
  : Prop :=
  consumes_evaluations (NonLinearConjugateGradient.search (fst sl)) /\
  (0 <= NonLinearConjugateGradient.wf (fst sl) <= 4)%Z /\
  (NonLinearConjugateGradient.r_start (fst sl) <= 0 \/
   NonLinearConjugateGradient.n (fst sl) <> 0)%Z /\
  (NonLinearConjugateGradient.iter (fst sl) = 1%Z \/
   exists pg pd, NonLinearConjugateGradient.past (snd sl) = Some (pg, pd)).

(** ** iter_mini_batches (utils.py) *)

Module Utils.

(** What running the generator gives: the first [next()] raises; or the
    rounds of the inner loop yield batches, one round after the other
    without end; or every round is empty, so that [next()] never
    returns. *)
Inductive generator (B : Type) : Type :=
| Raising (e : exn)
| Yielding (round : list B)
| Spinning.
Arguments Raising {B} e.
Arguments Yielding {B} round.
Arguments Spinning {B}.

(** A bound of [slice(start, stop)] on an array of length [len]: a
    negative bound counts from the end, and every bound is cut to
    [0 .. len]. *)
Definition slice_bound (len i : Z) : Z :=
  if (i <? 0)%Z then Z.max 0 (i + len) else Z.min i len.

(** [param[slice(start, stop)]] *)
Definition slice {A : Type} (start stop : Z) (param : list A) : list A :=
  let len := Z.of_nat (List.length param) in
  let a := slice_bound len start in
  let b := slice_bound len stop in
  firstn (Z.to_nat (b - a)) (skipn (Z.to_nat a) param).

(** [n_batches, rest = divmod(len, batch_size); if rest: n_batches += 1];
    [divmod] rounds the quotient down, as [/] and [mod] on [Z] do. *)
Definition n_batches (len batch_size : Z) : Z :=
  let q := (len / batch_size)%Z in
  let rest := (len mod batch_size)%Z in
  if (rest =? 0)%Z then q else (q + 1)%Z.

(** [list(range(n))], empty when [n <= 0]. *)
Definition range (n : Z) : list Z := map Z.of_nat (seq 0 (Z.to_nat n)).

(** The mini batch of index [i]: one aligned slice of every array. *)
Definition mini_batch {A : Type} (Xy : list (list A)) (batch_size i : Z)
  : list (list A) :=
  map (slice (i * batch_size) ((i + 1) * batch_size)) Xy.

(** The generator for [Xy = [X, y, ...]]; [idx] is the order that
    [random.shuffle] left of [list(range(n_batches))] in a round of the
    inner loop.  It raises before the first batch when a check fails or
    [divmod] divides by zero.  With a negative [batch_size] both checks
    pass, [n_batches <= 0], the list of indices is empty and the inner
    [while True] runs without ever yielding. *)
Definition iter_mini_batches {A : Type} (X y : list A) (others : list (list A))
           (batch_size : Z) (idx : list Z) : generator (list (list A)) :=
  let len := Z.of_nat (List.length X) in
  if negb (List.length X =? List.length y)%nat
  then Raising (ValueError "X and y have unequal lengths")
  else if (batch_size >? len)%Z
  then Raising (ValueError "batch_size must be less or equal than the number of examples")
  else if (batch_size =? 0)%Z then Raising ZeroDivisionError
  else if (n_batches len batch_size <=? 0)%Z then Spinning
  else Yielding (map (mini_batch (X :: y :: others) batch_size) idx).

End Utils.

(** * Scenarios

    Concrete objectives and optimizer objects used in the statements
    below.  The iteration counter a fresh optimizer starts from is set by
    the base class, which is not under src/; it is left as the argument
    [it0]. *)

Module SGDQ := SteepestGradientDescentQuadratic.

(** [Q = diag(1,1)], [q = (0,0)]. *)
Definition quad_identity : Objective := Quadratic [[1; 0]; [0; 1]] [0; 0].

(** [SteepestGradientDescentQuadratic(quad_identity, wrt=[-1, 1])] with
    the default [eps=1e-6], [max_iter=1000]. *)
Definition sgdq_identity (it0 : Z) : SGDQ.t :=
  {| SGDQ.f := quad_identity; SGDQ.wrt := [-1; 1]; SGDQ.eps := 1e-6;
     SGDQ.max_iter := 1000; SGDQ.iter := it0 |}.

(** [Q = diag(-1,-1)], [q = (0,0)]: negative curvature in every
    direction. *)
Definition quad_concave : Objective := Quadratic [[-1; 0]; [0; -1]] [0; 0].

Definition sgdq_concave (x0 : vec) (it0 : Z) : SGDQ.t :=
  {| SGDQ.f := quad_concave; SGDQ.wrt := x0; SGDQ.eps := 1e-6;
     SGDQ.max_iter := 1000; SGDQ.iter := it0 |}.

Module GD := GradientDescent.

(** [GradientDescent(quad_identity, wrt=w, step_rate=1)] with the default
    [eps=1e-6], [max_iter=1000], [momentum=0], [momentum_type='none'],
    at a later pass: the point [w], [self.step = st], [self.iter = it]. *)
Definition gd_identity_at (w : vec) (st : ndarray) (it : Z) : GD.t :=
  {| GD.f := quad_identity; GD.wrt := w; GD.eps := 1e-6;
     GD.max_iter := 1000; GD.iter := it; GD.step_rate := 1;
     GD.momentum := 0; GD.momentum_type := "none"; GD.step := st |}.

(** The freshly constructed optimizer, started from [x = (-1, 1)]. *)
Definition gd_identity (it0 : Z) : GD.t :=
  gd_identity_at [-1; 1] (Scalar0 0) it0.

Module NCG := NonLinearConjugateGradient.
Module HB := HeavyBallGradient.

(** A line search that always accepts the step [a]: it returns [a], the
    point [x + a d], the value and gradient there, and one more function
    evaluation. *)
Definition fixed_step (f : Objective) (a : R) (d x : vec) (f_eval : Z)
  : R * R * vec * vec * Z :=
  let x' := vadd x (vscale a d) in
  (a, function f x', x', jacobian f x', (f_eval + 1)%Z).

Definition ncg_search (f : Objective) (a : R) : NCG.search_t :=
  fun d wrt _ _ f_eval _ _ _ => fixed_step f a d wrt f_eval.

Definition hb_search (f : Objective) (a : R) : HB.search_t :=
  fun d x _ _ f_eval _ _ =>
    match d with
    | Some d => fixed_step f a d x f_eval
    | None => (0, function f x, x, jacobian f x, (f_eval + 1)%Z)
    end.

(** A conjugate-gradient optimizer on [quad_identity] in dimension 2, at
    the pass [it], with the defaults [eps=1e-6], [max_f_eval=1000],
    [a_start=1], [m_inf=-inf], [min_a=1e-16]. *)
Definition ncg_identity (wf r_start it : Z) : NCG.t :=
  {| NCG.f := quad_identity; NCG.wrt := [1; 0]; NCG.eps := 1e-6;
     NCG.max_f_eval := 1000; NCG.a_start := 1; NCG.m_inf := None;
     NCG.min_a := 1e-16; NCG.search := ncg_search quad_identity (1 / 2);
     NCG.n := 2; NCG.iter := it; NCG.wf := wf; NCG.r_start := r_start |}.

(** Locals at a later pass: gradient [(1,0)], previous gradient [(1,1)]
    and previous direction [(-1,-1)]. *)
Definition ncg_locals : NCG.locals :=
  {| NCG.v := 1 / 2; NCG.g := [1; 0]; NCG.ng := 1; NCG.ng0 := 1;
     NCG.last_wrt := [1; 0]; NCG.last_g := [1; 0]; NCG.f_eval := 2;
     NCG.past := Some ([1; 1], [-1; -1]) |}.

(** [Q = diag(1,2)], [q = (0,0)]. *)
Definition quad_12 : Objective := Quadratic [[1; 0]; [0; 2]] [0; 0].

(** [NonLinearConjugateGradient(quad_12, wrt=[1, 1], wf)] with a line
    search that accepts the step [1], at its second pass: the first pass
    went along [-g0 = (-1,-2)] to the point [(0,-1)], where the gradient
    is [(0,-2)]. *)
Definition ncg_12 (wf : Z) : NCG.t :=
  {| NCG.f := quad_12; NCG.wrt := [0; -1]; NCG.eps := 1e-6;
     NCG.max_f_eval := 1000; NCG.a_start := 1; NCG.m_inf := None;
     NCG.min_a := 1e-16; NCG.search := ncg_search quad_12 1;
     NCG.n := 2; NCG.iter := 2; NCG.wf := wf; NCG.r_start := 0 |}.

Definition ncg_12_locals : NCG.locals :=
  {| NCG.v := 1; NCG.g := [0; -2]; NCG.ng := norm [0; -2]; NCG.ng0 := 1;
     NCG.last_wrt := [0; -1]; NCG.last_g := [0; -2]; NCG.f_eval := 2;
     NCG.past := Some ([1; 2], [-1; -2]) |}.

(** [HeavyBallGradient(quad_12, x=[1, 1], beta=0.9)] with the defaults
    [eps=1e-6], [max_iter=1000], [max_f_eval=1000], [m_inf=-inf],
    [min_a=1e-16], and a line search that accepts the step [1/2]. *)
Definition hb_12 (b : R) : HB.t :=
  {| HB.f := quad_12; HB.n := 2; HB.x := [1; 1]; HB.beta := b;
     HB.eps := 1e-6; HB.max_iter := 1000; HB.m_inf := None;
     HB.line_search := {| HB.search := hb_search quad_12 (1 / 2);
                          HB.max_f_eval := 1000; HB.min_a := 1e-16 |};
     HB.iter := 0; HB.f_x := 0 |}.

(** The object and the locals after the first pass of [hb_12 b]. *)
Definition hb_12_second (b : R) : HB.t * HB.locals :=
  (HB.upd (hb_12 b) [1 / 2; 0] 1 (1 / 8),
   {| HB.last_x := [1 / 2; 0]; HB.last_g := [1 / 2; 0]; HB.f_eval := 2;
      HB.past_d := [- (1 / 2); -1] |}).

(** What [Optimizer.__init__(quad_identity, wrt=[-1, 1])] leaves on the
    object, with the default [eps] and [max_iter]. *)
Definition base_identity (it0 : Z) : Optimizer :=
  {| opt_f := quad_identity; opt_wrt := [-1; 1]; opt_eps := 1e-6;
     opt_max_iter := 1000; opt_iter := it0 |}.

(** What [LineSearchOptimizer.__init__(quad_identity, wrt=[1, 0])] leaves
    on the object, with the defaults and the line search [ncg_search]. *)
Definition base_ls_identity (it0 : Z) : NCG.LineSearchOptimizer :=
  {| NCG.ls_f := quad_identity; NCG.ls_wrt := [1; 0]; NCG.ls_eps := 1e-6;
     NCG.ls_max_f_eval := 1000; NCG.ls_a_start := 1; NCG.ls_m_inf := None;
     NCG.ls_min_a := 1e-16; NCG.ls_search := ncg_search quad_identity (1 / 2);
     NCG.ls_n := 2; NCG.ls_iter := it0 |}.

(** [quad_identity] as the objective of a stochastic optimizer; there is
    no data, every batch is the empty tuple of arguments. *)
Definition squad_identity : Stochastic.Objective unit :=
  {| Stochastic.function := fun x _ => function quad_identity x;
     Stochastic.jacobian := fun x _ => jacobian quad_identity x |}.

(** What [StochasticOptimizer.__init__(quad_identity, x=x0)] leaves on the
    object: the defaults [eps=1e-6], [epochs=1000], [momentum_type='none'],
    [momentum=0.9], [step_size=0.001], no step taken yet, and [nb]
    batches to iterate over. *)
Definition base_stochastic (x0 : vec) (nb : nat) : Stochastic.StochasticOptimizer unit :=
  {| Stochastic.so_f := squad_identity; Stochastic.so_x := x0;
     Stochastic.so_batches := repeat tt nb; Stochastic.so_eps := 1e-6;
     Stochastic.so_max_iter := 1000; Stochastic.so_iter := 0;
     Stochastic.so_step_size := 1 / 1000;
     Stochastic.so_momentum_type := "none"; Stochastic.so_momentum := 9 / 10;
     Stochastic.so_step := Scalar0 0; Stochastic.so_f_x := 0 |}.

(** [RProp(quad_identity, x=x0)] with the defaults [min_step=1e-6],
    [step_shrink=0.5], [step_grow=1.2], [max_step=1]. *)
Definition rprop_identity (x0 : vec) (nb : nat) : RProp.t unit :=
  {| RProp.f := squad_identity; RProp.x := x0;
     RProp.batches := repeat tt nb; RProp.eps := 1e-6;
     RProp.max_iter := 1000; RProp.iter := 0;
     RProp.momentum_type := "none"; RProp.momentum := 9 / 10;
     RProp.step := Scalar0 0; RProp.f_x := 0;
     RProp.min_step := 1e-6; RProp.step_shrink := 1 / 2;
     RProp.step_grow := 6 / 5; RProp.max_step := 1;
     RProp.jacobian := zeros (List.length x0);
     RProp.changes := zeros (List.length x0) |}.

(** [AdaMax(quad_identity, x=x0)] with the defaults [step_size=0.002],
    [beta1=0.9], [beta2=0.999], [offset=1e-8]. *)
Definition adamax_identity (x0 : vec) (nb : nat) : AdaMax.t unit :=
  {| AdaMax.f := squad_identity; AdaMax.x := x0;
     AdaMax.args := repeat tt nb; AdaMax.eps := 1e-6;
     AdaMax.max_iter := 1000; AdaMax.iter := 0;
     AdaMax.step_size := 2 / 1000;
     AdaMax.momentum_type := "none"; AdaMax.momentum := 9 / 10;
     AdaMax.step := Scalar0 0; AdaMax.f_x := 0;
     AdaMax.beta1 := 9 / 10; AdaMax.beta2 := 999 / 1000;
     AdaMax.offset := 1e-8;
     AdaMax.est_mom1 := Scalar0 0; AdaMax.est_mom2 := Scalar0 0 |}.

(** [RProp] on [quad_identity] at a later pass: the point is [(1,1)], so
    the new gradient is [(1,1)]; the previous gradient was [(-1,1)] and
    both step magnitudes are [1/10].  Coordinate 0 sees a sign flip,
    coordinate 1 does not. *)
Definition rprop_flip : RProp.t unit :=
  {| RProp.f := squad_identity; RProp.x := [1; 1];
     RProp.batches := [tt]; RProp.eps := 1e-6;
     RProp.max_iter := 1000; RProp.iter := 5;
     RProp.momentum_type := "none"; RProp.momentum := 9 / 10;
     RProp.step := Array1 [- (1 / 10); 1 / 10]; RProp.f_x := 1;
     RProp.min_step := 1e-6; RProp.step_shrink := 1 / 2;
     RProp.step_grow := 6 / 5; RProp.max_step := 1;
     RProp.jacobian := [-1; 1];
     RProp.changes := [1 / 10; 1 / 10] |}.

(** The same pass of [RProp] with another momentum type. *)
Definition rprop_flip_with (mt : string) : RProp.t unit :=
  {| RProp.f := squad_identity; RProp.x := [1; 1];
     RProp.batches := [tt]; RProp.eps := 1e-6;
     RProp.max_iter := 1000; RProp.iter := 5;
     RProp.momentum_type := mt; RProp.momentum := 9 / 10;
     RProp.step := Array1 [- (1 / 10); 1 / 10]; RProp.f_x := 1;
     RProp.min_step := 1e-6; RProp.step_shrink := 1 / 2;
     RProp.step_grow := 6 / 5; RProp.max_step := 1;
     RProp.jacobian := [-1; 1];
     RProp.changes := [1 / 10; 1 / 10] |}.

(** The same [GradientDescent] object with another momentum type. *)
Definition gd_with_momentum_type (s : GD.t) (mt : string) : GD.t :=
  {| GD.f := GD.f s; GD.wrt := GD.wrt s; GD.eps := GD.eps s;
     GD.max_iter := GD.max_iter s; GD.iter := GD.iter s;
     GD.step_rate := GD.step_rate s; GD.momentum := GD.momentum s;
     GD.momentum_type := mt; GD.step := GD.step s |}.

Module SGD := SteepestGradientDescent.

(** [SteepestGradientDescent(quad_identity, wrt=[1, 0])] with the defaults
    and a line search that accepts the step [1/2]. *)
Definition sgd_identity (it0 : Z) : SGD.t :=
  {| SGD.f := quad_identity; SGD.wrt := [1; 0]; SGD.eps := 1e-6;
     SGD.max_f_eval := 1000; SGD.a_start := 1; SGD.m_inf := None;
     SGD.min_a := 1e-16; SGD.search := ncg_search quad_identity (1 / 2);
     SGD.n := 2; SGD.iter := it0 |}.

(** * Properties *)

(** ** Scalars and vectors *)

Lemma Rleb_true x y : x <= y -> Rleb x y = true.
Proof. intros H. unfold Rleb. destruct (Rle_dec x y); [reflexivity | contradiction]. Qed.

Lemma Rleb_false x y : y < x -> Rleb x y = false.
Proof. intros H. unfold Rleb. destruct (Rle_dec x y); [lra | reflexivity]. Qed.

Lemma Rltb_true x y : x < y -> Rltb x y = true.
Proof. intros H. unfold Rltb. destruct (Rlt_dec x y); [reflexivity | contradiction]. Qed.

Lemma Rltb_false x y : y <= x -> Rltb x y = false.
Proof. intros H. unfold Rltb. destruct (Rlt_dec x y); [lra | reflexivity]. Qed.

Lemma Rleb_spec x y : reflect (x <= y) (Rleb x y).
Proof. unfold Rleb. destruct (Rle_dec x y); constructor; assumption. Qed.

Lemma Rltb_spec x y : reflect (x < y) (Rltb x y).
Proof. unfold Rltb. destruct (Rlt_dec x y); constructor; assumption. Qed.

Lemma Reqb_true x y : x = y -> Reqb x y = true.
Proof. intros H. unfold Reqb. destruct (Req_dec_T x y); [reflexivity | contradiction]. Qed.

Lemma Reqb_false x y : x <> y -> Reqb x y = false.
Proof. intros H. unfold Reqb. destruct (Req_dec_T x y); [contradiction | reflexivity]. Qed.

Lemma sqrt_le_bound x y : 0 <= y -> x <= y * y -> sqrt x <= y.
Proof.
  intros Hy H. rewrite <- (sqrt_square y Hy). apply sqrt_le_1_alt. exact H.
Qed.

Lemma while_true_more {S} (body : S -> outcome S) k k' s r :
  (k <= k')%nat -> while_true body k s = Some r -> while_true body k' s = Some r.
Proof.
  revert k' s. induction k as [|k IH]; intros k' s Hk H; [discriminate|].
  destruct k' as [|k']; [lia|]. simpl in *.
  destruct (body s) as [s'|s' st|e]; try assumption.
  apply IH; [lia | assumption].
Qed.

Lemma sqrt_gt_bound x y : 0 <= y -> y * y < x -> y < sqrt x.
Proof.
  intros Hy H. rewrite <- (sqrt_square y Hy).
  apply sqrt_lt_1_alt. split; [nra | exact H].
Qed.

Lemma Zgtb_false a b : (a <= b)%Z -> (a >? b)%Z = false.
Proof. intros H. rewrite Z.gtb_ltb. apply Z.ltb_ge. exact H. Qed.

Lemma Zgtb_true a b : (b < a)%Z -> (a >? b)%Z = true.
Proof. intros H. rewrite Z.gtb_ltb. apply Z.ltb_lt. exact H. Qed.

(** Unfold the vector operations on explicit lists, leaving real
    arithmetic. *)
Ltac vec_compute :=
  cbv [Quadratic function jacobian hessian
       norm dot vmul vadd vsub vneg vscale matvec vecmat column zeros
       map2 map fold_right seq List.length hd nth repeat].
Ltac vec_lra := vec_compute; repeat (f_equal; try lra).

(** ** SteepestGradientDescentQuadratic *)

Lemma SGDQ_body_optimal s :
  norm (jacobian (SGDQ.f s) (SGDQ.wrt s)) <= SGDQ.eps s ->
  SGDQ.body s = Break s optimal.
Proof. intros H. unfold SGDQ.body. rewrite (Rleb_true _ _ H). reflexivity. Qed.

Lemma SGDQ_body_stopped s :
  SGDQ.eps s < norm (jacobian (SGDQ.f s) (SGDQ.wrt s)) ->
  (SGDQ.max_iter s < SGDQ.iter s)%Z ->
  SGDQ.body s = Break s stopped.
Proof.
  intros H Hi. unfold SGDQ.body.
  rewrite (Rleb_false _ _ H), (Zgtb_true _ _ Hi). reflexivity.
Qed.

Lemma SGDQ_body_unbounded s :
  SGDQ.eps s < norm (jacobian (SGDQ.f s) (SGDQ.wrt s)) ->
  (SGDQ.iter s <= SGDQ.max_iter s)%Z ->
  dot (vecmat (vneg (jacobian (SGDQ.f s) (SGDQ.wrt s))) (hessian (SGDQ.f s)))
      (vneg (jacobian (SGDQ.f s) (SGDQ.wrt s))) <= 1e-12 ->
  SGDQ.body s = Break s unbounded.
Proof.
  intros H Hi Hd. unfold SGDQ.body.
  rewrite (Rleb_false _ _ H), (Zgtb_false _ _ Hi), (Rleb_true _ _ Hd). reflexivity.
Qed.

Lemma SGDQ_body_next s g dn w' :
  jacobian (SGDQ.f s) (SGDQ.wrt s) = g ->
  SGDQ.eps s < norm g ->
  (SGDQ.iter s <= SGDQ.max_iter s)%Z ->
  dot (vecmat (vneg g) (hessian (SGDQ.f s))) (vneg g) = dn ->
  1e-12 < dn ->
  vadd (SGDQ.wrt s) (vscale (dot (vneg g) (vneg g) / dn) (vneg g)) = w' ->
  SGDQ.body s = Next (SGDQ.advance s w').
Proof.
  intros Hg Hng Hit Hd Hdn Hw. unfold SGDQ.body. rewrite Hg.
  rewrite (Rleb_false _ _ Hng), (Zgtb_false _ _ Hit).
  rewrite Hd, (Rleb_false _ _ Hdn), Hw. reflexivity.
Qed.

(** A pass that falls through had [iter <= max_iter] and only moved the
    point and the counter. *)
Lemma SGDQ_body_next_inv s s' :
  SGDQ.body s = Next s' ->
  (SGDQ.iter s <= SGDQ.max_iter s)%Z /\
  SGDQ.iter s' = (SGDQ.iter s + 1)%Z /\
  SGDQ.max_iter s' = SGDQ.max_iter s.
Proof.
  unfold SGDQ.body.
  destruct (Rleb _ _); [discriminate|].
  destruct (Z.gtb_spec (SGDQ.iter s) (SGDQ.max_iter s)) as [Hgt|Hle]; [discriminate|].
  destruct (Rleb _ _); [discriminate|].
  intros Heq. injection Heq as <-. cbn. split; [lia|]. split; reflexivity.
Qed.

(** The loop never raises and always breaks within its budget. *)
Lemma SGDQ_loop_returns k : forall s,
  (Z.to_nat (SGDQ.max_iter s - SGDQ.iter s + 1) <= k)%nat ->
  exists r, while_true SGDQ.body (S k) s = Some (Return r).
Proof.
  induction k as [|k IH]; intros s Hk.
  - cbn. unfold SGDQ.body.
    destruct (Rleb _ _); [eexists; reflexivity|].
    rewrite Zgtb_true by lia. eexists; reflexivity.
  - cbn [while_true]. destruct (SGDQ.body s) as [s'|s' st|e] eqn:Hb.
    + apply SGDQ_body_next_inv in Hb. destruct Hb as (Hi & Hi' & Hm).
      apply IH. rewrite Hi', Hm. lia.
    + eexists; reflexivity.
    + exfalso. revert Hb. unfold SGDQ.body.
      repeat (destruct (_ : bool); try discriminate).
Qed.

Lemma SGDQ_minimize_returns s : exists r, SGDQ.minimize s = Some (Return r).
Proof. apply SGDQ_loop_returns. unfold SGDQ.budget. lia. Qed.

(** Passes that fall through use up one unit of fuel each. *)
Lemma SGDQ_reaches_fuel s0 s :
  reaches SGDQ.body s0 s ->
  (SGDQ.iter s0 <= SGDQ.iter s)%Z /\
  SGDQ.max_iter s = SGDQ.max_iter s0 /\
  (s = s0 \/ (SGDQ.iter s <= SGDQ.max_iter s0 + 1)%Z) /\
  forall fuel r,
    while_true SGDQ.body fuel s = Some r ->
    while_true SGDQ.body (Z.to_nat (SGDQ.iter s - SGDQ.iter s0) + fuel) s0 = Some r.
Proof.
  intros Hreach. induction Hreach as [|s1 s2 Hr IH Hb].
  - split; [lia|]. split; [reflexivity|]. split; [left; reflexivity|].
    intros fuel r H. rewrite Z.sub_diag. exact H.
  - destruct IH as (Hle & Hm & _ & Hrun).
    apply SGDQ_body_next_inv in Hb as Hinv. destruct Hinv as (Hi & Hi' & Hm').
    split; [lia|]. split; [congruence|]. split; [right; lia|].
    intros fuel r H.
    replace (Z.to_nat (SGDQ.iter s2 - SGDQ.iter s0) + fuel)%nat
      with (Z.to_nat (SGDQ.iter s1 - SGDQ.iter s0) + S fuel)%nat by lia.
    apply Hrun. cbn [while_true]. rewrite Hb. exact H.
Qed.

(** The state in which a reachable pass breaks is what [minimize] returns. *)
Lemma SGDQ_minimize_reaches s0 s s' st :
  reaches SGDQ.body s0 s ->
  SGDQ.body s = Break s' st ->
  SGDQ.minimize s0 = Some (Return (s', st)).
Proof.
  intros Hr Hb. destruct (SGDQ_reaches_fuel _ _ Hr) as (Hle & Hm & Hor & Hrun).
  unfold SGDQ.minimize.
  apply while_true_more with (k := (Z.to_nat (SGDQ.iter s - SGDQ.iter s0) + 1)%nat).
  - unfold SGDQ.budget. destruct Hor as [->|Hor]; lia.
  - apply Hrun. cbn. rewrite Hb. reflexivity.
Qed.

(** The scenario objects are what the constructors build. *)
Lemma sgdq_identity_constructed it0 :
  SGDQ.init (Return (base_identity it0)) None = Return (sgdq_identity it0).
Proof. reflexivity. Qed.

(** C1: on [Q = diag(1,1)], [q = (0,0)] from [x = (-1,1)] with the default
    parameters, exact-line-search steepest descent returns [x = (0,0)]
    with status [optimal], and the iteration counter has advanced by
    exactly one. *)
Theorem C1_sgdq_identity_optimal_in_one_iteration (it0 : Z) :
  (it0 <= 1000)%Z ->
  SGDQ.minimize (sgdq_identity it0) =
  Some (Return ({| SGDQ.f := quad_identity; SGDQ.wrt := [0; 0];
                   SGDQ.eps := 1e-6; SGDQ.max_iter := 1000;
                   SGDQ.iter := (it0 + 1)%Z |}, optimal)).
Proof.
  intros Hit.
  assert (Hstep : SGDQ.body (sgdq_identity it0) =
                  Next (SGDQ.advance (sgdq_identity it0) [0; 0])).
  { apply (SGDQ_body_next (sgdq_identity it0) [-1; 1] 2 [0; 0]).
    - unfold sgdq_identity, quad_identity. cbn [SGDQ.f SGDQ.wrt]. vec_lra.
    - cbn [sgdq_identity SGDQ.eps]. unfold norm.
      apply sqrt_gt_bound; [lra|]. vec_compute. lra.
    - exact Hit.
    - unfold sgdq_identity, quad_identity. cbn [SGDQ.f]. vec_compute. lra.
    - lra.
    - cbn [sgdq_identity SGDQ.wrt]. vec_lra. }
  apply SGDQ_minimize_reaches with (s := SGDQ.advance (sgdq_identity it0) [0; 0]).
  - eapply reaches_step; [apply reaches_refl | exact Hstep].
  - apply SGDQ_body_optimal.
    unfold sgdq_identity, quad_identity, SGDQ.advance. cbn [SGDQ.f SGDQ.wrt SGDQ.eps].
    apply sqrt_le_bound; [lra|]. vec_compute. lra.
Qed.

Lemma C1_witness :
  SGDQ.minimize (sgdq_identity 1) =
  Some (Return ({| SGDQ.f := quad_identity; SGDQ.wrt := [0; 0];
                   SGDQ.eps := 1e-6; SGDQ.max_iter := 1000;
                   SGDQ.iter := 2%Z |}, optimal)).
Proof. apply (C1_sgdq_identity_optimal_in_one_iteration 1). lia. Defined.

(** C2 (as amended): at every pass of exact-line-search steepest descent
    that gets past the two stopping checks (gradient norm above [eps],
    [iter <= max_iter]) the direction is [d = -g]; when
    [d^T Q d <= 1e-12] the run ends there with status [unbounded], and
    otherwise the point moves by [a * d] with [a = d^T d / d^T Q d]. *)
Theorem C2_sgdq_step_and_unbounded (s0 s : SGDQ.t) :
  reaches SGDQ.body s0 s ->
  SGDQ.eps s < norm (jacobian (SGDQ.f s) (SGDQ.wrt s)) ->
  (SGDQ.iter s <= SGDQ.max_iter s)%Z ->
  let g := jacobian (SGDQ.f s) (SGDQ.wrt s) in
  let d := vneg g in
  let den := dot (vecmat d (hessian (SGDQ.f s))) d in
  let a := dot d d / den in
  (den <= 1e-12 ->
   SGDQ.body s = Break s unbounded /\
   SGDQ.minimize s0 = Some (Return (s, unbounded))) /\
  (1e-12 < den ->
   SGDQ.body s = Next (SGDQ.advance s (vadd (SGDQ.wrt s) (vscale a d)))).
Proof.
  intros Hr Hng Hit g d den a. split.
  - intros Hden.
    assert (Hb : SGDQ.body s = Break s unbounded)
      by (apply SGDQ_body_unbounded; assumption).
    split; [exact Hb|]. eapply SGDQ_minimize_reaches; eassumption.
  - intros Hden. apply (SGDQ_body_next s g den); try reflexivity; assumption.
Qed.

Lemma sgdq_concave_unit_facts it0 :
  SGDQ.eps (sgdq_concave [1; 0] it0) <
    norm (jacobian (SGDQ.f (sgdq_concave [1; 0] it0)) (SGDQ.wrt (sgdq_concave [1; 0] it0))) /\
  dot (vecmat (vneg (jacobian (SGDQ.f (sgdq_concave [1; 0] it0))
                              (SGDQ.wrt (sgdq_concave [1; 0] it0))))
              (hessian (SGDQ.f (sgdq_concave [1; 0] it0))))
      (vneg (jacobian (SGDQ.f (sgdq_concave [1; 0] it0))
                      (SGDQ.wrt (sgdq_concave [1; 0] it0)))) <= 1e-12.
Proof.
  unfold sgdq_concave, quad_concave. cbn [SGDQ.f SGDQ.wrt SGDQ.eps]. split.
  - unfold norm. apply sqrt_gt_bound; [lra|]. vec_compute. lra.
  - vec_compute. lra.
Qed.

Lemma C2_witness :
  SGDQ.minimize (sgdq_concave [1; 0] 1) =
  Some (Return (sgdq_concave [1; 0] 1, unbounded)).
Proof.
  destruct (sgdq_concave_unit_facts 1) as [Hng Hden].
  apply (C2_sgdq_step_and_unbounded (sgdq_concave [1; 0] 1) (sgdq_concave [1; 0] 1)
           (reaches_refl _ _) Hng ltac:(cbn; lia)).
  exact Hden.
Defined.

(** C2 as stated fails: from [x = (1e-7, 0)] on [Q = diag(-1,-1)] the
    direction [d = -g] is nonzero and has negative curvature, yet the
    gradient norm is already below [eps] and the run returns [optimal]. *)
Lemma C2_counterexample :
  vneg (jacobian quad_concave [1e-7; 0]) = [1e-7; 0] /\
  dot (vecmat (vneg (jacobian quad_concave [1e-7; 0])) (hessian quad_concave))
      (vneg (jacobian quad_concave [1e-7; 0])) < 0 /\
  SGDQ.minimize (sgdq_concave [1e-7; 0] 1) =
  Some (Return (sgdq_concave [1e-7; 0] 1, optimal)) /\
  optimal <> unbounded.
Proof.
  split; [unfold quad_concave; vec_lra|].
  split; [unfold quad_concave; vec_compute; lra|].
  split; [|discriminate].
  eapply SGDQ_minimize_reaches; [apply reaches_refl|].
  apply SGDQ_body_optimal.
  unfold sgdq_concave, quad_concave. cbn [SGDQ.f SGDQ.wrt SGDQ.eps].
  apply sqrt_le_bound; [lra|]. vec_compute. lra.
Qed.

(** ** GradientDescent *)

Lemma gd_identity_constructed it0 :
  GD.init (Return (base_identity it0)) (PyScalar 1) (PyScalar 0) "none" =
  Return (gd_identity it0).
Proof. unfold GD.init. rewrite !Rltb_false by lra. reflexivity. Qed.

(** The stopping test of every pass reads the locals [ng], [ng0] of the
    prelude: whether a run ends in [optimal] is fixed by the first
    gradient alone. *)
Lemma GD_loop_status l e fuel : forall s r st,
  GD.eps s = e ->
  while_true (GD.body l) fuel s = Some (Return (r, st)) ->
  (st = optimal <-> GD.ng l <= e * GD.ng0 l).
Proof.
  induction fuel as [|k IH]; intros s r st He H; [discriminate|].
  cbn [while_true] in H. unfold GD.body in H.
  destruct (GD.move s) as [w step'].
  rewrite He in H.
  destruct (Rleb_spec (GD.ng l) (e * GD.ng0 l)) as [Hle|Hgt].
  - injection H as _ <-. tauto.
  - destruct (GD.iter s >? GD.max_iter s)%Z.
    + injection H as _ <-. split; [discriminate | contradiction].
    + destruct step' as [stv|]; [|discriminate].
      apply IH in H; [exact H | exact He].
Qed.

Lemma GD_status_fixed_by_first_gradient s r st :
  GD.minimize s = Some (Return (r, st)) ->
  (st = optimal <->
   GD.ng (GD.prelude s) <= GD.eps s * GD.ng0 (GD.prelude s)).
Proof. intros H. eapply GD_loop_status; [reflexivity | exact H]. Qed.

Lemma quad_identity_jacobian a b : jacobian quad_identity [a; b] = [a; b].
Proof. unfold quad_identity. vec_lra. Qed.

Lemma gd_identity_prelude it0 :
  Rleb (GD.ng (GD.prelude (gd_identity it0)))
       (1e-6 * GD.ng0 (GD.prelude (gd_identity it0))) = false.
Proof.
  apply Rleb_false. unfold GD.prelude, gd_identity, gd_identity_at.
  cbn [GD.f GD.wrt GD.eps GD.ng GD.ng0].
  rewrite Rltb_false by lra.
  unfold norm. apply sqrt_gt_bound; [lra|].
  unfold quad_identity. vec_compute. lra.
Qed.

Lemma gd_identity_first_pass l it0 :
  Rleb (GD.ng l) (1e-6 * GD.ng0 l) = false ->
  (it0 <= 1000)%Z ->
  GD.body l (gd_identity it0) =
  Next (gd_identity_at [0; 0] (Array1 [-1; 1]) (it0 + 1)).
Proof.
  intros Hl Hit. unfold GD.body, GD.move, gd_identity, gd_identity_at.
  cbn [GD.momentum_type GD.f GD.wrt GD.eps GD.iter GD.max_iter GD.step_rate
       String.eqb Ascii.eqb Bool.eqb GD.set_wrt GD.commit GD.step GD.momentum].
  rewrite Hl, (Zgtb_false _ _ Hit), !quad_identity_jacobian.
  unfold GD.commit, GD.set_wrt.
  cbn [GD.momentum_type GD.f GD.wrt GD.eps GD.iter GD.max_iter GD.step_rate
       GD.step GD.momentum].
  do 2 f_equal; vec_lra.
Qed.

Lemma gd_identity_later_pass l st it :
  Rleb (GD.ng l) (1e-6 * GD.ng0 l) = false ->
  (it <= 1000)%Z ->
  GD.body l (gd_identity_at [0; 0] st it) =
  Next (gd_identity_at [0; 0] (Array1 [0; 0]) (it + 1)).
Proof.
  intros Hl Hit. unfold GD.body, GD.move, gd_identity_at.
  cbn [GD.momentum_type GD.f GD.wrt GD.eps GD.iter GD.max_iter GD.step_rate
       String.eqb Ascii.eqb Bool.eqb GD.set_wrt GD.commit GD.step GD.momentum].
  rewrite Hl, (Zgtb_false _ _ Hit), !quad_identity_jacobian.
  unfold GD.commit, GD.set_wrt.
  cbn [GD.momentum_type GD.f GD.wrt GD.eps GD.iter GD.max_iter GD.step_rate
       GD.step GD.momentum].
  do 2 f_equal; vec_lra.
Qed.

Lemma gd_identity_last_pass l st it :
  Rleb (GD.ng l) (1e-6 * GD.ng0 l) = false ->
  (1000 < it)%Z ->
  GD.body l (gd_identity_at [0; 0] st it) =
  Break (gd_identity_at [0; 0] st it) stopped.
Proof.
  intros Hl Hit. unfold GD.body, GD.move, gd_identity_at.
  cbn [GD.momentum_type GD.f GD.wrt GD.eps GD.iter GD.max_iter GD.step_rate
       String.eqb Ascii.eqb Bool.eqb GD.set_wrt GD.commit GD.step GD.momentum].
  rewrite Hl, (Zgtb_true _ _ Hit), !quad_identity_jacobian.
  unfold GD.set_wrt.
  cbn [GD.momentum_type GD.f GD.wrt GD.eps GD.iter GD.max_iter GD.step_rate
       GD.step GD.momentum].
  do 2 f_equal; vec_lra.
Qed.

Lemma gd_identity_runs_to_budget l :
  Rleb (GD.ng l) (1e-6 * GD.ng0 l) = false ->
  forall k st it,
    (it <= 1000)%Z -> k = Z.to_nat (1000 - it) ->
    while_true (GD.body l) (S (S k)) (gd_identity_at [0; 0] st it) =
    Some (Return (gd_identity_at [0; 0] (Array1 [0; 0]) 1001, stopped)).
Proof.
  intros Hl. induction k as [|k IH]; intros st it Hit Hk.
  - assert (it = 1000%Z) by lia. subst it.
    cbn [while_true]. rewrite gd_identity_later_pass by (assumption || lia).
    rewrite gd_identity_last_pass by (assumption || lia). reflexivity.
  - change (while_true (GD.body l) (S (S (S k))) (gd_identity_at [0; 0] st it))
      with (match GD.body l (gd_identity_at [0; 0] st it) with
            | Next s' => while_true (GD.body l) (S (S k)) s'
            | Break s' st => Some (Return (s', st))
            | Raise e => Some (Raised e)
            end).
    rewrite gd_identity_later_pass by (assumption || lia).
    apply IH; lia.
Qed.

(** C5 (evaluation of the code where the claim fails): with
    [step_rate = 1] the first pass moves [(-1,1)] to the minimiser
    [(0,0)], where the gradient is zero; the run nevertheless goes on
    until [iter] passes [max_iter] and returns [stopped], because the
    stopping test keeps comparing the norm of the first gradient. *)
Theorem C5_gd_tests_first_gradient_only (it0 : Z) :
  (0 <= it0 <= 1)%Z ->
  GD.minimize (gd_identity it0) =
    Some (Return (gd_identity_at [0; 0] (Array1 [0; 0]) 1001, stopped)) /\
  norm (jacobian quad_identity [0; 0]) <= 1e-6.
Proof.
  intros Hit. split.
  - unfold GD.minimize.
    pose proof (gd_identity_prelude it0) as Hl.
    set (l := GD.prelude (gd_identity it0)) in *.
    assert (Hb : GD.budget (gd_identity it0) = S (S (S (Z.to_nat (1000 - (it0 + 1)))))).
    { unfold GD.budget, gd_identity, gd_identity_at. cbn [GD.max_iter GD.iter]. lia. }
    rewrite Hb.
    change (while_true (GD.body l) (S (S (S (Z.to_nat (1000 - (it0 + 1))))))
                       (gd_identity it0))
      with (match GD.body l (gd_identity it0) with
            | Next s' => while_true (GD.body l) (S (S (Z.to_nat (1000 - (it0 + 1))))) s'
            | Break s' st => Some (Return (s', st))
            | Raise e => Some (Raised e)
            end).
    rewrite gd_identity_first_pass by (assumption || lia).
    apply gd_identity_runs_to_budget; [exact Hl | lia | reflexivity].
  - unfold norm, quad_identity. apply sqrt_le_bound; [lra|]. vec_compute. lra.
Qed.

Lemma C5_witness :
  GD.minimize (gd_identity 1) =
    Some (Return (gd_identity_at [0; 0] (Array1 [0; 0]) 1001, stopped)) /\
  norm (jacobian quad_identity [0; 0]) <= 1e-6.
Proof. apply (C5_gd_tests_first_gradient_only 1). lia. Defined.

(** ** Norms and the scenario objectives *)

Lemma dot_nil_r (u : vec) : dot u [] = 0.
Proof. destruct u; reflexivity. Qed.

Lemma dot_cons a u b v : dot (a :: u) (b :: v) = a * b + dot u v.
Proof. reflexivity. Qed.

Lemma dot_self_nonneg (v : vec) : 0 <= dot v v.
Proof.
  induction v as [|a v IH]; [cbn; lra|].
  rewrite dot_cons. nra.
Qed.

Lemma norm_sqr (v : vec) : norm v ^ 2 = dot v v.
Proof.
  unfold norm. cbn [pow]. rewrite Rmult_1_r.
  apply sqrt_sqrt, dot_self_nonneg.
Qed.

Lemma norm_nonneg (v : vec) : 0 <= norm v.
Proof. apply sqrt_pos. Qed.

Lemma quad_12_jacobian a b : jacobian quad_12 [a; b] = [a; 2 * b].
Proof. unfold quad_12. vec_lra. Qed.

Lemma quad_12_function a b : function quad_12 [a; b] = a * a / 2 + b * b.
Proof. unfold quad_12. vec_compute. lra. Qed.

(** ** NonLinearConjugateGradient *)

Lemma vadd_vscale_0 (u v : vec) :
  List.length v = List.length u -> vadd u (vscale 0 v) = u.
Proof.
  revert v. induction u as [|a u IH]; intros [|b v] H; try discriminate; [reflexivity|].
  cbn. f_equal; [lra|]. apply IH. injection H as H. exact H.
Qed.

Lemma vneg_length (u : vec) : List.length (vneg u) = List.length u.
Proof. apply length_map. Qed.

(** With [r_start > 0] on a problem of dimension [n > 0] the restart
    test of the code holds exactly when [iter] is a multiple of [n]. *)
Lemma NCG_restart_spec (s : NCG.t) :
  (0 < NCG.r_start s)%Z -> (0 < NCG.n s)%Z ->
  NCG.restart s = Return (NCG.iter s mod NCG.n s =? 0)%Z.
Proof.
  intros Hr Hn. unfold NCG.restart.
  rewrite Zgtb_true by lia.
  destruct (Z.eqb_spec (NCG.n s) 0) as [H0|_]; [lia|].
  f_equal.
  destruct (Z.eqb_spec (NCG.iter s mod NCG.n s) 0) as [E|E].
  - rewrite E. reflexivity.
  - apply Z.eqb_neq. nia.
Qed.

(** C4 (what the code does): with [r_start > 0] the restart test is
    [(iter mod n) * r_start = 0], so a restart ([beta = 0], [d = -g]) is
    made at every pass whose index is a multiple of [n], whatever
    [r_start] is. *)
Theorem C4_ncg_restart_tests_multiples_of_n (s : NCG.t) (l : NCG.locals) :
  (0 < NCG.r_start s)%Z -> (0 < NCG.n s)%Z -> NCG.iter s <> 1%Z ->
  (NCG.iter s mod NCG.n s = 0)%Z ->
  NCG.restart s = Return true /\
  NCG.beta s l = Return 0 /\
  NCG.direction s l = Return (vneg (NCG.g l)).
Proof.
  intros Hr Hn H1 Hm.
  assert (R1 : NCG.restart s = Return true).
  { rewrite NCG_restart_spec by assumption. rewrite Hm. reflexivity. }
  assert (B : NCG.beta s l = Return 0).
  { unfold NCG.beta. rewrite R1. reflexivity. }
  split; [exact R1|]. split; [exact B|].
  unfold NCG.direction. rewrite B.
  destruct (Z.eqb_spec (NCG.iter s) 1) as [E|_]; [contradiction|].
  rewrite Reqb_true by reflexivity. reflexivity.
Qed.

(** The failing input of C4: [n = 2], [r_start = 2], pass [2]; the pass
    restarts although [2] is not a multiple of [n * r_start = 4]. *)
Lemma C4_witness :
  (NCG.restart (ncg_identity 0 2 2) = Return true /\
   NCG.beta (ncg_identity 0 2 2) ncg_locals = Return 0 /\
   NCG.direction (ncg_identity 0 2 2) ncg_locals = Return (vneg (NCG.g ncg_locals))) /\
  (2 mod (NCG.n (ncg_identity 0 2 2) * NCG.r_start (ncg_identity 0 2 2)) = 2)%Z.
Proof.
  split; [|reflexivity].
  apply (C4_ncg_restart_tests_multiples_of_n (ncg_identity 0 2 2) ncg_locals);
    cbn; try lia; reflexivity.
Defined.

Lemma NCG_betaFR_nonneg ng past_g : 0 <= NCG.betaFR ng past_g.
Proof. unfold NCG.betaFR. apply pow2_ge_0. Qed.

Lemma NCG_direction_of_beta s l b past_g past_d :
  NCG.iter s <> 1%Z ->
  NCG.beta s l = Return b ->
  NCG.past l = Some (past_g, past_d) ->
  List.length past_d = List.length (NCG.g l) ->
  NCG.direction s l = Return (vadd (vneg (NCG.g l)) (vscale b past_d)).
Proof.
  intros H1 Hb Hp Hlen. unfold NCG.direction. rewrite Hb, Hp.
  destruct (Z.eqb_spec (NCG.iter s) 1) as [E|_]; [contradiction|].
  unfold Reqb. destruct (Req_dec_T b 0) as [->|Hne]; cbn [negb]; [|reflexivity].
  rewrite vadd_vscale_0; [reflexivity|]. rewrite vneg_length. exact Hlen.
Qed.

(** A pass that falls through leaves its gradient and its direction in
    [past_g], [past_d] for the next pass. *)
Lemma NCG_body_next_past s l s' l' :
  NCG.body (s, l) = Next (s', l') ->
  exists d, NCG.direction s l = Return d /\
            NCG.past l' = Some (NCG.g l, d) /\
            NCG.iter s' = (NCG.iter s + 1)%Z /\ NCG.wf s' = NCG.wf s.
Proof.
  unfold NCG.body.
  destruct (Rleb _ _); [discriminate|].
  destruct (_ >? _)%Z; [discriminate|].
  destruct (NCG.direction s l) as [d|e]; [|discriminate].
  destruct (NCG.search s d _ _ _ _ _ _ _) as [[[[a v'] lw] lg] fe].
  destruct (Rleb _ _); [discriminate|].
  destruct (NCG.le_m_inf _ _); [discriminate|].
  intros H. injection H as <- <-. exists d. cbn. repeat split; reflexivity.
Qed.

(** A pass that gets beyond the two stopping tests and has a direction
    calls the line search with it, and the answer of the search decides
    how the pass ends. *)
Lemma NCG_body_searches s l d a v' lw lg fe :
  NCG.eps s * NCG.ng0 l < NCG.ng l ->
  (NCG.f_eval l <= NCG.max_f_eval s)%Z ->
  NCG.direction s l = Return d ->
  NCG.search s d (NCG.wrt s) (NCG.last_wrt l) (NCG.last_g l) (NCG.f_eval l)
             (NCG.a_start s) (NCG.v l) (dot (NCG.g l) d) = (a, v', lw, lg, fe) ->
  NCG.body (s, l) =
    if Rleb a (NCG.min_a s)
    then Break (s, {| NCG.v := v'; NCG.g := NCG.g l; NCG.ng := NCG.ng l;
                      NCG.ng0 := NCG.ng0 l; NCG.last_wrt := lw;
                      NCG.last_g := lg; NCG.f_eval := fe;
                      NCG.past := Some (NCG.g l, d) |}) error
    else if NCG.le_m_inf v' (NCG.m_inf s)
    then Break (s, {| NCG.v := v'; NCG.g := NCG.g l; NCG.ng := NCG.ng l;
                      NCG.ng0 := NCG.ng0 l; NCG.last_wrt := lw;
                      NCG.last_g := lg; NCG.f_eval := fe;
                      NCG.past := Some (NCG.g l, d) |}) unbounded
    else Next ({| NCG.f := NCG.f s; NCG.wrt := lw; NCG.eps := NCG.eps s;
                  NCG.max_f_eval := NCG.max_f_eval s;
                  NCG.a_start := NCG.a_start s; NCG.m_inf := NCG.m_inf s;
                  NCG.min_a := NCG.min_a s; NCG.search := NCG.search s;
                  NCG.n := NCG.n s; NCG.iter := (NCG.iter s + 1)%Z;
                  NCG.wf := NCG.wf s; NCG.r_start := NCG.r_start s |},
               {| NCG.v := v'; NCG.g := lg; NCG.ng := norm lg;
                  NCG.ng0 := NCG.ng0 l; NCG.last_wrt := lw;
                  NCG.last_g := lg; NCG.f_eval := fe;
                  NCG.past := Some (NCG.g l, d) |}).
Proof.
  intros Hng Hfe Hd Hs. unfold NCG.body.
  rewrite (Rleb_false _ _ Hng), (Zgtb_false _ _ Hfe), Hd, Hs. reflexivity.
Qed.

(** What a pass that falls through has done: it had a direction, called
    the line search with it, moved to the point the search returned and
    left its gradient and its direction in [past_g], [past_d]. *)
Lemma NCG_body_next_searched s l s' l' :
  NCG.body (s, l) = Next (s', l') ->
  exists d a v' lg fe,
    NCG.direction s l = Return d /\
    NCG.search s d (NCG.wrt s) (NCG.last_wrt l) (NCG.last_g l) (NCG.f_eval l)
               (NCG.a_start s) (NCG.v l) (dot (NCG.g l) d)
      = (a, v', NCG.wrt s', lg, fe) /\
    NCG.past l' = Some (NCG.g l, d) /\
    NCG.g l' = lg /\ NCG.ng l' = norm lg /\
    NCG.iter s' = (NCG.iter s + 1)%Z.
Proof.
  unfold NCG.body.
  destruct (Rleb _ _); [discriminate|].
  destruct (_ >? _)%Z; [discriminate|].
  destruct (NCG.direction s l) as [d|e]; [|discriminate].
  destruct (NCG.search s d _ _ _ _ _ _ _) as [[[[a v'] lw] lg] fe] eqn:Hs.
  destruct (Rleb _ _); [discriminate|].
  destruct (NCG.le_m_inf _ _); [discriminate|].
  intros H. injection H as <- <-. exists d, a, v', lg, fe. cbn.
  repeat split; try reflexivity. exact Hs.
Qed.

(** C6: the first pass ([iter = 1]) uses [d = -g]; a later pass that is
    not a restart uses [d = -g + beta * past_d], where [past_g], [past_d]
    are the gradient and the direction the previous pass left.  With
    [beta_PR = g . (g - past_g) / ||past_g||^2] and
    [beta_FR = (ng / ||past_g||)^2], [beta] is [max(beta_PR, 0) >= 0] for
    [wf = 2], and [max(-beta_FR, min(beta_PR, beta_FR))], the value
    [beta_PR] clamped to [[-beta_FR, beta_FR]], for [wf = 0].  A pass that
    gets beyond the two stopping tests hands this [d], with the slope
    [g . d], to the line search, whose answer
    [(a, v, last_wrt, last_g, f_eval)] decides the pass: [error] when
    [a <= min_a], [unbounded] when [v <= m_inf], and otherwise the point
    moves to [last_wrt], the gradient becomes [last_g] and [(g, d)] is
    what the next pass reads as [(past_g, past_d)]. *)
Theorem C6_ncg_direction (s : NCG.t) (l : NCG.locals) (past_g past_d : vec) :
  let g := NCG.g l in
  let PR := dot g (vsub g past_g) / norm past_g ^ 2 in
  let FR := (NCG.ng l / norm past_g) ^ 2 in
  (NCG.iter s = 1%Z -> NCG.direction s l = Return (vneg g)) /\
  (NCG.iter s <> 1%Z ->
   NCG.restart s = Return false ->
   NCG.past l = Some (past_g, past_d) ->
   List.length past_d = List.length g ->
   0 < norm past_g ->
   (NCG.wf s = 2%Z ->
    0 <= Rmax PR 0 /\
    (0 <= PR -> Rmax PR 0 = PR) /\
    (PR <= 0 -> Rmax PR 0 = 0) /\
    NCG.direction s l = Return (vadd (vneg g) (vscale (Rmax PR 0) past_d))) /\
   (NCG.wf s = 0%Z ->
    let b := Rmax (- FR) (Rmin PR FR) in
    - FR <= b <= FR /\
    (- FR <= PR <= FR -> b = PR) /\
    (FR <= PR -> b = FR) /\
    (PR <= - FR -> b = - FR) /\
    NCG.direction s l = Return (vadd (vneg g) (vscale b past_d)))) /\
  (forall d a v' lw lg fe,
     NCG.eps s * NCG.ng0 l < NCG.ng l ->
     (NCG.f_eval l <= NCG.max_f_eval s)%Z ->
     NCG.direction s l = Return d ->
     NCG.search s d (NCG.wrt s) (NCG.last_wrt l) (NCG.last_g l) (NCG.f_eval l)
                (NCG.a_start s) (NCG.v l) (dot g d) = (a, v', lw, lg, fe) ->
     NCG.body (s, l) =
       if Rleb a (NCG.min_a s)
       then Break (s, {| NCG.v := v'; NCG.g := g; NCG.ng := NCG.ng l;
                         NCG.ng0 := NCG.ng0 l; NCG.last_wrt := lw;
                         NCG.last_g := lg; NCG.f_eval := fe;
                         NCG.past := Some (g, d) |}) error
       else if NCG.le_m_inf v' (NCG.m_inf s)
       then Break (s, {| NCG.v := v'; NCG.g := g; NCG.ng := NCG.ng l;
                         NCG.ng0 := NCG.ng0 l; NCG.last_wrt := lw;
                         NCG.last_g := lg; NCG.f_eval := fe;
                         NCG.past := Some (g, d) |}) unbounded
       else Next ({| NCG.f := NCG.f s; NCG.wrt := lw; NCG.eps := NCG.eps s;
                     NCG.max_f_eval := NCG.max_f_eval s;
                     NCG.a_start := NCG.a_start s; NCG.m_inf := NCG.m_inf s;
                     NCG.min_a := NCG.min_a s; NCG.search := NCG.search s;
                     NCG.n := NCG.n s; NCG.iter := (NCG.iter s + 1)%Z;
                     NCG.wf := NCG.wf s; NCG.r_start := NCG.r_start s |},
                  {| NCG.v := v'; NCG.g := lg; NCG.ng := norm lg;
                     NCG.ng0 := NCG.ng0 l; NCG.last_wrt := lw;
                     NCG.last_g := lg; NCG.f_eval := fe;
                     NCG.past := Some (g, d) |})) /\
  (forall s' l',
     NCG.body (s, l) = Next (s', l') ->
     exists d a v' lg fe,
       NCG.direction s l = Return d /\
       NCG.search s d (NCG.wrt s) (NCG.last_wrt l) (NCG.last_g l) (NCG.f_eval l)
                  (NCG.a_start s) (NCG.v l) (dot g d)
         = (a, v', NCG.wrt s', lg, fe) /\
       NCG.past l' = Some (g, d) /\
       NCG.g l' = lg /\ NCG.ng l' = norm lg /\
       NCG.iter s' = (NCG.iter s + 1)%Z).
Proof.
  intros g PR FR. split; [|split; [|split]].
  - intros H1. unfold NCG.direction. rewrite H1. reflexivity.
  - intros H1 Hr Hp Hlen _. split.
    + intros Hwf. split; [apply Rmax_r|]. split; [|split].
      * intros H. apply Rmax_left. exact H.
      * intros H. apply Rmax_right. exact H.
      * apply NCG_direction_of_beta with (past_g := past_g); try assumption.
        unfold NCG.beta. rewrite Hr, Hp. unfold NCG.formula. rewrite Hwf.
        reflexivity.
    + intros Hwf b.
      assert (HFR : 0 <= FR) by apply pow2_ge_0.
      split; [|split; [|split; [|split]]].
      * split; [apply Rmax_l|].
        apply Rmax_lub; [lra | apply Rmin_r].
      * intros [Hlo Hhi]. unfold b.
        rewrite Rmin_left by exact Hhi. apply Rmax_right. exact Hlo.
      * intros Hhi. unfold b.
        rewrite Rmin_right by exact Hhi. apply Rmax_right. lra.
      * intros Hlo. unfold b.
        rewrite Rmin_left by lra. apply Rmax_left. exact Hlo.
      * apply NCG_direction_of_beta with (past_g := past_g); try assumption.
        unfold NCG.beta. rewrite Hr, Hp. unfold NCG.formula. rewrite Hwf.
        reflexivity.
  - intros d a v' lw lg fe. apply NCG_body_searches.
  - intros s' l'. apply NCG_body_next_searched.
Qed.

Lemma ncg_12_norm_past_g : norm [1; 2] ^ 2 = 5 /\ 0 < norm [1; 2].
Proof.
  split.
  - rewrite norm_sqr. vec_compute. lra.
  - unfold norm. apply Rlt_trans with 1; [lra|].
    apply sqrt_gt_bound; [lra | vec_compute; lra].
Qed.

Lemma ncg_12_PR : dot [0; -2] (vsub [0; -2] [1; 2]) / norm [1; 2] ^ 2 = 8 / 5.
Proof.
  destruct ncg_12_norm_past_g as [H _]. rewrite H. vec_compute. lra.
Qed.

Lemma ncg_12_FR : (norm [0; -2] / norm [1; 2]) ^ 2 = 4 / 5.
Proof.
  destruct ncg_12_norm_past_g as [H Hpos].
  unfold Rdiv. rewrite Rpow_mult_distr, pow_inv, H, norm_sqr.
  vec_compute. lra.
Qed.

Lemma C6_witness :
  NCG.direction (ncg_12 2) ncg_12_locals = Return [- (8 / 5); - (6 / 5)] /\
  NCG.direction (ncg_12 0) ncg_12_locals = Return [- (4 / 5); 2 / 5] /\
  NCG.body (ncg_12 0, ncg_12_locals) =
    Next ({| NCG.f := quad_12; NCG.wrt := [- (4 / 5); - (3 / 5)];
             NCG.eps := 1e-6; NCG.max_f_eval := 1000; NCG.a_start := 1;
             NCG.m_inf := None; NCG.min_a := 1e-16;
             NCG.search := ncg_search quad_12 1;
             NCG.n := 2; NCG.iter := 3; NCG.wf := 0; NCG.r_start := 0 |},
          {| NCG.v := function quad_12 [- (4 / 5); - (3 / 5)];
             NCG.g := jacobian quad_12 [- (4 / 5); - (3 / 5)];
             NCG.ng := norm (jacobian quad_12 [- (4 / 5); - (3 / 5)]);
             NCG.ng0 := 1;
             NCG.last_wrt := [- (4 / 5); - (3 / 5)];
             NCG.last_g := jacobian quad_12 [- (4 / 5); - (3 / 5)];
             NCG.f_eval := 3;
             NCG.past := Some ([0; -2], [- (4 / 5); 2 / 5]) |}).
Proof.
  destruct ncg_12_norm_past_g as [_ Hn].
  pose proof (C6_ncg_direction (ncg_12 2) ncg_12_locals [1; 2] [-1; -2]) as H2.
  pose proof (C6_ncg_direction (ncg_12 0) ncg_12_locals [1; 2] [-1; -2]) as H0.
  cbv zeta in H2, H0.
  destruct H2 as (_ & H2 & _). destruct H0 as (_ & H0 & Hs & _).
  specialize (H2 ltac:(cbn; lia) eq_refl eq_refl eq_refl Hn).
  specialize (H0 ltac:(cbn; lia) eq_refl eq_refl eq_refl Hn).
  destruct H2 as (H2 & _). destruct H0 as (_ & H0).
  destruct (H2 eq_refl) as (_ & _ & _ & Hd2).
  destruct (H0 eq_refl) as (_ & _ & _ & _ & Hd0).
  cbn [ncg_12_locals NCG.g NCG.ng] in Hd2, Hd0.
  rewrite ncg_12_PR in Hd2, Hd0. rewrite ncg_12_FR in Hd0.
  rewrite Rmax_left in Hd2 by lra.
  rewrite Rmin_right, Rmax_right in Hd0 by lra.
  assert (E2 : vadd (vneg [0; -2]) (vscale (8 / 5) [-1; -2])
               = [- (8 / 5); - (6 / 5)]) by vec_lra.
  assert (E0 : vadd (vneg [0; -2]) (vscale (4 / 5) [-1; -2])
               = [- (4 / 5); 2 / 5]) by vec_lra.
  rewrite E2 in Hd2. rewrite E0 in Hd0.
  split; [exact Hd2|]. split; [exact Hd0|].
  assert (Hx : vadd [0; -1] (vscale 1 [- (4 / 5); 2 / 5])
               = [- (4 / 5); - (3 / 5)]) by vec_lra.
  specialize (Hs [- (4 / 5); 2 / 5] 1
                 (function quad_12 [- (4 / 5); - (3 / 5)])
                 [- (4 / 5); - (3 / 5)]
                 (jacobian quad_12 [- (4 / 5); - (3 / 5)]) 3%Z).
  cbn [ncg_12 ncg_12_locals NCG.eps NCG.ng0 NCG.ng NCG.f_eval NCG.max_f_eval
       NCG.search NCG.wrt NCG.last_wrt NCG.last_g NCG.a_start NCG.v NCG.g
       NCG.min_a NCG.m_inf NCG.le_m_inf NCG.f NCG.n NCG.iter NCG.wf
       NCG.r_start ncg_search Z.add Pos.add] in Hs.
  unfold ncg_search, fixed_step in Hs. cbv zeta in Hs. rewrite Hx in Hs.
  assert (Hng : 1e-6 * 1 < norm [0; -2]).
  { unfold norm. apply Rlt_trans with 1; [lra|].
    apply sqrt_gt_bound; [lra | vec_compute; lra]. }
  specialize (Hs Hng ltac:(lia) Hd0 eq_refl).
  rewrite Rleb_false in Hs by lra.
  exact Hs.
Defined.

(** ** HeavyBallGradient *)

Lemma HB_body_next_inv s l s' l' :
  HB.body (s, l) = Next (s', l') ->
  HB.past_d l' = vsub (HB.x s') (HB.x s) /\
  HB.iter s' = (HB.iter s + 1)%Z /\
  HB.beta s' = HB.beta s /\
  exists a fx' lg fe,
    HB.search (HB.line_search s) (HB.direction s l) (HB.x s) (HB.last_x l)
              (HB.last_g l) (HB.f_eval l) (function (HB.f s) (HB.x s))
              (option_map (dot (jacobian (HB.f s) (HB.x s))) (HB.direction s l))
    = (a, fx', HB.x s', lg, fe).
Proof.
  unfold HB.body.
  destruct (Rleb _ _); [discriminate|].
  destruct (_ || _)%bool; [discriminate|].
  destruct (HB.search _ _ _ _ _ _ _ _) as [[[[a fx'] lx] lg] fe].
  destruct (Rleb _ _); [discriminate|].
  destruct (HB.le_m_inf _ _); [discriminate|].
  intros H. injection H as <- <-. cbn.
  split; [reflexivity|]. split; [reflexivity|]. split; [reflexivity|].
  exists a, fx', lg, fe. reflexivity.
Qed.

(** A pass that gets beyond the two stopping tests calls the line search
    with the deflected direction and its slope, and the answer of the
    search decides how the pass ends. *)
Lemma HB_body_searches s l a fx' lx lg fe :
  HB.eps s * (if Rltb (HB.eps s) 0
              then - norm (jacobian (HB.f s) (HB.x s)) else 1)
    < norm (jacobian (HB.f s) (HB.x s)) ->
  (HB.iter s <= HB.max_iter s)%Z ->
  (HB.f_eval l <= HB.max_f_eval (HB.line_search s))%Z ->
  HB.search (HB.line_search s) (HB.direction s l) (HB.x s) (HB.last_x l)
            (HB.last_g l) (HB.f_eval l) (function (HB.f s) (HB.x s))
            (option_map (dot (jacobian (HB.f s) (HB.x s))) (HB.direction s l))
    = (a, fx', lx, lg, fe) ->
  HB.body (s, l) =
    if Rleb a (HB.min_a (HB.line_search s))
    then Break (HB.upd s (HB.x s) (HB.iter s) fx',
                {| HB.last_x := lx; HB.last_g := lg; HB.f_eval := fe;
                   HB.past_d := HB.past_d l |}) error
    else if HB.le_m_inf fx' (HB.m_inf s)
    then Break (HB.upd s (HB.x s) (HB.iter s) fx',
                {| HB.last_x := lx; HB.last_g := lg; HB.f_eval := fe;
                   HB.past_d := HB.past_d l |}) unbounded
    else Next (HB.upd s lx (HB.iter s + 1)%Z fx',
               {| HB.last_x := lx; HB.last_g := lg; HB.f_eval := fe;
                  HB.past_d := vsub lx (HB.x s) |}).
Proof.
  intros Hng Hit Hfe Hs. unfold HB.body.
  rewrite (Rleb_false _ _ Hng).
  rewrite (Zgtb_false _ _ Hit), (Zgtb_false _ _ Hfe). cbn [orb].
  rewrite Hs. reflexivity.
Qed.

(** C8 (as amended): the first pass ([iter = 0]) uses [d = -g]; every
    later pass uses [d = -g + beta_i * past_d], where [beta_i] is the
    configured [beta] when [beta > 0] and [|beta| * ||g|| / ||past_d||]
    when [beta < 0] (and [past_d] is not zero).  A pass that gets beyond
    the two stopping tests hands this [d], with the slope [g . d], to the
    line search, and the answer [(a, f_x, last_x, last_g, f_eval)] of the
    search decides the pass: [error] when [a <= min_a], [unbounded] when
    [f_x <= m_inf], and otherwise the point moves to [last_x], the
    counter grows by one and [past_d] becomes the displacement
    [last_x - x] of the pass (the point the search accepted minus the
    point it started from), which the next pass uses. *)
Theorem C8_hb_direction (s : HB.t) (l : HB.locals) :
  let g := jacobian (HB.f s) (HB.x s) in
  let p := HB.past_d l in
  (HB.iter s = 0%Z -> HB.direction s l = Some (vneg g)) /\
  (HB.iter s <> 0%Z -> 0 < HB.beta s ->
   HB.direction s l = Some (vadd (vneg g) (vscale (HB.beta s) p))) /\
  (HB.iter s <> 0%Z -> HB.beta s < 0 -> norm p <> 0 ->
   HB.direction s l =
     Some (vadd (vneg g) (vscale (Rabs (HB.beta s) * norm g / norm p) p))) /\
  (forall a fx' lx lg fe,
     HB.eps s * (if Rltb (HB.eps s) 0 then - norm g else 1) < norm g ->
     (HB.iter s <= HB.max_iter s)%Z ->
     (HB.f_eval l <= HB.max_f_eval (HB.line_search s))%Z ->
     HB.search (HB.line_search s) (HB.direction s l) (HB.x s) (HB.last_x l)
               (HB.last_g l) (HB.f_eval l) (function (HB.f s) (HB.x s))
               (option_map (dot g) (HB.direction s l))
       = (a, fx', lx, lg, fe) ->
     HB.body (s, l) =
       if Rleb a (HB.min_a (HB.line_search s))
       then Break (HB.upd s (HB.x s) (HB.iter s) fx',
                   {| HB.last_x := lx; HB.last_g := lg; HB.f_eval := fe;
                      HB.past_d := p |}) error
       else if HB.le_m_inf fx' (HB.m_inf s)
       then Break (HB.upd s (HB.x s) (HB.iter s) fx',
                   {| HB.last_x := lx; HB.last_g := lg; HB.f_eval := fe;
                      HB.past_d := p |}) unbounded
       else Next (HB.upd s lx (HB.iter s + 1)%Z fx',
                  {| HB.last_x := lx; HB.last_g := lg; HB.f_eval := fe;
                     HB.past_d := vsub lx (HB.x s) |})) /\
  (forall s' l',
     HB.body (s, l) = Next (s', l') ->
     HB.past_d l' = vsub (HB.x s') (HB.x s) /\
     HB.iter s' = (HB.iter s + 1)%Z /\
     exists a fx' lg fe,
       HB.search (HB.line_search s) (HB.direction s l) (HB.x s) (HB.last_x l)
                 (HB.last_g l) (HB.f_eval l) (function (HB.f s) (HB.x s))
                 (option_map (dot g) (HB.direction s l))
         = (a, fx', HB.x s', lg, fe)).
Proof.
  intros g p. split; [|split; [|split; [|split]]].
  - intros H0. unfold HB.direction. rewrite H0. reflexivity.
  - intros H0 Hb. unfold HB.direction, HB.beta_i.
    destruct (Z.eqb_spec (HB.iter s) 0) as [E|_]; [contradiction|].
    rewrite Rltb_true by exact Hb. reflexivity.
  - intros H0 Hb Hp. unfold HB.direction, HB.beta_i.
    destruct (Z.eqb_spec (HB.iter s) 0) as [E|_]; [contradiction|].
    rewrite Rltb_false by lra. fold p. rewrite Reqb_false by exact Hp.
    rewrite Rabs_left by exact Hb. reflexivity.
  - intros a fx' lx lg fe. apply HB_body_searches.
  - intros s' l' Hb. apply HB_body_next_inv in Hb.
    destruct Hb as (Hp & Hi & _ & Hs). split; [|split]; assumption.
Qed.

Lemma hb_12_first_pass b :
  HB.body (hb_12 b, HB.prelude (hb_12 b)) = Next (hb_12_second b).
Proof.
  unfold HB.body, HB.direction, hb_12, hb_12_second, HB.prelude, HB.upd.
  cbn [HB.f HB.x HB.eps HB.iter HB.max_iter HB.line_search HB.f_eval
       HB.max_f_eval HB.min_a HB.search HB.m_inf HB.le_m_inf HB.n HB.beta
       HB.last_x HB.last_g HB.past_d Z.eqb Z.gtb Z.compare Pos.compare
       Pos.compare_cont orb hb_search fixed_step option_map].
  rewrite !quad_12_jacobian.
  rewrite Rltb_false by lra.
  rewrite Rleb_false
    by (unfold norm; apply Rlt_le_trans with 1;
        [lra | apply Rlt_le, sqrt_gt_bound; [lra | vec_compute; lra]]).
  assert (Hx : vadd [1; 1] (vscale (1 / 2) (vneg [1; 2 * 1])) = [1 / 2; 0]) by vec_lra.
  rewrite Hx, quad_12_jacobian, quad_12_function.
  rewrite Rleb_false by lra.
  do 2 f_equal; [f_equal; lra | f_equal; vec_lra].
Qed.

Lemma hb_12_second_gradient :
  1e-6 * (if Rltb 1e-6 0 then - norm (jacobian quad_12 [1 / 2; 0]) else 1)
    < norm (jacobian quad_12 [1 / 2; 0]).
Proof.
  rewrite Rltb_false by lra. rewrite quad_12_jacobian. unfold norm.
  apply Rlt_trans with (1 / 4); [lra|].
  apply sqrt_gt_bound; [lra | vec_compute; lra].
Qed.

Lemma C8_witness :
  HB.direction (fst (hb_12_second (9 / 10))) (snd (hb_12_second (9 / 10))) =
    Some (vadd (vneg (jacobian quad_12 [1 / 2; 0]))
               (vscale (9 / 10) [- (1 / 2); -1])) /\
  HB.body (hb_12_second (9 / 10)) =
    Next (HB.upd (hb_12 (9 / 10)) [1 / 40; - (9 / 20)] 2
                 (function quad_12 [1 / 40; - (9 / 20)]),
          {| HB.last_x := [1 / 40; - (9 / 20)];
             HB.last_g := jacobian quad_12 [1 / 40; - (9 / 20)];
             HB.f_eval := 3;
             HB.past_d := vsub [1 / 40; - (9 / 20)] [1 / 2; 0] |}).
Proof.
  pose proof (C8_hb_direction (fst (hb_12_second (9 / 10)))
                              (snd (hb_12_second (9 / 10)))) as H.
  cbv zeta in H. destruct H as (_ & Hd & _ & Hs & _).
  assert (Hdir := Hd ltac:(cbn; lia) ltac:(cbn; lra)).
  split; [exact Hdir|].
  assert (Hx : vadd [1 / 2; 0]
                 (vscale (1 / 2)
                    (vadd (vneg (jacobian quad_12 [1 / 2; 0]))
                          (vscale (9 / 10) [- (1 / 2); -1])))
               = [1 / 40; - (9 / 20)])
    by (rewrite quad_12_jacobian; vec_lra).
  specialize (Hs (1 / 2) (function quad_12 [1 / 40; - (9 / 20)])
                 [1 / 40; - (9 / 20)] (jacobian quad_12 [1 / 40; - (9 / 20)]) 3%Z
                 hb_12_second_gradient ltac:(cbn; lia) ltac:(cbn; lia)).
  rewrite Hdir in Hs.
  cbn [hb_12_second hb_12 fst snd HB.upd HB.line_search HB.search HB.x HB.f
       HB.f_eval HB.last_x HB.last_g HB.min_a HB.m_inf HB.le_m_inf HB.iter
       HB.beta HB.past_d hb_search fixed_step option_map Z.add Pos.add] in Hs.
  unfold fixed_step in Hs. cbv zeta in Hs. rewrite Hx in Hs. specialize (Hs eq_refl).
  rewrite Rleb_false in Hs by lra.
  exact Hs.
Defined.

(** C8 as stated fails: started from [(1,1)] on [Q = diag(1,2)] with
    [beta = 0.9] and a line search that accepts the step [1/2], the first
    pass has direction [d0 = (-1,-2)] and moves to [(1/2, 0)]; the second
    pass uses [-g + 0.9 * (x1 - x0) = (-19/20, -9/10)], not
    [-g + 0.9 * d0 = (-7/5, -9/5)]. *)
Lemma C8_counterexample :
  HB.direction (hb_12 (9 / 10)) (HB.prelude (hb_12 (9 / 10))) = Some [-1; -2] /\
  HB.body (hb_12 (9 / 10), HB.prelude (hb_12 (9 / 10))) =
    Next (hb_12_second (9 / 10)) /\
  HB.direction (fst (hb_12_second (9 / 10))) (snd (hb_12_second (9 / 10))) =
    Some [- (19 / 20); - (9 / 10)] /\
  vadd (vneg (jacobian quad_12 [1 / 2; 0])) (vscale (9 / 10) [-1; -2]) =
    [- (7 / 5); - (9 / 5)] /\
  - (19 / 20) <> - (7 / 5).
Proof.
  split; [|split; [|split; [|split]]].
  - unfold HB.direction, hb_12. cbn [HB.iter HB.f HB.x Z.eqb].
    rewrite quad_12_jacobian. vec_lra.
  - apply hb_12_first_pass.
  - unfold HB.direction, HB.beta_i, hb_12_second, hb_12, HB.upd.
    cbn [fst snd HB.iter HB.f HB.x HB.beta HB.past_d Z.eqb].
    rewrite Rltb_true by lra. rewrite quad_12_jacobian. vec_lra.
  - rewrite quad_12_jacobian. vec_lra.
  - lra.
Qed.

(** ** Constructors *)

Lemma GD_body_keeps_momentum_type l s s' :
  GD.body l s = Next s' -> GD.momentum_type s' = GD.momentum_type s.
Proof.
  unfold GD.body. destruct (GD.move s) as [w st].
  destruct (Rleb _ _); [discriminate|].
  destruct (_ >? _)%Z; [discriminate|].
  destruct st as [st|]; [|discriminate].
  intros H. injection H as <-. reflexivity.
Qed.

Lemma GD_move_bound s :
  GD.known_momentum_type (GD.momentum_type s) = true ->
  exists w st, GD.move s = (w, Some st).
Proof.
  unfold GD.known_momentum_type, GD.move. intros H.
  destruct (GD.momentum_type s =? "standard")%string; [eauto|].
  destruct (GD.momentum_type s =? "nesterov")%string; [eauto|].
  destruct (GD.momentum_type s =? "none")%string; [eauto|].
  discriminate.
Qed.

(** With a momentum type the constructor accepts, [minimize] returns. *)
Lemma GD_loop_returns l k : forall s,
  GD.known_momentum_type (GD.momentum_type s) = true ->
  (Z.to_nat (GD.max_iter s - GD.iter s + 1) <= k)%nat ->
  exists r, while_true (GD.body l) (S k) s = Some (Return r).
Proof.
  induction k as [|k IH]; intros s Hk Hf.
  - cbn. unfold GD.body. destruct (GD.move s) as [w st].
    destruct (Rleb _ _); [eexists; reflexivity|].
    rewrite Zgtb_true by lia. eexists; reflexivity.
  - cbn [while_true]. destruct (GD.body l s) as [s'|s' st|e] eqn:Hb.
    + assert (Hk' := GD_body_keeps_momentum_type _ _ _ Hb).
      apply IH; [rewrite Hk'; exact Hk|].
      revert Hb. unfold GD.body. destruct (GD.move s) as [w st].
      destruct (Rleb _ _); [discriminate|].
      destruct (Z.gtb_spec (GD.iter s) (GD.max_iter s)) as [Hgt|Hle]; [discriminate|].
      destruct st as [st|]; [|discriminate].
      intros Heq. injection Heq as <-. cbn. lia.
    + eexists; reflexivity.
    + exfalso. revert Hb. unfold GD.body.
      destruct (GD_move_bound s Hk) as (w & st & ->).
      destruct (Rleb _ _); [discriminate|].
      destruct (_ >? _)%Z; discriminate.
Qed.

Lemma GD_init_known_momentum_type o sr m mt s :
  GD.init o sr m mt = Return s ->
  GD.known_momentum_type (GD.momentum_type s) = true.
Proof.
  unfold GD.init. destruct o as [o|e]; [|discriminate].
  destruct sr as [sr|]; [|discriminate].
  destruct (Rltb sr 0); [discriminate|].
  destruct m as [m|]; [|discriminate].
  destruct (Rltb m 0); [discriminate|].
  destruct (GD.known_momentum_type mt) eqn:Hk; [|discriminate].
  cbn [negb]. intros H. injection H as <-. exact Hk.
Qed.

Lemma NCG_formula_bound wf ng g past_g past_d :
  (0 <= wf <= 4)%Z -> exists b, NCG.formula wf ng g past_g past_d = Some b.
Proof.
  intros H. unfold NCG.formula.
  assert (wf = 0 \/ wf = 1 \/ wf = 2 \/ wf = 3 \/ wf = 4)%Z
    as [->|[->|[->|[->| ->]]]] by lia; cbn; eauto.
Qed.

(** C9 (as amended): a negative momentum coefficient, an unknown
    momentum type, a negative (or non-scalar) step rate are rejected by
    [GradientDescent.__init__], a [wf] outside [0..4] by
    [NonLinearConjugateGradient.__init__], a start point whose size is not
    the number of rows of the Hessian by
    [SteepestGradientDescentQuadratic.__init__]; and an optimizer that was
    constructed never raises for these reasons while iterating. *)
Theorem C9_invalid_hyperparameters_rejected
        (super : result Optimizer)
        (super_ls : result NCG.LineSearchOptimizer)
        (step_rate momentum : pyval) (momentum_type : string)
        (wf : Z) (r_start : option Z) (f_star : option pyval) :
  ((exists m, momentum = PyScalar m /\ m < 0) ->
   exists e, GD.init super step_rate momentum momentum_type = Raised e) /\
  (GD.known_momentum_type momentum_type = false ->
   exists e, GD.init super step_rate momentum momentum_type = Raised e) /\
  ((exists r, step_rate = PyScalar r /\ r < 0) ->
   exists e, GD.init super step_rate momentum momentum_type = Raised e) /\
  ((wf < 0 \/ 4 < wf)%Z ->
   exists e, NCG.init super_ls wf r_start = Raised e) /\
  ((forall o, super = Return o ->
              List.length (opt_wrt o) <> List.length (hessian (opt_f o))) ->
   exists e, SGDQ.init super f_star = Raised e) /\
  (forall s, GD.init super step_rate momentum momentum_type = Return s ->
             exists r, GD.minimize s = Some (Return r)) /\
  (forall s, NCG.init super_ls wf r_start = Return s ->
             forall ng g past_g past_d,
               exists b, NCG.formula (NCG.wf s) ng g past_g past_d = Some b) /\
  (forall s, SGDQ.init super f_star = Return s ->
             exists r, SGDQ.minimize s = Some (Return r)).
Proof.
  repeat match goal with |- _ /\ _ => split end.
  - intros (m & -> & Hm). unfold GD.init.
    destruct super as [o|e]; [|eauto].
    destruct step_rate as [sr|]; [|eauto].
    destruct (Rltb sr 0); [eauto|].
    rewrite Rltb_true by exact Hm. eauto.
  - intros Hk. unfold GD.init.
    destruct super as [o|e]; [|eauto].
    destruct step_rate as [sr|]; [|eauto].
    destruct (Rltb sr 0); [eauto|].
    destruct momentum as [m|]; [|eauto].
    destruct (Rltb m 0); [eauto|].
    rewrite Hk. cbn [negb]. eauto.
  - intros (r & -> & Hr). unfold GD.init.
    destruct super as [o|e]; [|eauto].
    rewrite Rltb_true by exact Hr. eauto.
  - intros Hwf. unfold NCG.init.
    destruct super_ls as [o|e]; [|eauto].
    replace ((wf <? 0) || (wf >? 4))%Z with true; [eauto|].
    symmetry. apply orb_true_iff.
    destruct Hwf; [left; apply Z.ltb_lt; lia | right; apply Zgtb_true; lia].
  - intros Hsz. unfold SGDQ.init.
    destruct super as [o|e]; [|eauto].
    specialize (Hsz o eq_refl).
    apply Nat.eqb_neq in Hsz. rewrite Hsz. cbn [negb]. eauto.
  - intros s Hs. apply GD_loop_returns.
    + eapply GD_init_known_momentum_type. exact Hs.
    + unfold GD.budget. lia.
  - intros s Hs ng g past_g past_d. apply NCG_formula_bound.
    revert Hs. unfold NCG.init.
    destruct super_ls as [o|e]; [|discriminate].
    destruct (Z.ltb_spec wf 0) as [Hlt|Hge]; [discriminate|].
    destruct (Z.gtb_spec wf 4) as [Hgt|Hle]; [discriminate|]. cbn [orb].
    destruct r_start as [r|]; [|discriminate].
    intros Heq. injection Heq as <-. cbn. lia.
  - intros s _. apply SGDQ_minimize_returns.
Qed.

Lemma C9_witness :
  (exists e, GD.init (Return (base_identity 1)) (PyScalar (-1))
                     (PyScalar (-1)) "adam" = Raised e) /\
  (exists e, NCG.init (Return (base_ls_identity 1)) 5 (Some 0%Z) = Raised e).
Proof.
  destruct (C9_invalid_hyperparameters_rejected
              (Return (base_identity 1)) (Return (base_ls_identity 1))
              (PyScalar (-1)) (PyScalar (-1)) "adam" 5 (Some 0%Z) None)
    as (Hm & Ht & Hs & Hwf & _).
  split.
  - apply Hm. exists (-1). split; [reflexivity | lra].
  - apply Hwf. right. lia.
Defined.

(** C9 as stated fails: the momentum coefficient [3/2] lies outside
    [[0,1)] and [GradientDescent.__init__] accepts it. *)
Lemma C9_counterexample :
  GD.init (Return (base_identity 1)) (PyScalar (1 / 100)) (PyScalar (3 / 2)) "none" =
    Return {| GD.f := quad_identity; GD.wrt := [-1; 1]; GD.eps := 1e-6;
              GD.max_iter := 1000; GD.iter := 1; GD.step_rate := 1 / 100;
              GD.momentum := 3 / 2; GD.momentum_type := "none";
              GD.step := Scalar0 0 |} /\
  1 <= 3 / 2.
Proof.
  split; [|lra]. unfold GD.init.
  rewrite !Rltb_false by lra. reflexivity.
Qed.

(** ** The stochastic family *)

Section BudgetLoop.
(** A loop body that does nothing but test the iteration budget before
    its update. *)
Variables (S A : Type) (body : A -> S -> outcome S) (iter max_iter : S -> Z).
Hypothesis body_break : forall a s,
  (max_iter s <= iter s)%Z -> exists s', body a s = Break s' stopped /\ iter s' = iter s.
Hypothesis body_next : forall a s,
  (iter s < max_iter s)%Z ->
  exists s', body a s = Next s' /\ iter s' = (iter s + 1)%Z /\ max_iter s' = max_iter s.

Lemma budget_loop_status items : forall s,
  match return_status (for_each body items s) with
  | Return (_, st) => st = stopped
  | Raised e => e = UnboundLocalError "status"
  end.
Proof.
  induction items as [|a items IH]; intros s; [reflexivity|].
  cbn [for_each]. destruct (Z_lt_le_dec (iter s) (max_iter s)) as [Hlt|Hge].
  - destruct (body_next a s Hlt) as (s' & -> & _). apply IH.
  - destruct (body_break a s Hge) as (s' & -> & _). reflexivity.
Qed.

Lemma budget_loop_returns items : forall s,
  (iter s <= max_iter s)%Z ->
  (Z.to_nat (max_iter s - iter s) < List.length items)%nat ->
  exists s', return_status (for_each body items s) = Return (s', stopped) /\
             iter s' = max_iter s.
Proof.
  induction items as [|a items IH]; intros s Hle Hlen; [cbn in Hlen; lia|].
  cbn [for_each]. destruct (Z_lt_le_dec (iter s) (max_iter s)) as [Hlt|Hge].
  - destruct (body_next a s Hlt) as (s' & -> & Hi & Hm).
    destruct (IH s') as (s'' & Hr & Hi'').
    + lia.
    + cbn [List.length] in Hlen. rewrite Hi, Hm. lia.
    + exists s''. rewrite Hr, Hi'', Hm. split; reflexivity.
  - destruct (body_break a s Hge) as (s' & -> & Hi).
    exists s'. split; [reflexivity | lia].
Qed.
End BudgetLoop.

Lemma RProp_body_break {Batch} (a : Batch) (s : RProp.t Batch) :
  (RProp.max_iter s <= RProp.iter s)%Z ->
  exists s', RProp.body a s = Break s' stopped /\ RProp.iter s' = RProp.iter s.
Proof.
  intros H. unfold RProp.body.
  destruct (Z.geb_spec (RProp.iter s) (RProp.max_iter s)) as [_|Hlt]; [|lia].
  eexists; split; reflexivity.
Qed.

Lemma RProp_body_next {Batch} (a : Batch) (s : RProp.t Batch) :
  (RProp.iter s < RProp.max_iter s)%Z ->
  exists s', RProp.body a s = Next s' /\
             RProp.iter s' = (RProp.iter s + 1)%Z /\
             RProp.max_iter s' = RProp.max_iter s.
Proof.
  intros H. unfold RProp.body.
  destruct (Z.geb_spec (RProp.iter s) (RProp.max_iter s)) as [Hge|_]; [lia|].
  destruct (_ =? _)%string; [eexists; repeat split|].
  destruct (_ =? _)%string; eexists; repeat split.
Qed.

Lemma AdaMax_body_break {Batch} (a : Batch) (s : AdaMax.t Batch) :
  (AdaMax.max_iter s <= AdaMax.iter s)%Z ->
  exists s', AdaMax.body a s = Break s' stopped /\ AdaMax.iter s' = AdaMax.iter s.
Proof.
  intros H. unfold AdaMax.body.
  destruct (Z.geb_spec (AdaMax.iter s) (AdaMax.max_iter s)) as [_|Hlt]; [|lia].
  eexists; split; reflexivity.
Qed.

Lemma AdaMax_body_next {Batch} (a : Batch) (s : AdaMax.t Batch) :
  (AdaMax.iter s < AdaMax.max_iter s)%Z ->
  exists s', AdaMax.body a s = Next s' /\
             AdaMax.iter s' = (AdaMax.iter s + 1)%Z /\
             AdaMax.max_iter s' = AdaMax.max_iter s.
Proof.
  intros H. unfold AdaMax.body.
  destruct (Z.geb_spec (AdaMax.iter s) (AdaMax.max_iter s)) as [Hge|_]; [lia|].
  destruct (_ =? _)%string; [destruct (AdaMax.moments _ _) as [[m1 m2] st2]; eexists; repeat split|].
  destruct (_ =? _)%string; destruct (AdaMax.moments _ _) as [[m1 m2] st2];
    eexists; repeat split.
Qed.

Lemma rprop_identity_constructed x0 nb :
  RProp.init (Return (base_stochastic x0 nb)) 1e-6 (1 / 2) (6 / 5) 1 =
  Return (rprop_identity x0 nb).
Proof. reflexivity. Qed.

(** C3 (as amended): a run of [RProp.minimize] or [AdaMax.minimize] never
    tests the gradient norm; the only status it returns is [stopped], when
    the iteration counter has reached the epoch budget [max_iter] (which
    it does as soon as the batches outnumber the iterations left); a run
    whose batches end first leaves [status] unbound. *)
Theorem C3_stochastic_status_is_stopped
        (Batch : Type) (r : RProp.t Batch) (a : AdaMax.t Batch) :
  match RProp.minimize r with
  | Return (_, st) => st = stopped
  | Raised e => e = UnboundLocalError "status"
  end /\
  match AdaMax.minimize a with
  | Return (_, st) => st = stopped
  | Raised e => e = UnboundLocalError "status"
  end /\
  ((RProp.iter r <= RProp.max_iter r)%Z ->
   (Z.to_nat (RProp.max_iter r - RProp.iter r) < List.length (RProp.batches r))%nat ->
   exists r', RProp.minimize r = Return (r', stopped) /\
              RProp.iter r' = RProp.max_iter r) /\
  ((AdaMax.iter a <= AdaMax.max_iter a)%Z ->
   (Z.to_nat (AdaMax.max_iter a - AdaMax.iter a) < List.length (AdaMax.args a))%nat ->
   exists a', AdaMax.minimize a = Return (a', stopped) /\
              AdaMax.iter a' = AdaMax.max_iter a).
Proof.
  split; [|split; [|split]].
  - apply (budget_loop_status _ _ RProp.body RProp.iter RProp.max_iter
             RProp_body_break RProp_body_next).
  - apply (budget_loop_status _ _ AdaMax.body AdaMax.iter AdaMax.max_iter
             AdaMax_body_break AdaMax_body_next).
  - apply (budget_loop_returns _ _ RProp.body RProp.iter RProp.max_iter
             RProp_body_break RProp_body_next).
  - apply (budget_loop_returns _ _ AdaMax.body AdaMax.iter AdaMax.max_iter
             AdaMax_body_break AdaMax_body_next).
Qed.

Lemma C3_witness :
  (exists r', RProp.minimize (rprop_identity [-1; 1] 1001) = Return (r', stopped) /\
              RProp.iter r' = 1000%Z) /\
  (exists a', AdaMax.minimize (adamax_identity [-1; 1] 1001) = Return (a', stopped) /\
              AdaMax.iter a' = 1000%Z).
Proof.
  destruct (C3_stochastic_status_is_stopped unit (rprop_identity [-1; 1] 1001)
              (adamax_identity [-1; 1] 1001)) as (_ & _ & Hr & Ha).
  split.
  - apply Hr; cbn [rprop_identity RProp.iter RProp.max_iter RProp.batches];
      [lia | rewrite repeat_length; lia].
  - apply Ha; cbn [adamax_identity AdaMax.iter AdaMax.max_iter AdaMax.args];
      [lia | rewrite repeat_length; lia].
Defined.

(** C3 as stated fails: started at the minimiser [(0,0)] of
    [quad_identity], where the gradient norm is [0 <= eps], [RProp] and
    [AdaMax] run through the whole budget and return [stopped], not
    [optimal]. *)
Lemma C3_counterexample :
  norm (Stochastic.jacobian squad_identity [0; 0] tt) <= 1e-6 /\
  (exists r', RProp.minimize (rprop_identity [0; 0] 1001) = Return (r', stopped)) /\
  (exists a', AdaMax.minimize (adamax_identity [0; 0] 1001) = Return (a', stopped)) /\
  stopped <> optimal.
Proof.
  split; [|split; [|split]].
  - cbn [squad_identity Stochastic.jacobian]. rewrite quad_identity_jacobian.
    unfold norm. apply sqrt_le_bound; [lra|]. vec_compute. lra.
  - destruct (budget_loop_returns _ _ RProp.body RProp.iter RProp.max_iter
                RProp_body_break RProp_body_next
                (RProp.batches (rprop_identity [0; 0] 1001))
                (rprop_identity [0; 0] 1001)) as (r' & Hr & _).
    + cbn; lia.
    + cbn [rprop_identity RProp.iter RProp.max_iter RProp.batches].
      rewrite repeat_length. lia.
    + exists r'. exact Hr.
  - destruct (budget_loop_returns _ _ AdaMax.body AdaMax.iter AdaMax.max_iter
                AdaMax_body_break AdaMax_body_next
                (AdaMax.args (adamax_identity [0; 0] 1001))
                (adamax_identity [0; 0] 1001)) as (a' & Ha & _).
    + cbn; lia.
    + cbn [adamax_identity AdaMax.iter AdaMax.max_iter AdaMax.args].
      rewrite repeat_length. lia.
    + exists a'. exact Ha.
  - discriminate.
Qed.

(** ** RProp: the step magnitudes *)

Lemma map2_length {A B C} (op : A -> B -> C) u v :
  List.length (map2 op u v) = Nat.min (List.length u) (List.length v).
Proof.
  revert v. induction u as [|a u IH]; intros [|b v]; cbn; try reflexivity.
  rewrite IH. reflexivity.
Qed.

Lemma nth_map2 {A B C} (op : A -> B -> C) u v i da db dc :
  (i < List.length u)%nat -> (i < List.length v)%nat ->
  nth i (map2 op u v) dc = op (nth i u da) (nth i v db).
Proof.
  revert v i. induction u as [|a u IH]; intros [|b v] [|i] Hu Hv;
    cbn in *; try lia; [reflexivity|].
  apply IH; lia.
Qed.

Lemma nth_map_in {A B} (f : A -> B) l i da db :
  (i < List.length l)%nat -> nth i (map f l) db = f (nth i l da).
Proof.
  revert i. induction l as [|a l IH]; intros [|i] H; cbn in *; try lia; [reflexivity|].
  apply IH. lia.
Qed.

Lemma clip1_range lo hi r : lo <= hi -> lo <= clip1 lo hi r <= hi.
Proof.
  intros H. unfold clip1. split; [|apply Rmin_r].
  apply Rmin_glb; [apply Rmax_r | exact H].
Qed.

Lemma clip1_id lo hi r : lo <= r <= hi -> clip1 lo hi r = r.
Proof.
  intros [H1 H2]. unfold clip1. rewrite Rmax_left by exact H1.
  apply Rmin_left. exact H2.
Qed.

Lemma clip_range v lo hi :
  lo <= hi -> Forall (fun c => lo <= c <= hi) (clip v lo hi).
Proof.
  intros H. unfold clip. apply Forall_map, Forall_forall.
  intros r _. apply clip1_range. exact H.
Qed.

Lemma sign_cases r :
  (0 < r /\ sign r = 1) \/ (r < 0 /\ sign r = -1) \/ (r = 0 /\ sign r = 0).
Proof.
  unfold sign. destruct (Rltb_spec 0 r) as [H|H]; [left; split; [exact H | reflexivity]|].
  destruct (Rltb_spec r 0) as [H'|H'].
  - right; left. split; [exact H' | reflexivity].
  - right; right. split; [lra | reflexivity].
Qed.

(** The new step magnitude of coordinate [i]. *)
Lemma RProp_adapt_nth {Batch} (s : RProp.t Batch) (g_m1 g : vec) (i : nat) :
  (i < List.length (RProp.changes s))%nat ->
  List.length g_m1 = List.length (RProp.changes s) ->
  List.length g = List.length (RProp.changes s) ->
  nth i (RProp.adapt s g_m1 g) 0 =
  clip1 (RProp.min_step s) (RProp.max_step s)
        (let c := nth i (RProp.changes s) 0 in
         let p := nth i g_m1 0 * nth i g 0 in
         let c1 := if Rltb 0 p then c * RProp.step_grow s else c in
         if Rltb p 0 then c1 * RProp.step_shrink s else c1).
Proof.
  intros Hi Hm Hg. unfold RProp.adapt, clip, imul_where, vmul.
  assert (Hp : (i < List.length (map2 Rmult g_m1 g))%nat)
    by (rewrite map2_length; lia).
  assert (Hp_i : nth i (map2 Rmult g_m1 g) 0 = nth i g_m1 0 * nth i g 0)
    by (apply nth_map2; lia).
  rewrite (nth_map_in _ _ _ 0).
  2:{ rewrite !map2_length, !length_map. lia. }
  f_equal.
  rewrite (nth_map2 _ _ _ _ false 0).
  2:{ rewrite length_map. exact Hp. }
  2:{ rewrite map2_length, length_map. lia. }
  rewrite (nth_map_in _ _ _ 0) by exact Hp.
  rewrite (nth_map2 _ _ _ _ false 0).
  2:{ rewrite length_map. exact Hp. }
  2:{ exact Hi. }
  rewrite (nth_map_in _ _ _ 0) by exact Hp.
  rewrite Hp_i. reflexivity.
Qed.

Lemma RProp_step2_nth (ch g : vec) (i : nat) :
  (i < List.length ch)%nat -> (i < List.length g)%nat ->
  nth i (RProp.step2 ch g) 0 = nth i ch 0 * sign (nth i g 0).
Proof.
  intros Hc Hg. unfold RProp.step2, vmul.
  rewrite (nth_map2 _ _ _ _ 0 0) by (rewrite ?length_map; assumption).
  rewrite (nth_map_in _ _ _ 0) by exact Hg. reflexivity.
Qed.

Lemma RProp_adapt_length {Batch} (s : RProp.t Batch) (g_m1 g : vec) :
  List.length g_m1 = List.length (RProp.changes s) ->
  List.length g = List.length (RProp.changes s) ->
  List.length (RProp.adapt s g_m1 g) = List.length (RProp.changes s).
Proof.
  intros Hm Hg. unfold RProp.adapt, clip, imul_where, vmul.
  rewrite length_map, !map2_length, !length_map, !map2_length. lia.
Qed.

(** What a pass that performs the update leaves on the object. *)
Lemma RProp_body_update {Batch} (a : Batch) (s : RProp.t Batch) :
  (RProp.iter s < RProp.max_iter s)%Z ->
  exists g s',
    RProp.body a s = Next s' /\
    RProp.jacobian s' = g /\
    RProp.changes s' = RProp.adapt s (RProp.jacobian s) g /\
    RProp.min_step s' = RProp.min_step s /\
    RProp.max_step s' = RProp.max_step s /\
    (exists y, g = Stochastic.jacobian (RProp.f s) y a) /\
    ((RProp.momentum_type s =? "standard")%string = false ->
     (RProp.momentum_type s =? "nesterov")%string = false ->
     g = Stochastic.jacobian (RProp.f s) (RProp.x s) a /\
     RProp.x s' = vsub (RProp.x s) (RProp.step2 (RProp.changes s') g)).
Proof.
  intros H. unfold RProp.body.
  destruct (Z.geb_spec (RProp.iter s) (RProp.max_iter s)) as [Hge|_]; [lia|].
  destruct (RProp.momentum_type s =? "standard")%string.
  { eexists _, _. split; [reflexivity|]. cbn.
    repeat (split; [reflexivity|]). split; [eexists; reflexivity | discriminate]. }
  destruct (RProp.momentum_type s =? "nesterov")%string.
  { eexists _, _. split; [reflexivity|]. cbn.
    repeat (split; [reflexivity|]). split; [eexists; reflexivity | discriminate]. }
  eexists _, _. split; [reflexivity|]. cbn.
  repeat (split; [reflexivity|]). split; [eexists; reflexivity|].
  intros _ _. split; reflexivity.
Qed.

Lemma sign_product_mask a b b' :
  sign b = sign b' ->
  Rltb 0 (a * b) = Rltb 0 (a * b') /\ Rltb (a * b) 0 = Rltb (a * b') 0.
Proof.
  intros H.
  destruct (sign_cases b) as [[Hb E]|[[Hb E]|[Hb E]]];
    destruct (sign_cases b') as [[Hb' E']|[[Hb' E']|[Hb' E']]];
    rewrite E, E' in H; try lra; clear H E E';
    destruct (Rlt_le_dec 0 a) as [Ha|Ha];
    try (destruct (Rle_lt_or_eq_dec _ _ Ha) as [Ha'|Ha']);
    split;
    repeat match goal with
           | |- context [Rltb ?x ?y] => destruct (Rltb_spec x y)
           end; try reflexivity; exfalso; subst; nra.
Qed.

(** The update reads the new gradient through its signs only. *)
Lemma RProp_sign_only {Batch} (s : RProp.t Batch) (g_m1 g g' : vec) :
  map sign g = map sign g' ->
  RProp.adapt s g_m1 g = RProp.adapt s g_m1 g' /\
  forall ch, RProp.step2 ch g = RProp.step2 ch g'.
Proof.
  intros H. split.
  - unfold RProp.adapt.
    assert (Hmask :
      map (fun p => Rltb 0 p) (vmul g_m1 g) = map (fun p => Rltb 0 p) (vmul g_m1 g') /\
      map (fun p => Rltb p 0) (vmul g_m1 g) = map (fun p => Rltb p 0) (vmul g_m1 g')).
    { clear s. revert g g' H.
      induction g_m1 as [|a u IH]; intros [|b g] [|b' g'] H;
        try discriminate; cbn; try (split; reflexivity).
      cbn in H. injection H as Hb Hg.
      destruct (IH _ _ Hg) as [I1 I2].
      destruct (sign_product_mask a b b' Hb) as [M1 M2].
      unfold vmul in *. rewrite I1, I2, M1, M2. split; reflexivity. }
    destruct Hmask as [-> ->]. reflexivity.
  - intros ch. unfold RProp.step2. rewrite H. reflexivity.
Qed.

(** What a pass that performs the update does, for each momentum type:
    the gradient is evaluated at the point itself, or for ['nesterov']
    at the point already moved by the momentum term [step1]; the step is
    [step2 = changes * sign(g)], to which ['standard'] and ['nesterov']
    add [step1]. *)
Lemma RProp_body_pass {Batch} (a : Batch) (s : RProp.t Batch) :
  (RProp.iter s < RProp.max_iter s)%Z ->
  let mt := RProp.momentum_type s in
  let step1 := nd_scale (RProp.momentum s) (RProp.step s) in
  let y := if (mt =? "nesterov")%string
           then nd_rsub (RProp.x s) step1 else RProp.x s in
  let g := Stochastic.jacobian (RProp.f s) y a in
  let ch := RProp.adapt s (RProp.jacobian s) g in
  let st2 := RProp.step2 ch g in
  exists s',
    RProp.body a s = Next s' /\
    RProp.jacobian s' = g /\
    RProp.changes s' = ch /\
    (mt = "standard"%string ->
     RProp.x s' = vsub (RProp.x s) (nd_add step1 st2) /\
     RProp.step s' = Array1 (nd_add step1 st2)) /\
    (mt = "nesterov"%string ->
     RProp.x s' = vsub (nd_rsub (RProp.x s) step1) st2 /\
     RProp.step s' = Array1 (nd_add step1 st2)) /\
    (mt <> "standard"%string -> mt <> "nesterov"%string ->
     RProp.x s' = vsub (RProp.x s) st2 /\
     RProp.step s' = Array1 st2).
Proof.
  intros H mt step1 y g ch st2. subst y g ch st2 step1 mt. unfold RProp.body.
  destruct (Z.geb_spec (RProp.iter s) (RProp.max_iter s)) as [Hge|_]; [lia|].
  destruct (String.eqb_spec (RProp.momentum_type s) "standard") as [Es|Es].
  { rewrite Es. change ("standard" =? "nesterov")%string with false.
    eexists. split; [reflexivity|]. cbn.
    split; [reflexivity|]. split; [reflexivity|].
    split; [intros _; split; reflexivity|].
    split; [discriminate | intros E; contradiction]. }
  destruct (String.eqb_spec (RProp.momentum_type s) "nesterov") as [En|En].
  { eexists. split; [reflexivity|]. cbn.
    split; [reflexivity|]. split; [reflexivity|].
    split; [intros E; contradiction|].
    split; [intros _; split; reflexivity | intros _ E; contradiction]. }
  eexists. split; [reflexivity|]. cbn.
  split; [reflexivity|]. split; [reflexivity|].
  split; [intros E; contradiction|].
  split; [intros E; contradiction | intros _ _; split; reflexivity].
Qed.

Lemma nd_nth_scale (k : R) (a : ndarray) (i : nat) :
  (forall u, a = Array1 u -> (i < List.length u)%nat) ->
  nd_nth i (nd_scale k a) = k * nd_nth i a.
Proof.
  destruct a as [r|u]; intros H; cbn; [reflexivity|].
  unfold vscale. apply nth_map_in. apply H. reflexivity.
Qed.

Lemma nth_nd_add (a : ndarray) (v : vec) (i : nat) :
  (i < List.length v)%nat ->
  (forall u, a = Array1 u -> (i < List.length u)%nat) ->
  nth i (nd_add a v) 0 = nd_nth i a + nth i v 0.
Proof.
  destruct a as [r|u]; intros Hv H; cbn.
  - apply nth_map_in. exact Hv.
  - unfold vadd. apply nth_map2; [apply H; reflexivity | exact Hv].
Qed.

Lemma nth_nd_rsub (x : vec) (a : ndarray) (i : nat) :
  (i < List.length x)%nat ->
  (forall u, a = Array1 u -> (i < List.length u)%nat) ->
  nth i (nd_rsub x a) 0 = nth i x 0 - nd_nth i a.
Proof.
  destruct a as [r|u]; intros Hx H; cbn.
  - rewrite (nth_map_in _ _ _ 0) by exact Hx. reflexivity.
  - unfold vsub. apply nth_map2; [exact Hx | apply H; reflexivity].
Qed.

Lemma nd_add_length (a : ndarray) (v : vec) :
  (forall u, a = Array1 u -> List.length u = List.length v) ->
  List.length (nd_add a v) = List.length v.
Proof.
  destruct a as [r|u]; intros H; cbn.
  - apply length_map.
  - unfold vadd. rewrite map2_length, (H u eq_refl). apply Nat.min_id.
Qed.

Lemma nd_rsub_length (x : vec) (a : ndarray) :
  (forall u, a = Array1 u -> List.length u = List.length x) ->
  List.length (nd_rsub x a) = List.length x.
Proof.
  destruct a as [r|u]; intros H; cbn.
  - apply length_map.
  - unfold vsub. rewrite map2_length, (H u eq_refl). apply Nat.min_id.
Qed.

Lemma nd_scale_array (k : R) (a : ndarray) (u : vec) :
  nd_scale k a = Array1 u ->
  exists v, a = Array1 v /\ List.length u = List.length v.
Proof.
  destruct a as [r|v]; cbn; [discriminate|].
  intros H. injection H as <-. exists v. split; [reflexivity|].
  unfold vscale. apply length_map.
Qed.

(** C7 (as amended): in a pass of [RProp] that performs the update, the
    gradient [g] is the objective's gradient at the point (for
    ['nesterov'] at the point moved by the momentum term); the step
    magnitude of every coordinate is multiplied by [step_grow] when the
    product of the previous and the new gradient component is positive,
    by [step_shrink] when it is negative, and then clamped to
    [[min_step, max_step]].  On a sign flip the magnitude is the old one
    times [step_shrink], kept at or above [min_step] by the clamp (and
    exactly the product when that lies in the range).  The term
    [step2 = magnitude * sign(g)] depends on the new gradient through its
    signs only.  Without momentum the point moves by [step2] alone; with
    ['standard'] or ['nesterov'] momentum it moves by
    [momentum * step + step2], where [step] is the move of the previous
    pass. *)
Theorem C7_rprop_step_adaptation
        (Batch : Type) (s : RProp.t Batch) (args : Batch) (i : nat) :
  (RProp.iter s < RProp.max_iter s)%Z ->
  (i < List.length (RProp.changes s))%nat ->
  List.length (RProp.jacobian s) = List.length (RProp.changes s) ->
  List.length (RProp.x s) = List.length (RProp.changes s) ->
  (forall st, RProp.step s = Array1 st ->
              List.length st = List.length (RProp.changes s)) ->
  (forall y, List.length (Stochastic.jacobian (RProp.f s) y args) =
             List.length (RProp.changes s)) ->
  let mt := RProp.momentum_type s in
  let step1 := nd_scale (RProp.momentum s) (RProp.step s) in
  let y := if (mt =? "nesterov")%string
           then nd_rsub (RProp.x s) step1 else RProp.x s in
  let g := Stochastic.jacobian (RProp.f s) y args in
  exists s',
    RProp.body args s = Next s' /\
    RProp.jacobian s' = g /\
    let lo := RProp.min_step s in
    let hi := RProp.max_step s in
    let c := nth i (RProp.changes s) 0 in
    let c' := nth i (RProp.changes s') 0 in
    let p := nth i (RProp.jacobian s) 0 * nth i g 0 in
    (0 < p -> c' = clip1 lo hi (c * RProp.step_grow s)) /\
    (p < 0 -> c' = clip1 lo hi (c * RProp.step_shrink s)) /\
    (p = 0 -> c' = clip1 lo hi c) /\
    (lo <= hi -> lo <= c' <= hi) /\
    (p < 0 -> lo <= c * RProp.step_shrink s <= hi -> c' = c * RProp.step_shrink s) /\
    nth i (RProp.step2 (RProp.changes s') g) 0 = c' * sign (nth i g 0) /\
    (forall g', map sign g' = map sign g ->
                RProp.adapt s (RProp.jacobian s) g' = RProp.changes s' /\
                RProp.step2 (RProp.changes s') g' = RProp.step2 (RProp.changes s') g) /\
    (mt <> "standard"%string -> mt <> "nesterov"%string ->
     RProp.x s' = vsub (RProp.x s) (RProp.step2 (RProp.changes s') g) /\
     nth i (RProp.x s') 0 = nth i (RProp.x s) 0 - c' * sign (nth i g 0) /\
     nd_nth i (RProp.step s') = c' * sign (nth i g 0)) /\
    (mt = "standard"%string ->
     RProp.x s' =
       vsub (RProp.x s) (nd_add step1 (RProp.step2 (RProp.changes s') g))) /\
    (mt = "nesterov"%string ->
     RProp.x s' =
       vsub (nd_rsub (RProp.x s) step1) (RProp.step2 (RProp.changes s') g)) /\
    (mt = "standard"%string \/ mt = "nesterov"%string ->
     nth i (RProp.x s') 0 =
       nth i (RProp.x s) 0 -
       (RProp.momentum s * nd_nth i (RProp.step s) + c' * sign (nth i g 0)) /\
     nd_nth i (RProp.step s') =
       RProp.momentum s * nd_nth i (RProp.step s) + c' * sign (nth i g 0)).
Proof.
  intros Hit Hi Hjac Hx Hst Hlen mt step1 y g.
  pose proof (RProp_body_pass args s Hit) as P. cbv zeta in P.
  fold mt in P. fold step1 in P. fold y in P. fold g in P.
  destruct P as (s' & Hb & Hj & Hch & Hstd & Hnest & Hnone).
  rewrite <- Hch in Hstd, Hnest, Hnone.
  exists s'. split; [exact Hb|]. split; [exact Hj|].
  assert (Hg : List.length g = List.length (RProp.changes s)) by apply Hlen.
  assert (Hlen' : List.length (RProp.changes s') = List.length (RProp.changes s))
    by (rewrite Hch; apply RProp_adapt_length; assumption).
  assert (Hc : nth i (RProp.changes s') 0 =
               clip1 (RProp.min_step s) (RProp.max_step s)
                 (let c := nth i (RProp.changes s) 0 in
                  let p := nth i (RProp.jacobian s) 0 * nth i g 0 in
                  let c1 := if Rltb 0 p then c * RProp.step_grow s else c in
                  if Rltb p 0 then c1 * RProp.step_shrink s else c1))
    by (rewrite Hch; apply RProp_adapt_nth; assumption).
  assert (Hs2 : nth i (RProp.step2 (RProp.changes s') g) 0 =
                nth i (RProp.changes s') 0 * sign (nth i g 0))
    by (apply RProp_step2_nth; lia).
  assert (Hl2 : List.length (RProp.step2 (RProp.changes s') g) =
                List.length (RProp.changes s)).
  { unfold RProp.step2, vmul. rewrite map2_length, length_map. lia. }
  assert (Hi1 : forall u, step1 = Array1 u -> (i < List.length u)%nat).
  { intros u E. apply nd_scale_array in E. destruct E as (v & Ev & El).
    rewrite El, (Hst v Ev). exact Hi. }
  assert (Hl1 : forall u, step1 = Array1 u ->
                          List.length u = List.length (RProp.changes s)).
  { intros u E. apply nd_scale_array in E. destruct E as (v & Ev & El).
    rewrite El. apply Hst. exact Ev. }
  assert (H1 : nd_nth i step1 = RProp.momentum s * nd_nth i (RProp.step s)).
  { apply nd_nth_scale. intros u E. rewrite (Hst u E). exact Hi. }
  assert (Hadd : nth i (nd_add step1 (RProp.step2 (RProp.changes s') g)) 0 =
                 RProp.momentum s * nd_nth i (RProp.step s) +
                 nth i (RProp.changes s') 0 * sign (nth i g 0)).
  { rewrite nth_nd_add by (try exact Hi1; lia). rewrite H1, Hs2. reflexivity. }
  cbv zeta. set (p := nth i (RProp.jacobian s) 0 * nth i g 0) in *.
  cbv zeta in Hc.
  split; [|split; [|split; [|split; [|split; [|split; [|split;
    [|split; [|split; [|split]]]]]]]]].
  - intros Hp. rewrite Hc, (Rltb_true _ _ Hp), Rltb_false by lra. reflexivity.
  - intros Hp. rewrite Hc, (Rltb_true _ _ Hp), Rltb_false by lra. reflexivity.
  - intros Hp. rewrite Hc, !Rltb_false by lra. reflexivity.
  - intros Hlo. rewrite Hc. apply clip1_range. exact Hlo.
  - intros Hp Hr. rewrite Hc, (Rltb_true _ _ Hp), Rltb_false by lra.
    apply clip1_id. exact Hr.
  - exact Hs2.
  - intros g' Hs. rewrite Hch.
    destruct (RProp_sign_only s (RProp.jacobian s) g' g Hs) as [Ha Hsg].
    split; [exact Ha | apply Hsg].
  - intros Hn1 Hn2. destruct (Hnone Hn1 Hn2) as [Ex Es].
    split; [exact Ex|]. split.
    + rewrite Ex. unfold vsub. rewrite (nth_map2 _ _ _ _ 0 0) by lia.
      rewrite Hs2. reflexivity.
    + rewrite Es. exact Hs2.
  - intros Hm. apply Hstd. exact Hm.
  - intros Hm. apply Hnest. exact Hm.
  - assert (Hla : List.length (nd_add step1 (RProp.step2 (RProp.changes s') g))
                  = List.length (RProp.changes s)).
    { rewrite nd_add_length; [exact Hl2|].
      intros u E. rewrite Hl2. apply Hl1. exact E. }
    intros [Hm|Hm].
    + destruct (Hstd Hm) as [Ex Es]. split.
      * rewrite Ex. unfold vsub. rewrite (nth_map2 _ _ _ _ 0 0) by lia.
        rewrite Hadd. reflexivity.
      * rewrite Es. exact Hadd.
    + destruct (Hnest Hm) as [Ex Es]. split.
      * rewrite Ex. unfold vsub at 1.
        rewrite (nth_map2 _ _ _ _ 0 0).
        2:{ rewrite nd_rsub_length; [lia|].
            intros u E. rewrite Hx. apply Hl1. exact E. }
        2:{ lia. }
        rewrite nth_nd_rsub by (try exact Hi1; lia).
        rewrite H1, Hs2. lra.
      * rewrite Es. exact Hadd.
Qed.

Lemma map_minus_0 (k : R) (x : vec) : map (fun xi => xi - k * 0) x = x.
Proof.
  rewrite <- (map_id x) at 2. apply map_ext. intros a. lra.
Qed.

Lemma map_plus_0 (k : R) (v : vec) : map (Rplus (k * 0)) v = v.
Proof.
  rewrite <- (map_id v) at 2. apply map_ext. intros a. lra.
Qed.

(** Before any step has been taken ([self.step = 0]), or without
    momentum, the momentum term vanishes. *)
Lemma RProp_body_first_step {Batch} (a : Batch) (s s' : RProp.t Batch) :
  RProp.step s = Scalar0 0 \/ RProp.momentum_type s = "none"%string ->
  RProp.body a s = Next s' ->
  let g := Stochastic.jacobian (RProp.f s) (RProp.x s) a in
  RProp.jacobian s' = g /\
  RProp.changes s' = RProp.adapt s (RProp.jacobian s) g /\
  RProp.x s' = vsub (RProp.x s) (RProp.step2 (RProp.changes s') g).
Proof.
  intros [Hst|Hmt]; unfold RProp.body.
  - rewrite Hst. cbn [nd_scale nd_rsub nd_add]. rewrite map_minus_0.
    destruct (_ >=? _)%Z; [discriminate|].
    destruct (_ =? _)%string;
      [|destruct (_ =? _)%string];
      intros H; injection H as <-; cbn; rewrite ?map_plus_0;
      repeat split; reflexivity.
  - rewrite Hmt.
    change ("none" =? "standard")%string with false.
    change ("none" =? "nesterov")%string with false.
    destruct (_ >=? _)%Z; [discriminate|].
    intros H; injection H as <-; cbn. repeat split; reflexivity.
Qed.

Lemma RProp_body_changes_range {Batch} (a : Batch) (t t' : RProp.t Batch) :
  RProp.min_step t <= RProp.max_step t ->
  RProp.body a t = Next t' ->
  Forall (fun c => RProp.min_step t' <= c <= RProp.max_step t') (RProp.changes t').
Proof.
  intros Hr Hb.
  destruct (Z_lt_le_dec (RProp.iter t) (RProp.max_iter t)) as [Hlt|Hge].
  - destruct (RProp_body_update a t Hlt) as (g & s' & Hb' & _ & Hch & Hlo & Hhi & _).
    rewrite Hb in Hb'. injection Hb' as <-.
    rewrite Hch, Hlo, Hhi. apply clip_range. exact Hr.
  - destruct (RProp_body_break a t Hge) as (s' & Hb' & _).
    rewrite Hb in Hb'. discriminate.
Qed.

(** C10: [RProp.__init__] sets [changes] to zeros; after every update all
    its coordinates lie in [[min_step, max_step]]; and the first update
    (no step taken before, or no momentum) moves every coordinate by
    [min_step * sign(g_i)] against the gradient, that is by exactly
    [min_step] where the gradient is not zero. *)
Theorem C10_rprop_changes_range_and_first_update (Batch : Type) :
  (forall (t : RProp.t Batch) (a : Batch) (t' : RProp.t Batch),
     RProp.min_step t <= RProp.max_step t ->
     RProp.body a t = Next t' ->
     Forall (fun c => RProp.min_step t' <= c <= RProp.max_step t') (RProp.changes t')) /\
  (forall (o : Stochastic.StochasticOptimizer Batch)
          (min_step step_shrink step_grow max_step : R) (a : Batch),
     0 <= min_step <= max_step ->
     (Stochastic.so_iter o < Stochastic.so_max_iter o)%Z ->
     Stochastic.so_step o = Scalar0 0 \/
       Stochastic.so_momentum_type o = "none"%string ->
     List.length (Stochastic.jacobian (Stochastic.so_f o) (Stochastic.so_x o) a) =
       List.length (Stochastic.so_x o) ->
     exists s s',
       RProp.init (Return o) min_step step_shrink step_grow max_step = Return s /\
       RProp.changes s = zeros (List.length (Stochastic.so_x o)) /\
       RProp.body a s = Next s' /\
       forall i, (i < List.length (Stochastic.so_x o))%nat ->
         let gi := nth i (Stochastic.jacobian (Stochastic.so_f o) (Stochastic.so_x o) a) 0 in
         nth i (RProp.changes s') 0 = min_step /\
         nth i (RProp.x s') 0 = nth i (Stochastic.so_x o) 0 - min_step * sign gi /\
         (gi <> 0 -> Rabs (nth i (RProp.x s') 0 - nth i (Stochastic.so_x o) 0) = min_step)).
Proof.
  split; [intros t a t'; apply RProp_body_changes_range|].
  intros o lo shrink grow hi a Hr Hit Hst Hlen.
  destruct (RProp.init (Return o) lo shrink grow hi) as [s|e] eqn:Hinit;
    [|discriminate].
  cbn in Hinit. injection Hinit as Hs.
  assert (Hits : (RProp.iter s < RProp.max_iter s)%Z) by (subst s; exact Hit).
  destruct (RProp_body_next a s Hits) as (s' & Hb & _).
  exists s, s'. split; [reflexivity|]. split; [subst s; reflexivity|].
  split; [exact Hb|].
  assert (Hsteps : RProp.step s = Scalar0 0 \/ RProp.momentum_type s = "none"%string)
    by (subst s; exact Hst).
  destruct (RProp_body_first_step a s s' Hsteps Hb) as (Hj & Hch & Hx).
  intros i Hi gi.
  assert (Hc : nth i (RProp.changes s') 0 = lo).
  { rewrite Hch, RProp_adapt_nth.
    - subst s. cbn [RProp.changes RProp.jacobian RProp.min_step RProp.max_step
                    RProp.step_grow RProp.step_shrink RProp.f RProp.x].
      unfold zeros. rewrite !nth_repeat. cbv zeta.
      rewrite !Rltb_false by lra.
      unfold clip1. rewrite Rmax_right by lra. apply Rmin_left. lra.
    - subst s. cbn. unfold zeros. rewrite repeat_length. exact Hi.
    - subst s. reflexivity.
    - subst s. cbn. unfold zeros. rewrite repeat_length. exact Hlen. }
  assert (Hxi : nth i (RProp.x s') 0 = nth i (Stochastic.so_x o) 0 - lo * sign gi).
  { assert (Hlc : List.length (RProp.changes s') = List.length (Stochastic.so_x o)).
    { rewrite Hch, RProp_adapt_length; subst s; cbn; unfold zeros;
        rewrite ?repeat_length; try reflexivity. exact Hlen. }
    rewrite Hx. unfold vsub.
    rewrite (nth_map2 _ _ _ _ 0 0).
    + rewrite RProp_step2_nth.
      * rewrite Hc. subst s. reflexivity.
      * rewrite Hlc. exact Hi.
      * subst s. cbn. rewrite Hlen. exact Hi.
    + subst s. exact Hi.
    + unfold RProp.step2, vmul. rewrite map2_length, length_map, Hlc.
      subst s. cbn. rewrite Hlen. lia. }
  split; [exact Hc|]. split; [exact Hxi|].
  intros Hg. rewrite Hxi.
  destruct (sign_cases gi) as [[_ E]|[[_ E]|[E _]]]; [| |contradiction];
    rewrite E; unfold Rabs; destruct (Rcase_abs _); lra.
Qed.

Lemma rprop_flip_lookahead :
  nd_rsub [1; 1] (nd_scale (9 / 10) (Array1 [- (1 / 10); 1 / 10])) =
  [109 / 100; 91 / 100].
Proof. cbn [nd_rsub nd_scale]. vec_lra. Qed.

Lemma squad_identity_jacobian_length (y : vec) :
  List.length (Stochastic.jacobian squad_identity y tt) = 2%nat.
Proof.
  cbn [squad_identity Stochastic.jacobian].
  unfold quad_identity, Quadratic, jacobian, vsub, matvec.
  rewrite map2_length, length_map. reflexivity.
Qed.

Lemma C7_witness :
  exists s', RProp.body tt (rprop_flip_with "nesterov") = Next s' /\
             RProp.jacobian s' = [109 / 100; 91 / 100] /\
             nth 0 (RProp.changes s') 0 = 1 / 10 * (1 / 2) /\
             1e-6 <= nth 0 (RProp.changes s') 0 /\
             nth 0 (RProp.x s') 0 = 26 / 25.
Proof.
  destruct (C7_rprop_step_adaptation unit (rprop_flip_with "nesterov") tt 0)
    as (s' & Hb & Hj & F).
  - cbn. lia.
  - cbn. lia.
  - reflexivity.
  - reflexivity.
  - cbn [rprop_flip_with RProp.step RProp.changes]. intros st E.
    injection E as <-. reflexivity.
  - intros y. apply squad_identity_jacobian_length.
  - cbn [rprop_flip_with RProp.momentum_type RProp.momentum RProp.step
         RProp.x RProp.f squad_identity Stochastic.jacobian] in Hj, F.
    change ("nesterov" =? "nesterov")%string with true in Hj, F.
    cbv iota in Hj, F.
    rewrite rprop_flip_lookahead, quad_identity_jacobian in Hj, F.
    cbv zeta in F.
    destruct F as (_ & _ & _ & _ & Fexact & _ & _ & _ & _ & _ & Fmove).
    exists s'. split; [exact Hb|]. split; [exact Hj|].
    assert (Hc : nth 0 (RProp.changes s') 0 = 1 / 10 * (1 / 2)).
    { apply Fexact;
        cbn [rprop_flip_with RProp.jacobian RProp.changes RProp.min_step
             RProp.max_step RProp.step_shrink nth]; lra. }
    split; [exact Hc|]. split; [rewrite Hc; lra|].
    destruct (Fmove (or_intror eq_refl)) as [Hx _].
    rewrite Hx, Hc. cbn [rprop_flip_with RProp.x RProp.step nd_nth nth].
    unfold sign. rewrite Rltb_true by lra. lra.
Defined.

(** C7 as stated fails with momentum: [RProp] with
    [momentum_type='standard'], [momentum = 0.9], at the point [(1,1)] of
    [quad_identity], after a pass that moved by [(-1/10, 1/10)] with the
    gradient [(-1,1)] and magnitudes [(1/10, 1/10)].  The new gradient is
    [(1,1)]; coordinate 0 sees a sign flip, its magnitude becomes [1/20],
    and the point moves to [1 - (0.9 * (-1/10) + 1/20) = 26/25], not to
    [1 - 1/20 * sign(1) = 19/20]: the applied update is [-1/25], not the
    magnitude times [sign(g)]. *)
Lemma C7_counterexample :
  exists s', RProp.body tt (rprop_flip_with "standard") = Next s' /\
             RProp.jacobian s' = [1; 1] /\
             nth 0 (RProp.changes s') 0 = 1 / 20 /\
             nth 0 (RProp.x s') 0 = 26 / 25 /\
             nth 0 (RProp.x (rprop_flip_with "standard")) 0 -
               nth 0 (RProp.changes s') 0 * sign (nth 0 (RProp.jacobian s') 0)
               = 19 / 20 /\
             26 / 25 <> 19 / 20.
Proof.
  pose proof (RProp_body_pass tt (rprop_flip_with "standard")) as P.
  cbv zeta in P.
  destruct P as (s' & Hb & Hj & Hch & Hstd & _); [cbn; lia|].
  cbn [rprop_flip_with RProp.momentum_type RProp.momentum RProp.step
       RProp.x RProp.f squad_identity Stochastic.jacobian RProp.jacobian]
    in Hj, Hch, Hstd.
  change ("standard" =? "nesterov")%string with false in Hj, Hch, Hstd.
  cbv iota in Hj, Hch, Hstd.
  rewrite quad_identity_jacobian in Hj, Hch, Hstd.
  assert (Ech : RProp.changes s' = [1 / 20; 3 / 25]).
  { rewrite Hch. unfold RProp.adapt.
    cbn [rprop_flip_with RProp.changes RProp.step_grow RProp.step_shrink
         RProp.min_step RProp.max_step].
    unfold vmul. cbn [map2 map].
    replace (-1 * 1) with (-1) by lra. replace (1 * 1) with 1 by lra.
    rewrite (Rltb_false 0 (-1)), (Rltb_true (-1) 0), (Rltb_true 0 1),
      (Rltb_false 1 0) by lra.
    unfold imul_where, clip, clip1. cbn [map2 map].
    f_equal; [|f_equal].
    - rewrite Rmax_left by lra. rewrite Rmin_left by lra. lra.
    - rewrite Rmax_left by lra. rewrite Rmin_left by lra. lra. }
  destruct (Hstd eq_refl) as [Ex _]. rewrite <- Hch, Ech in Ex.
  exists s'. split; [exact Hb|]. split; [exact Hj|].
  rewrite Ech, Hj, Ex.
  cbn [rprop_flip_with RProp.x nth nd_scale nd_add].
  unfold RProp.step2, vsub, vadd, vscale, vmul, sign. cbn [map map2 nth].
  rewrite Rltb_true by lra.
  split; [reflexivity|]. split; [lra|]. split; [lra|]. lra.
Qed.

Lemma C10_witness :
  exists s s',
    RProp.init (Return (base_stochastic [-1; 1] 1)) 1e-6 (1 / 2) (6 / 5) 1 = Return s /\
    RProp.changes s = [0; 0] /\
    RProp.body tt s = Next s' /\
    nth 0 (RProp.changes s') 0 = 1e-6 /\
    Rabs (nth 0 (RProp.x s') 0 - (-1)) = 1e-6.
Proof.
  destruct (C10_rprop_changes_range_and_first_update unit) as [_ H].
  destruct (H (base_stochastic [-1; 1] 1) 1e-6 (1 / 2) (6 / 5) 1 tt)
    as (s & s' & Hinit & Hch & Hb & Hall).
  - lra.
  - cbn. lia.
  - left. reflexivity.
  - cbn [base_stochastic Stochastic.so_f Stochastic.so_x squad_identity
         Stochastic.jacobian].
    rewrite quad_identity_jacobian. reflexivity.
  - exists s, s'. split; [exact Hinit|]. split; [exact Hch|]. split; [exact Hb|].
    destruct (Hall 0%nat) as (Hc & _ & Habs); [cbn; lia|].
    split; [exact Hc|]. apply Habs.
    cbn [base_stochastic Stochastic.so_f Stochastic.so_x squad_identity
         Stochastic.jacobian].
    rewrite quad_identity_jacobian. cbn [nth]. lra.
Defined.

(** * Further properties of the code *)

(** ** Linear algebra on lists *)

Lemma dot_vadd_r (r x y : vec) :
  List.length x = List.length y -> dot r (vadd x y) = dot r x + dot r y.
Proof.
  revert x y. induction r as [|a r IH]; intros [|b x] [|c y] H;
    try discriminate; cbn; try lra.
  change (a * (b + c) + dot r (vadd x y) = a * b + dot r x + (a * c + dot r y)).
  rewrite IH by (injection H as H; exact H). lra.
Qed.

Lemma dot_vscale_r (k : R) (r x : vec) : dot r (vscale k x) = k * dot r x.
Proof.
  revert x. induction r as [|a r IH]; intros [|b x]; cbn; try lra.
  change (a * (k * b) + dot r (vscale k x) = k * (a * b + dot r x)).
  rewrite IH. lra.
Qed.

Lemma dot_vneg_l (u v : vec) : dot (vneg u) v = - dot u v.
Proof.
  revert v. induction u as [|a u IH]; intros [|b v]; cbn; try lra.
  change (- a * b + dot (vneg u) v = - (a * b + dot u v)).
  rewrite IH. lra.
Qed.

Lemma dot_vneg_r (u v : vec) : dot u (vneg v) = - dot u v.
Proof.
  revert v. induction u as [|a u IH]; intros [|b v]; cbn; try lra.
  change (a * - b + dot u (vneg v) = - (a * b + dot u v)).
  rewrite IH. lra.
Qed.

Lemma dot_map_zero {A} (F : A -> R) (l : list A) (e : vec) :
  (forall j, F j = 0) -> dot (map F l) e = 0.
Proof.
  intros HF. revert e. induction l as [|j l IH]; intros [|b e]; cbn; try lra.
  change (F j * b + dot (map F l) e = 0). rewrite IH, HF. lra.
Qed.

Lemma dot_map_lin {A} (a : R) (F G : A -> R) (l : list A) (e : vec) :
  dot (map (fun j => a * F j + G j) l) e =
  a * dot (map F l) e + dot (map G l) e.
Proof.
  revert e. induction l as [|j l IH]; intros [|b e]; cbn; try lra.
  change ((a * F j + G j) * b + dot (map (fun j => a * F j + G j) l) e =
          a * (F j * b + dot (map F l) e) + (G j * b + dot (map G l) e)).
  rewrite IH. lra.
Qed.

Lemma map_nth_seq0 (r : vec) :
  map (fun j => nth j r 0) (seq 0 (List.length r)) = r.
Proof.
  induction r as [|a r IH]; [reflexivity|].
  cbn [List.length seq map nth]. f_equal.
  rewrite <- seq_shift, map_map. exact IH.
Qed.

(** [(d^T Q) e = d^T (Q e)] for a matrix whose rows all have [m] entries. *)
Lemma vecmat_columns_dot (Q : matrix) (m : nat) : forall (d e : vec),
  Forall (fun row => List.length row = m) Q ->
  dot (map (fun j => dot d (column Q j)) (seq 0 m)) e = dot d (matvec Q e).
Proof.
  induction Q as [|r0 Q IH]; intros d e HQ.
  - cbn [matvec map]. rewrite dot_nil_r. apply dot_map_zero.
    intros j. apply dot_nil_r.
  - inversion HQ as [|? ? Hr HQ']; subst.
    destruct d as [|d0 d].
    + cbn [dot vmul map2 fold_right]. apply dot_map_zero. intros j. reflexivity.
    + cbn [matvec map]. rewrite dot_cons.
      rewrite (map_ext _ (fun j => d0 * nth j r0 0 + dot d (column Q j)))
        by (intros j; reflexivity).
      rewrite dot_map_lin, map_nth_seq0. f_equal. apply IH. exact HQ'.
Qed.

Lemma vecmat_dot (Q : matrix) (d e : vec) :
  Forall (fun row => List.length row = List.length (hd [] Q)) Q ->
  dot (vecmat d Q) e = dot d (matvec Q e).
Proof. intros HQ. unfold vecmat. apply vecmat_columns_dot. exact HQ. Qed.

(** ** SteepestGradientDescentQuadratic: what a run returns *)

Lemma reaches_first {S} (body : S -> outcome S) s s1 s' :
  body s = Next s1 -> reaches body s1 s' -> reaches body s s'.
Proof.
  intros Hb Hr. induction Hr as [|s2 s3 Hr IH Hb'].
  - eapply reaches_step; [apply reaches_refl | exact Hb].
  - eapply reaches_step; [exact IH | exact Hb'].
Qed.

(** The state a run returns is the one whose pass broke. *)
Lemma while_true_returns_break {S} (body : S -> outcome S) fuel : forall s s' st,
  while_true body fuel s = Some (Return (s', st)) ->
  exists s0, reaches body s s0 /\ body s0 = Break s' st.
Proof.
  induction fuel as [|k IH]; intros s s' st H; [discriminate|].
  cbn [while_true] in H. destruct (body s) as [s1|s1 st1|e] eqn:Hb.
  - destruct (IH _ _ _ H) as (s0 & Hr & Hb0).
    exists s0. split; [eapply reaches_first; eassumption | exact Hb0].
  - injection H as <- <-. exists s. split; [apply reaches_refl | exact Hb].
  - discriminate.
Qed.

Lemma SGDQ_body_break_inv s s' st :
  SGDQ.body s = Break s' st ->
  s' = s /\
  let g := jacobian (SGDQ.f s) (SGDQ.wrt s) in
  match st with
  | optimal => norm g <= SGDQ.eps s
  | stopped => SGDQ.eps s < norm g /\ (SGDQ.max_iter s < SGDQ.iter s)%Z
  | unbounded =>
      SGDQ.eps s < norm g /\ (SGDQ.iter s <= SGDQ.max_iter s)%Z /\
      dot (vecmat (vneg g) (hessian (SGDQ.f s))) (vneg g) <= 1e-12
  | error => False
  end.
Proof.
  unfold SGDQ.body.
  destruct (Rleb_spec (norm (jacobian (SGDQ.f s) (SGDQ.wrt s))) (SGDQ.eps s)) as [Hn|Hn].
  { intros H. injection H as <- <-. split; [reflexivity | exact Hn]. }
  destruct (Z.gtb_spec (SGDQ.iter s) (SGDQ.max_iter s)) as [Hgt|Hle].
  { intros H. injection H as <- <-. split; [reflexivity|]. cbv zeta. split; [lra | lia]. }
  destruct (Rleb_spec (dot (vecmat (vneg (jacobian (SGDQ.f s) (SGDQ.wrt s)))
                                   (hessian (SGDQ.f s)))
                           (vneg (jacobian (SGDQ.f s) (SGDQ.wrt s)))) 1e-12) as [Hd|Hd].
  { intros H. injection H as <- <-. split; [reflexivity|]. cbv zeta.
    split; [lra|]. split; [lia | exact Hd]. }
  discriminate.
Qed.

Lemma SGDQ_reaches_keeps s0 s :
  reaches SGDQ.body s0 s ->
  SGDQ.f s = SGDQ.f s0 /\ SGDQ.eps s = SGDQ.eps s0.
Proof.
  intros Hr. induction Hr as [|s1 s2 Hr IH Hb]; [split; reflexivity|].
  destruct IH as [Hf He]. revert Hb. unfold SGDQ.body.
  destruct (Rleb _ _); [discriminate|].
  destruct (_ >? _)%Z; [discriminate|].
  destruct (Rleb _ _); [discriminate|].
  intros H. injection H as <-. cbn. split; assumption.
Qed.

(** X1: [SteepestGradientDescentQuadratic.minimize] always returns, with
    the objective and [eps] untouched and the counter advanced to at most
    [max_iter + 1]; the status tells what holds at the returned point:
    [optimal] - the gradient norm is [<= eps]; [stopped] - it is not and
    [iter > max_iter]; [unbounded] - it is not and the curvature along
    [-g] is [<= 1e-12]; never [error]. *)
Theorem X1_sgdq_minimize_postcondition (s : SGDQ.t) :
  exists s' st,
    SGDQ.minimize s = Some (Return (s', st)) /\
    SGDQ.f s' = SGDQ.f s /\ SGDQ.eps s' = SGDQ.eps s /\
    (SGDQ.iter s <= SGDQ.iter s')%Z /\
    (s' = s \/ (SGDQ.iter s' <= SGDQ.max_iter s + 1)%Z) /\
    let g := jacobian (SGDQ.f s') (SGDQ.wrt s') in
    match st with
    | optimal => norm g <= SGDQ.eps s'
    | stopped => SGDQ.eps s' < norm g /\ (SGDQ.max_iter s' < SGDQ.iter s')%Z
    | unbounded =>
        SGDQ.eps s' < norm g /\ (SGDQ.iter s' <= SGDQ.max_iter s')%Z /\
        dot (vecmat (vneg g) (hessian (SGDQ.f s'))) (vneg g) <= 1e-12
    | error => False
    end.
Proof.
  destruct (SGDQ_minimize_returns s) as ([s' st] & Hm).
  exists s', st. split; [exact Hm|].
  destruct (while_true_returns_break _ _ _ _ _ Hm) as (s0 & Hr & Hb).
  destruct (SGDQ_body_break_inv _ _ _ Hb) as [-> Hpost].
  destruct (SGDQ_reaches_keeps _ _ Hr) as [Hf He].
  destruct (SGDQ_reaches_fuel _ _ Hr) as (Hle & _ & Hor & _).
  repeat (split; [assumption|]). exact Hpost.
Qed.

Lemma SGDQ_body_next_shape s s' :
  SGDQ.body s = Next s' ->
  let g := jacobian (SGDQ.f s) (SGDQ.wrt s) in
  let d := vneg g in
  let den := dot (vecmat d (hessian (SGDQ.f s))) d in
  1e-12 < den /\
  s' = SGDQ.advance s (vadd (SGDQ.wrt s) (vscale (dot d d / den) d)).
Proof.
  unfold SGDQ.body.
  destruct (Rleb _ _); [discriminate|].
  destruct (_ >? _)%Z; [discriminate|].
  destruct (Rleb_spec (dot (vecmat (vneg (jacobian (SGDQ.f s) (SGDQ.wrt s)))
                                   (hessian (SGDQ.f s)))
                           (vneg (jacobian (SGDQ.f s) (SGDQ.wrt s)))) 1e-12) as [Hd|Hd];
    [discriminate|].
  intros H. injection H as <-. split; [lra | reflexivity].
Qed.

(** X2: in a pass that moves the point the exact step is
    [a = ||g||^2 / d^T Q d] (the source's [# or ng ** 2 / den]), and on an
    objective whose gradient is affine with the Hessian as slope the new
    gradient is orthogonal to the old one (the source's commented
    assertion [<grad f(x_i), grad f(x_i+1)> = 0]). *)
Theorem X2_sgdq_exact_step_orthogonal_gradients (s s' : SGDQ.t) :
  let g := jacobian (SGDQ.f s) (SGDQ.wrt s) in
  let d := vneg g in
  let Q := hessian (SGDQ.f s) in
  let a := dot d d / dot (vecmat d Q) d in
  SGDQ.body s = Next s' ->
  Forall (fun row => List.length row = List.length (hd [] Q)) Q ->
  List.length Q = List.length g ->
  jacobian (SGDQ.f s) (SGDQ.wrt s') = vadd g (vscale a (matvec Q d)) ->
  SGDQ.wrt s' = vadd (SGDQ.wrt s) (vscale a d) /\
  a = norm g ^ 2 / dot (vecmat d Q) d /\
  dot g (jacobian (SGDQ.f s) (SGDQ.wrt s')) = 0.
Proof.
  intros g d Q a Hb HQ Hlen Haff.
  destruct (SGDQ_body_next_shape _ _ Hb) as [Hden ->].
  fold g d Q in Hden.
  assert (Hdd : dot d d = dot g g).
  { unfold d. rewrite dot_vneg_l, dot_vneg_r. lra. }
  split; [reflexivity|]. split.
  - unfold a. rewrite norm_sqr, Hdd. reflexivity.
  - rewrite Haff. rewrite dot_vadd_r.
    2:{ unfold vscale, matvec. rewrite !length_map. symmetry. exact Hlen. }
    rewrite dot_vscale_r.
    assert (Hg : dot g (matvec Q d) = - dot (vecmat d Q) d).
    { rewrite (vecmat_dot Q d d HQ). unfold d at 2. rewrite dot_vneg_l.
      fold d. lra. }
    rewrite Hg. unfold a. rewrite Hdd. field. lra.
Qed.

Lemma Quadratic_jacobian_affine (Q : matrix) (q x d : vec) (a : R) :
  List.length x = List.length d ->
  jacobian (Quadratic Q q) (vadd x (vscale a d)) =
  vadd (jacobian (Quadratic Q q) x) (vscale a (matvec Q d)).
Proof.
  intros Hlen. cbn [Quadratic jacobian]. revert q.
  induction Q as [|r Q IH]; intros [|c q]; try reflexivity.
  cbn [matvec map vsub map2 vscale vadd]. f_equal.
  - rewrite dot_vadd_r by (unfold vscale; rewrite length_map; exact Hlen).
    rewrite dot_vscale_r. lra.
  - apply IH.
Qed.

Lemma sgdq_identity_first_pass it0 :
  (it0 <= 1000)%Z ->
  SGDQ.body (sgdq_identity it0) =
  Next (SGDQ.advance (sgdq_identity it0)
         (vadd [-1; 1]
               (vscale (dot (vneg (jacobian quad_identity [-1; 1]))
                            (vneg (jacobian quad_identity [-1; 1])) /
                        dot (vecmat (vneg (jacobian quad_identity [-1; 1]))
                                    (hessian quad_identity))
                            (vneg (jacobian quad_identity [-1; 1])))
                       (vneg (jacobian quad_identity [-1; 1]))))).
Proof.
  intros Hit. unfold SGDQ.body.
  cbn [sgdq_identity SGDQ.f SGDQ.wrt SGDQ.eps SGDQ.iter SGDQ.max_iter].
  rewrite Rleb_false
    by (rewrite quad_identity_jacobian; unfold norm;
        apply sqrt_gt_bound; [lra | vec_compute; lra]).
  rewrite (Zgtb_false _ _ Hit).
  rewrite Rleb_false
    by (rewrite quad_identity_jacobian; unfold quad_identity; vec_compute; lra).
  reflexivity.
Qed.

Lemma X2_witness :
  dot (jacobian quad_identity [-1; 1])
      (jacobian quad_identity
         (vadd [-1; 1]
               (vscale (dot (vneg (jacobian quad_identity [-1; 1]))
                            (vneg (jacobian quad_identity [-1; 1])) /
                        dot (vecmat (vneg (jacobian quad_identity [-1; 1]))
                                    (hessian quad_identity))
                            (vneg (jacobian quad_identity [-1; 1])))
                       (vneg (jacobian quad_identity [-1; 1]))))) = 0.
Proof.
  pose proof (X2_sgdq_exact_step_orthogonal_gradients (sgdq_identity 1) _
                (sgdq_identity_first_pass 1 ltac:(lia))) as H.
  cbv zeta in H.
  apply H.
  - repeat constructor.
  - cbn [sgdq_identity SGDQ.f SGDQ.wrt]. rewrite quad_identity_jacobian. reflexivity.
  - cbn [sgdq_identity SGDQ.f SGDQ.wrt SGDQ.advance].
    unfold quad_identity at 1 2.
    apply Quadratic_jacobian_affine.
    unfold vneg. rewrite length_map, quad_identity_jacobian. reflexivity.
Defined.

(** ** GradientDescent: what a run returns *)

Lemma GD_loop_post l fuel : forall s s' st,
  while_true (GD.body l) fuel s = Some (Return (s', st)) ->
  (st = optimal \/ (st = stopped /\ (GD.max_iter s' < GD.iter s')%Z)) /\
  (GD.iter s <= GD.iter s')%Z.
Proof.
  induction fuel as [|k IH]; intros s s' st H; [discriminate|].
  cbn [while_true] in H. unfold GD.body in H.
  destruct (GD.move s) as [w step'].
  destruct (Rleb _ _).
  { injection H as <- <-. split; [left; reflexivity | cbn; lia]. }
  destruct (Z.gtb_spec (GD.iter s) (GD.max_iter s)) as [Hgt|Hle].
  { injection H as <- <-. split; [right; split; [reflexivity | cbn; lia] | cbn; lia]. }
  destruct step' as [stv|]; [|discriminate].
  apply IH in H. cbn in H. destruct H as [H1 H2]. split; [exact H1 | lia].
Qed.

(** X3: with one of the three momentum types, [GradientDescent.minimize]
    returns within its budget, never raises, and its status is [optimal]
    or [stopped] (never [unbounded] or [error]); [stopped] means the
    counter has passed [max_iter]. *)
Theorem X3_gd_minimize_returns (s : GD.t) :
  GD.known_momentum_type (GD.momentum_type s) = true ->
  exists s' st,
    GD.minimize s = Some (Return (s', st)) /\
    (st = optimal \/ (st = stopped /\ (GD.max_iter s' < GD.iter s')%Z)) /\
    (GD.iter s <= GD.iter s')%Z.
Proof.
  intros Hk.
  destruct (GD_loop_returns (GD.prelude s) (Z.to_nat (GD.max_iter s - GD.iter s + 1)) s Hk)
    as ([s' st] & Hm); [lia|].
  exists s', st. split; [exact Hm|].
  apply (GD_loop_post _ _ _ _ _ Hm).
Qed.

Lemma X3_witness :
  exists s' st,
    GD.minimize (gd_identity 1) = Some (Return (s', st)) /\
    (st = optimal \/ (st = stopped /\ (GD.max_iter s' < GD.iter s')%Z)) /\
    (GD.iter (gd_identity 1) <= GD.iter s')%Z.
Proof. apply (X3_gd_minimize_returns (gd_identity 1)). reflexivity. Defined.

Lemma map_mul_0 (v : vec) : map (fun vi => vi * 0) v = zeros (List.length v).
Proof.
  induction v as [|a v IH]; [reflexivity|]. cbn. rewrite IH. f_equal. lra.
Qed.

Lemma vadd_zeros_l (n : nat) (u : vec) :
  List.length u = n -> vadd (zeros n) u = u.
Proof.
  revert n. induction u as [|a u IH]; intros [|n] H; try discriminate; [reflexivity|].
  cbn. f_equal; [lra|]. apply IH. injection H as H. exact H.
Qed.

Lemma vsub_zeros_r (n : nat) (u : vec) :
  List.length u = n -> vsub u (zeros n) = u.
Proof.
  revert n. induction u as [|a u IH]; intros [|n] H; try discriminate; [reflexivity|].
  cbn. f_equal; [lra|]. apply IH. injection H as H. exact H.
Qed.

(** X4: when no step has been taken yet ([self.step = 0]) or the momentum
    coefficient is [0], the [standard] and [nesterov] branches move the
    point exactly as the [none] branch does: a plain gradient step. *)
Theorem X4_gd_momentum_types_coincide (s : GD.t) :
  GD.step s = Scalar0 0 \/
  (GD.momentum s = 0 /\
   match GD.step s with
   | Scalar0 _ => True
   | Array1 v =>
       List.length v = List.length (GD.wrt s) /\
       List.length (jacobian (GD.f s) (GD.wrt s)) = List.length (GD.wrt s)
   end) ->
  GD.move (gd_with_momentum_type s "standard") =
    GD.move (gd_with_momentum_type s "none") /\
  GD.move (gd_with_momentum_type s "nesterov") =
    GD.move (gd_with_momentum_type s "none") /\
  GD.move (gd_with_momentum_type s "none") =
    (vsub (GD.wrt s) (vscale (GD.step_rate s) (jacobian (GD.f s) (GD.wrt s))),
     Some (vscale (GD.step_rate s) (jacobian (GD.f s) (GD.wrt s)))).
Proof.
  intros H. unfold GD.move, gd_with_momentum_type.
  cbn [GD.momentum_type GD.f GD.wrt GD.step GD.momentum GD.step_rate].
  change ("standard" =? "standard")%string with true.
  change ("nesterov" =? "standard")%string with false.
  change ("nesterov" =? "nesterov")%string with true.
  change ("none" =? "standard")%string with false.
  change ("none" =? "nesterov")%string with false.
  change ("none" =? "none")%string with true.
  cbv iota.
  assert (Hjump :
    nd_rsub (GD.wrt s) (nd_mul (GD.step s) (GD.momentum s)) = GD.wrt s /\
    forall u, List.length u = List.length (jacobian (GD.f s) (GD.wrt s)) ->
              nd_add (nd_mul (GD.step s) (GD.momentum s)) u = u).
  { destruct H as [-> | [Hm Hs]].
    - cbn [nd_mul nd_rsub nd_add]. split.
      + rewrite <- (map_id (GD.wrt s)) at 2. apply map_ext. intros a. lra.
      + intros u _. rewrite <- (map_id u) at 2. apply map_ext. intros a. lra.
    - rewrite Hm. destruct (GD.step s) as [r|v]; cbn [nd_mul nd_rsub nd_add].
      + split.
        * rewrite <- (map_id (GD.wrt s)) at 2. apply map_ext. intros a. lra.
        * intros u _. rewrite <- (map_id u) at 2. apply map_ext. intros a. lra.
      + destruct Hs as [Hv Hj]. rewrite map_mul_0. split.
        * apply vsub_zeros_r. symmetry. exact Hv.
        * intros u Hu. apply vadd_zeros_l. rewrite Hu, Hj, Hv. reflexivity. }
  destruct Hjump as [Hw Ha].
  assert (Hl : List.length (vscale (GD.step_rate s) (jacobian (GD.f s) (GD.wrt s)))
               = List.length (jacobian (GD.f s) (GD.wrt s)))
    by (unfold vscale; apply length_map).
  split; [|split; [|reflexivity]].
  - rewrite (Ha _ Hl). reflexivity.
  - rewrite Hw, (Ha _ Hl). reflexivity.
Qed.

Lemma X4_witness :
  GD.move (gd_with_momentum_type (gd_identity 1) "standard") =
    GD.move (gd_with_momentum_type (gd_identity 1) "none") /\
  GD.move (gd_with_momentum_type (gd_identity 1) "nesterov") =
    GD.move (gd_with_momentum_type (gd_identity 1) "none").
Proof.
  destruct (X4_gd_momentum_types_coincide (gd_identity 1)) as (H1 & H2 & _).
  - left. reflexivity.
  - split; assumption.
Defined.

(** X5: the point is moved before the stopping test.  When the gradient
    at the start point already meets the (absolute) threshold, the run
    returns [optimal] after one pass with the counter unchanged, but the
    point it returns is [x0 - step_rate * grad f(x0)], not [x0]. *)
Theorem X5_gd_optimal_at_start_still_moves (s : GD.t) :
  GD.momentum_type s = "none"%string ->
  0 <= GD.eps s ->
  norm (jacobian (GD.f s) (GD.wrt s)) <= GD.eps s ->
  exists s',
    GD.minimize s = Some (Return (s', optimal)) /\
    GD.wrt s' = vsub (GD.wrt s)
                     (vscale (GD.step_rate s) (jacobian (GD.f s) (GD.wrt s))) /\
    GD.iter s' = GD.iter s /\ GD.step s' = GD.step s.
Proof.
  intros Hmt Heps Hn. unfold GD.minimize, GD.budget.
  cbn [while_true]. unfold GD.body, GD.move. rewrite Hmt.
  change ("none" =? "standard")%string with false.
  change ("none" =? "nesterov")%string with false.
  change ("none" =? "none")%string with true. cbv iota.
  unfold GD.prelude. cbn [GD.ng GD.ng0].
  rewrite (Rltb_false _ _ Heps), Rmult_1_r, (Rleb_true _ _ Hn).
  eexists. split; [reflexivity|]. cbn. repeat split; reflexivity.
Qed.

Lemma X5_witness :
  exists s',
    GD.minimize (gd_identity_at [1e-7; 0] (Scalar0 0) 1) = Some (Return (s', optimal)) /\
    GD.wrt s' = vsub [1e-7; 0] (vscale 1 (jacobian quad_identity [1e-7; 0])) /\
    GD.iter s' = 1%Z /\ GD.step s' = Scalar0 0.
Proof.
  apply (X5_gd_optimal_at_start_still_moves (gd_identity_at [1e-7; 0] (Scalar0 0) 1)).
  - reflexivity.
  - cbn. lra.
  - cbn [gd_identity_at GD.f GD.wrt GD.eps]. rewrite quad_identity_jacobian.
    unfold norm. apply sqrt_le_bound; [lra|]. vec_compute. lra.
Defined.

(** ** Loops with a decreasing budget *)

Section MeasuredLoop.
(** Under an invariant, a pass never raises; a pass that falls through
    needs a positive [measure], decreases it and adds one to [count]. *)
Variables (S : Type) (body : S -> outcome S) (Inv : S -> Prop)
          (measure count : S -> Z).
Hypothesis pass_ok : forall s, Inv s ->
  match body s with
  | Next s' =>
      Inv s' /\ (0 < measure s)%Z /\ (measure s' < measure s)%Z /\
      count s' = (count s + 1)%Z
  | Break s' _ => count s' = count s
  | Raise _ => False
  end.

Lemma measured_loop_returns k : forall s,
  Inv s -> (Z.to_nat (measure s) <= k)%nat ->
  exists s' st,
    while_true body (Datatypes.S k) s = Some (Return (s', st)) /\
    (count s <= count s' <= count s + Z.max 0 (measure s))%Z.
Proof.
  induction k as [|k IH]; intros s HI Hk; cbn [while_true];
    pose proof (pass_ok s HI) as Hp;
    destruct (body s) as [s1|s1 st1|e]; try contradiction.
  - lia.
  - exists s1, st1. split; [reflexivity | lia].
  - destruct Hp as (HI1 & Hpos & Hdec & Hc).
    destruct (IH s1 HI1) as (s' & st & Hr & Hcount); [lia|].
    exists s', st. split; [exact Hr | lia].
  - exists s1, st1. split; [reflexivity | lia].
Qed.
End MeasuredLoop.

(** ** SteepestGradientDescent *)

Lemma SGD_pass_ok (sl : SGD.t * SGD.locals) :
  consumes_evaluations (SGD.search (fst sl)) /\
  SGD.ng (snd sl) = norm (SGD.g (snd sl)) ->
  match SGD.body sl with
  | Next sl' =>
      (consumes_evaluations (SGD.search (fst sl')) /\
       SGD.ng (snd sl') = norm (SGD.g (snd sl'))) /\
      (0 < SGD.max_f_eval (fst sl) - SGD.f_eval (snd sl) + 1)%Z /\
      (SGD.max_f_eval (fst sl') - SGD.f_eval (snd sl') + 1 <
       SGD.max_f_eval (fst sl) - SGD.f_eval (snd sl) + 1)%Z /\
      SGD.iter (fst sl') = (SGD.iter (fst sl) + 1)%Z
  | Break sl' _ => SGD.iter (fst sl') = SGD.iter (fst sl)
  | Raise _ => False
  end.
Proof.
  destruct sl as [s l]. cbn [fst snd]. intros [Hc Hng]. unfold SGD.body.
  destruct (Rleb _ _); [reflexivity|].
  destruct (Z.gtb_spec (SGD.f_eval l) (SGD.max_f_eval s)) as [Hgt|Hle]; [reflexivity|].
  pose proof (Hc (vneg (SGD.g l)) (SGD.wrt s) (SGD.last_wrt l) (SGD.last_g l)
                 (SGD.f_eval l) (SGD.a_start s) (SGD.v l) (- SGD.ng l * SGD.ng l)) as Hfe.
  destruct (SGD.search s _ _ _ _ _ _ _ _) as [[[[a v'] lw] lg] fe].
  cbn [snd] in Hfe.
  destruct (Rleb _ _); [reflexivity|].
  destruct (SGD.le_m_inf _ _); [reflexivity|].
  cbn. repeat split; try assumption; lia.
Qed.

(** X6: with a line search that counts at least one evaluation per call,
    [SteepestGradientDescent.minimize] returns a status after at most
    [max_f_eval + 1] passes and never raises, and it makes at most
    [max_f_eval] iterations (the docstring's "iterations will be not more
    than max_f_eval"). *)
Theorem X6_sgd_terminates_within_max_f_eval (s : SGD.t) :
  consumes_evaluations (SGD.search s) ->
  exists s' l' st,
    SGD.minimize (S (Z.to_nat (SGD.max_f_eval s))) s = Some (Return (s', l', st)) /\
    (SGD.iter s <= SGD.iter s' <= SGD.iter s + Z.max 0 (SGD.max_f_eval s))%Z.
Proof.
  intros Hc.
  destruct (measured_loop_returns _ SGD.body
              (fun sl => consumes_evaluations (SGD.search (fst sl)) /\
                         SGD.ng (snd sl) = norm (SGD.g (snd sl)))
              (fun sl => SGD.max_f_eval (fst sl) - SGD.f_eval (snd sl) + 1)%Z
              (fun sl => SGD.iter (fst sl))
              SGD_pass_ok
              (Z.to_nat (SGD.max_f_eval s)) (s, SGD.prelude s))
    as ([s' l'] & st & Hr & Hcount).
  - split; [exact Hc | reflexivity].
  - cbn. lia.
  - exists s', l', st. split; [exact Hr|]. cbn in Hcount.
    replace (SGD.max_f_eval s - 1 + 1)%Z with (SGD.max_f_eval s) in Hcount by lia.
    exact Hcount.
Qed.

Lemma ncg_search_consumes f a : consumes_evaluations (ncg_search f a).
Proof. intros d w lw lg fe a0 v p. cbn. lia. Qed.

Lemma X6_witness :
  exists s' l' st,
    SGD.minimize (S (Z.to_nat 1000)) (sgd_identity 1) = Some (Return (s', l', st)) /\
    (1 <= SGD.iter s' <= 1 + Z.max 0 1000)%Z.
Proof.
  apply (X6_sgd_terminates_within_max_f_eval (sgd_identity 1)).
  apply ncg_search_consumes.
Defined.



(** ** NonLinearConjugateGradient: termination and re-entry *)

Lemma NCG_direction_returns s l :
  NCG_inv (s, l) -> exists d, NCG.direction s l = Return d.
Proof.
  intros (_ & Hwf & Hn & Hp). cbn [fst snd] in *. unfold NCG.direction.
  destruct (Z.eqb_spec (NCG.iter s) 1) as [E|E]; [eauto|].
  destruct Hp as [Hp|(pg & pd & Hp)]; [contradiction|].
  unfold NCG.beta, NCG.restart.
  destruct (Z.gtb_spec (NCG.r_start s) 0) as [Hr|Hr].
  - destruct (Z.eqb_spec (NCG.n s) 0) as [E0|E0]; [lia|].
    destruct (_ =? _)%Z.
    + rewrite Reqb_true by reflexivity. cbn [negb]. eauto.
    + rewrite Hp. destruct (NCG_formula_bound (NCG.wf s) (NCG.ng l) (NCG.g l) pg pd Hwf)
        as (b & ->).
      destruct (negb (Reqb b 0)); eauto.
  - rewrite Hp. destruct (NCG_formula_bound (NCG.wf s) (NCG.ng l) (NCG.g l) pg pd Hwf)
      as (b & ->).
    destruct (negb (Reqb b 0)); eauto.
Qed.

Lemma NCG_pass_ok (sl : NCG.t * NCG.locals) :
  NCG_inv sl ->
  match NCG.body sl with
  | Next sl' =>
      NCG_inv sl' /\
      (0 < NCG.max_f_eval (fst sl) - NCG.f_eval (snd sl) + 1)%Z /\
      (NCG.max_f_eval (fst sl') - NCG.f_eval (snd sl') + 1 <
       NCG.max_f_eval (fst sl) - NCG.f_eval (snd sl) + 1)%Z /\
      NCG.iter (fst sl') = (NCG.iter (fst sl) + 1)%Z
  | Break sl' _ => NCG.iter (fst sl') = NCG.iter (fst sl)
  | Raise _ => False
  end.
Proof.
  destruct sl as [s l]. intros HI.
  destruct (NCG_direction_returns s l HI) as (d & Hd).
  destruct HI as (Hc & Hwf & Hn & Hp). cbn [fst snd] in *.
  unfold NCG.body. rewrite Hd.
  destruct (Rleb _ _); [reflexivity|].
  destruct (Z.gtb_spec (NCG.f_eval l) (NCG.max_f_eval s)) as [Hgt|Hle]; [reflexivity|].
  pose proof (Hc d (NCG.wrt s) (NCG.last_wrt l) (NCG.last_g l)
                 (NCG.f_eval l) (NCG.a_start s) (NCG.v l) (dot (NCG.g l) d)) as Hfe.
  destruct (NCG.search s _ _ _ _ _ _ _ _) as [[[[a v'] lw] lg] fe].
  cbn [snd] in Hfe.
  destruct (Rleb _ _); [reflexivity|].
  destruct (NCG.le_m_inf _ _); [reflexivity|].
  cbn [fst snd NCG.max_f_eval NCG.f_eval NCG.iter].
  split; [|lia].
  unfold NCG_inv. cbn [fst snd NCG.search NCG.wf NCG.r_start NCG.n NCG.iter NCG.past].
  repeat split; try assumption; try lia.
  right. eauto.
Qed.

(** X8: started on its first pass ([iter = 1]) with a formula number the
    constructor accepts, a usable restart period ([r_start <= 0] or
    [n <> 0]) and a line search that counts at least one evaluation per
    call, [NonLinearConjugateGradient.minimize] never raises: it returns a
    status after at most [max_f_eval + 1] passes, having made at most
    [max_f_eval] iterations. *)
Theorem X8_ncg_terminates_within_max_f_eval (s : NCG.t) :
  consumes_evaluations (NCG.search s) ->
  (0 <= NCG.wf s <= 4)%Z ->
  (NCG.r_start s <= 0 \/ NCG.n s <> 0)%Z ->
  NCG.iter s = 1%Z ->
  exists s' l' st,
    NCG.minimize (S (Z.to_nat (NCG.max_f_eval s))) s = Some (Return (s', l', st)) /\
    (1 <= NCG.iter s' <= 1 + Z.max 0 (NCG.max_f_eval s))%Z.
Proof.
  intros Hc Hwf Hn Hit.
  destruct (measured_loop_returns _ NCG.body NCG_inv
              (fun sl => NCG.max_f_eval (fst sl) - NCG.f_eval (snd sl) + 1)%Z
              (fun sl => NCG.iter (fst sl))
              NCG_pass_ok
              (Z.to_nat (NCG.max_f_eval s)) (s, NCG.prelude s))
    as ([s' l'] & st & Hr & Hcount).
  - unfold NCG_inv. cbn [fst snd]. repeat split; try assumption; lia.
  - cbn. lia.
  - exists s', l', st. split; [exact Hr|]. cbn in Hcount.
    replace (NCG.max_f_eval s - 1 + 1)%Z with (NCG.max_f_eval s) in Hcount by lia.
    rewrite Hit in Hcount. exact Hcount.
Qed.

Lemma X8_witness :
  exists s' l' st,
    NCG.minimize (S (Z.to_nat 1000)) (ncg_identity 0 0 1) = Some (Return (s', l', st)) /\
    (1 <= NCG.iter s' <= 1 + Z.max 0 1000)%Z.
Proof.
  apply (X8_ncg_terminates_within_max_f_eval (ncg_identity 0 0 1)).
  - apply ncg_search_consumes.
  - cbn. lia.
  - left. cbn. lia.
  - reflexivity.
Defined.

(** X9: [minimize] cannot be entered with the counter off [1].  On an
    object whose [iter] is not [1] (after a run that made a step), with
    no restarts and a gradient above the threshold, the first pass reads
    [past_g] before any pass has assigned it and the call raises
    [UnboundLocalError]. *)
Theorem X9_ncg_reentry_raises (s : NCG.t) (k : nat) :
  NCG.iter s <> 1%Z ->
  (NCG.r_start s <= 0)%Z ->
  (0 <= NCG.wf s <= 4)%Z ->
  (1 <= NCG.max_f_eval s)%Z ->
  0 <= NCG.eps s < norm (jacobian (NCG.f s) (NCG.wrt s)) ->
  NCG.minimize (S k) s = Some (Raised (UnboundLocalError "past_g")).
Proof.
  intros Hit Hr Hwf Hmax [He Hn].
  unfold NCG.minimize. cbn [while_true]. unfold NCG.body, NCG.prelude.
  cbn [NCG.ng NCG.ng0 NCG.f_eval NCG.g NCG.past].
  rewrite (Rltb_false _ _ He), Rmult_1_r, (Rleb_false _ _ Hn).
  rewrite Zgtb_false by lia.
  unfold NCG.direction, NCG.beta, NCG.restart.
  cbn [NCG.past].
  destruct (Z.eqb_spec (NCG.iter s) 1) as [E|_]; [contradiction|].
  rewrite Zgtb_false by lia.
  replace ((0 <=? NCG.wf s) && (NCG.wf s <=? 4))%Z with true; [reflexivity|].
  symmetry. apply andb_true_iff. split; apply Z.leb_le; lia.
Qed.

Lemma X9_witness :
  NCG.minimize 5 (ncg_identity 0 0 2) = Some (Raised (UnboundLocalError "past_g")).
Proof.
  apply (X9_ncg_reentry_raises (ncg_identity 0 0 2) 4); cbn [ncg_identity
    NCG.iter NCG.r_start NCG.wf NCG.max_f_eval NCG.eps NCG.f NCG.wrt]; try lia.
  split; [lra|]. rewrite quad_identity_jacobian. unfold norm.
  apply sqrt_gt_bound; [lra|]. vec_compute. lra.
Defined.

(** ** HeavyBallGradient: termination and edge cases *)

Lemma HB_pass_ok (sl : HB.t * HB.locals) :
  True ->
  match HB.body sl with
  | Next sl' =>
      True /\
      (0 < HB.max_iter (fst sl) - HB.iter (fst sl) + 1)%Z /\
      (HB.max_iter (fst sl') - HB.iter (fst sl') + 1 <
       HB.max_iter (fst sl) - HB.iter (fst sl) + 1)%Z /\
      HB.iter (fst sl') = (HB.iter (fst sl) + 1)%Z
  | Break sl' _ => HB.iter (fst sl') = HB.iter (fst sl)
  | Raise _ => False
  end.
Proof.
  destruct sl as [s l]. intros _. unfold HB.body.
  destruct (Rleb _ _); [reflexivity|].
  destruct (Z.gtb_spec (HB.iter s) (HB.max_iter s)) as [Hgt|Hle]; [reflexivity|].
  cbn [orb]. destruct (_ >? _)%Z; [reflexivity|].
  destruct (HB.search _ _ _ _ _ _ _ _) as [[[[a fx'] lx] lg] fe].
  destruct (Rleb _ _); [reflexivity|].
  destruct (HB.le_m_inf _ _); [reflexivity|].
  cbn. repeat split; lia.
Qed.

(** X10: whatever the line search does, [HeavyBallGradient.minimize]
    returns a status after at most [max_iter - iter + 2] passes and never
    raises; the counter ends at most at [max_iter + 1]. *)
Theorem X10_hb_terminates_whatever_the_line_search (s : HB.t) :
  exists s' l' st,
    HB.minimize (S (Z.to_nat (HB.max_iter s - HB.iter s + 1))) s =
      Some (Return (s', l', st)) /\
    (HB.iter s <= HB.iter s' <= HB.iter s + Z.max 0 (HB.max_iter s - HB.iter s + 1))%Z.
Proof.
  destruct (measured_loop_returns _ HB.body (fun _ => True)
              (fun sl => HB.max_iter (fst sl) - HB.iter (fst sl) + 1)%Z
              (fun sl => HB.iter (fst sl))
              HB_pass_ok
              (Z.to_nat (HB.max_iter s - HB.iter s + 1)) (s, HB.prelude s) I)
    as ([s' l'] & st & Hr & Hcount).
  - cbn. lia.
  - exists s', l', st. split; [exact Hr | exact Hcount].
Qed.

(** X11: the scale [ng0] of the relative stopping test is recomputed from
    the current gradient in every pass.  With [-1 < eps < 0] the test
    [ng <= eps * ng0] therefore reads [ng <= |eps| * ng], and a pass ends
    with [optimal] exactly when the gradient norm is [0]. *)
Theorem X11_hb_relative_test_needs_zero_gradient (s : HB.t) (l : HB.locals) :
  -1 < HB.eps s < 0 ->
  ((exists sl', HB.body (s, l) = Break sl' optimal) <->
   norm (jacobian (HB.f s) (HB.x s)) = 0).
Proof.
  intros [Hlo Hhi]. unfold HB.body.
  rewrite (Rltb_true _ _ Hhi).
  pose proof (norm_nonneg (jacobian (HB.f s) (HB.x s))) as Hn.
  destruct (Rleb_spec (norm (jacobian (HB.f s) (HB.x s)))
                      (HB.eps s * - norm (jacobian (HB.f s) (HB.x s)))) as [Hle|Hgt].
  - split; [intros _; nra | intros _; eexists; reflexivity].
  - split; [|intros E; exfalso; nra].
    intros (sl' & H). exfalso. revert H.
    destruct (_ || _)%bool; [discriminate|].
    destruct (HB.search _ _ _ _ _ _ _ _) as [[[[a fx'] lx] lg] fe].
    destruct (Rleb _ _); [discriminate|].
    destruct (HB.le_m_inf _ _); discriminate.
Qed.

Lemma X11_witness :
  (exists sl',
     HB.body ({| HB.f := quad_12; HB.n := 2; HB.x := [0; 0]; HB.beta := 9 / 10;
                 HB.eps := - (1 / 2); HB.max_iter := 1000; HB.m_inf := None;
                 HB.line_search := HB.line_search (hb_12 (9 / 10));
                 HB.iter := 0; HB.f_x := 0 |},
              HB.prelude (hb_12 (9 / 10))) = Break sl' optimal) <->
  norm (jacobian quad_12 [0; 0]) = 0.
Proof.
  apply (X11_hb_relative_test_needs_zero_gradient
           {| HB.f := quad_12; HB.n := 2; HB.x := [0; 0]; HB.beta := 9 / 10;
              HB.eps := - (1 / 2); HB.max_iter := 1000; HB.m_inf := None;
              HB.line_search := HB.line_search (hb_12 (9 / 10));
              HB.iter := 0; HB.f_x := 0 |}).
  cbn. lra.
Defined.

(** X12: with [beta = 0] neither branch of the momentum coefficient
    contributes: the first pass, and every later pass whose [past_d] is
    not the zero vector, uses the steepest-descent direction [-g] (given
    that [past_d] has the dimension of the gradient).  In a later pass
    whose [past_d] is the zero vector, [-beta * ng / ||past_d||] divides
    by zero and the direction is not a finite vector. *)
Theorem X12_hb_beta_zero_is_steepest_descent (s : HB.t) (l : HB.locals) :
  HB.beta s = 0 ->
  List.length (HB.past_d l) = List.length (jacobian (HB.f s) (HB.x s)) ->
  (HB.iter s = 0%Z \/ norm (HB.past_d l) <> 0 ->
   HB.direction s l = Some (vneg (jacobian (HB.f s) (HB.x s)))) /\
  (HB.iter s <> 0%Z -> norm (HB.past_d l) = 0 -> HB.direction s l = None).
Proof.
  intros Hb Hlen. unfold HB.direction, HB.beta_i.
  rewrite Hb, Rltb_false by lra. split.
  - intros [H0|Hp].
    + rewrite H0. reflexivity.
    + destruct (HB.iter s =? 0)%Z; [reflexivity|].
      rewrite Reqb_false by exact Hp.
      replace (- 0 * norm (jacobian (HB.f s) (HB.x s)) / norm (HB.past_d l))
        with 0 by (unfold Rdiv; ring).
      f_equal. apply vadd_vscale_0. rewrite vneg_length. exact Hlen.
  - intros H0 Hp.
    destruct (Z.eqb_spec (HB.iter s) 0) as [E|_]; [contradiction|].
    rewrite Reqb_true by exact Hp. reflexivity.
Qed.

Lemma X12_witness :
  HB.direction (fst (hb_12_second 0)) (snd (hb_12_second 0)) =
  Some (vneg (jacobian quad_12 [1 / 2; 0])).
Proof.
  apply (X12_hb_beta_zero_is_steepest_descent
           (fst (hb_12_second 0)) (snd (hb_12_second 0))).
  - reflexivity.
  - cbn [hb_12_second fst snd HB.past_d HB.upd HB.f HB.x hb_12].
    rewrite quad_12_jacobian. reflexivity.
  - right. cbn [hb_12_second fst snd HB.past_d].
    apply Rgt_not_eq. unfold norm.
    apply Rlt_gt, Rlt_trans with (1 / 2); [lra|].
    apply sqrt_gt_bound; [lra | vec_compute; lra].
Defined.

(** ** RProp and AdaMax: what an update and a run give *)

(** X13: without momentum, and with [0 <= min_step <= max_step], one
    update of [RProp] moves no coordinate by more than [max_step], and a
    coordinate whose gradient component is zero does not move at all. *)
Theorem X13_rprop_update_is_bounded
        (Batch : Type) (s s' : RProp.t Batch) (args : Batch) (i : nat) :
  RProp.body args s = Next s' ->
  RProp.momentum_type s = "none"%string ->
  0 <= RProp.min_step s <= RProp.max_step s ->
  (i < List.length (RProp.x s))%nat ->
  List.length (RProp.changes s) = List.length (RProp.x s) ->
  List.length (RProp.jacobian s) = List.length (RProp.x s) ->
  List.length (Stochastic.jacobian (RProp.f s) (RProp.x s) args) =
    List.length (RProp.x s) ->
  let gi := nth i (Stochastic.jacobian (RProp.f s) (RProp.x s) args) 0 in
  Rabs (nth i (RProp.x s') 0 - nth i (RProp.x s) 0) <= RProp.max_step s /\
  (gi = 0 -> nth i (RProp.x s') 0 = nth i (RProp.x s) 0).
Proof.
  intros Hb Hmt Hr Hi Hc Hj Hg gi.
  destruct (RProp_body_first_step args s s' (or_intror Hmt) Hb) as (_ & Hch & Hx).
  set (g := Stochastic.jacobian (RProp.f s) (RProp.x s) args) in *.
  assert (Hlen : List.length (RProp.changes s') = List.length (RProp.x s)).
  { rewrite Hch, RProp_adapt_length; lia. }
  assert (Hrange : RProp.min_step s <= nth i (RProp.changes s') 0 <= RProp.max_step s).
  { rewrite Hch, RProp_adapt_nth by lia. apply clip1_range. lra. }
  assert (Hxi : nth i (RProp.x s') 0 =
                nth i (RProp.x s) 0 - nth i (RProp.changes s') 0 * sign gi).
  { rewrite Hx. unfold vsub. rewrite (nth_map2 _ _ _ _ 0 0).
    - rewrite RProp_step2_nth by lia. reflexivity.
    - exact Hi.
    - unfold RProp.step2, vmul. rewrite map2_length, length_map. lia. }
  rewrite Hxi.
  destruct (sign_cases gi) as [[Hs E]|[[Hs E]|[Hs E]]]; rewrite E; split;
    try (intros; lra); unfold Rabs; destruct (Rcase_abs _); lra.
Qed.

Lemma rprop_flip_first_pass_exists :
  exists s', RProp.body tt rprop_flip = Next s'.
Proof.
  destruct (RProp_body_next tt rprop_flip) as (s' & Hb & _); [cbn; lia|].
  exists s'. exact Hb.
Qed.

Lemma X13_witness :
  exists s', RProp.body tt rprop_flip = Next s' /\
             Rabs (nth 0 (RProp.x s') 0 - nth 0 (RProp.x rprop_flip) 0) <= 1.
Proof.
  destruct rprop_flip_first_pass_exists as (s' & Hb).
  exists s'. split; [exact Hb|].
  apply (X13_rprop_update_is_bounded unit rprop_flip s' tt 0 Hb);
    try reflexivity; cbn [rprop_flip RProp.min_step RProp.max_step RProp.x
                          RProp.f squad_identity Stochastic.jacobian List.length];
    try lra; try lia.
Defined.

Lemma RProp_loop_value {Batch} (bs : list Batch) : forall (s s' : RProp.t Batch) st,
  for_each RProp.body bs s = Return (s', Some st) ->
  exists args, In args bs /\
               RProp.f_x s' = Stochastic.function (RProp.f s') (RProp.x s') args.
Proof.
  induction bs as [|a bs IH]; intros s s' st H; [discriminate|].
  cbn [for_each] in H. destruct (RProp.body a s) as [s1|s1 st1|e] eqn:Hb.
  - destruct (IH _ _ _ H) as (args & Hin & Hv). exists args. split; [right; exact Hin | exact Hv].
  - injection H as <- <-. exists a. split; [left; reflexivity|].
    revert Hb. unfold RProp.body.
    destruct (_ >=? _)%Z.
    + intros Hb. injection Hb as <- _. reflexivity.
    + destruct (_ =? _)%string; [discriminate|].
      destruct (_ =? _)%string; discriminate.
  - discriminate.
Qed.

Lemma AdaMax_loop_value {Batch} (bs : list Batch) : forall (s s' : AdaMax.t Batch) st,
  for_each AdaMax.body bs s = Return (s', Some st) ->
  exists a, In a bs /\
            AdaMax.f_x s' = Stochastic.function (AdaMax.f s') (AdaMax.x s') a.
Proof.
  induction bs as [|a bs IH]; intros s s' st H; [discriminate|].
  cbn [for_each] in H. destruct (AdaMax.body a s) as [s1|s1 st1|e] eqn:Hb.
  - destruct (IH _ _ _ H) as (a' & Hin & Hv). exists a'. split; [right; exact Hin | exact Hv].
  - injection H as <- <-. exists a. split; [left; reflexivity|].
    revert Hb. unfold AdaMax.body.
    destruct (_ >=? _)%Z.
    + intros Hb. injection Hb as <- _. reflexivity.
    + destruct (_ =? _)%string;
        [destruct (AdaMax.moments _ _) as [[? ?] ?]; discriminate|].
      destruct (_ =? _)%string; destruct (AdaMax.moments _ _) as [[? ?] ?]; discriminate.
  - discriminate.
Qed.

(** X14: the value [RProp.minimize] and [AdaMax.minimize] return with
    the point is the objective at that very point, computed on one of the
    batches (the one on which the budget test broke the loop). *)
Theorem X14_stochastic_returned_value_is_objective_at_returned_point
        (Batch : Type) (r r' : RProp.t Batch) (a a' : AdaMax.t Batch) (st st' : status) :
  (RProp.minimize r = Return (r', st) ->
   exists args, In args (RProp.batches r) /\
                RProp.f_x r' = Stochastic.function (RProp.f r') (RProp.x r') args) /\
  (AdaMax.minimize a = Return (a', st') ->
   exists args, In args (AdaMax.args a) /\
                AdaMax.f_x a' = Stochastic.function (AdaMax.f a') (AdaMax.x a') args).
Proof.
  split; intros H.
  - unfold RProp.minimize, return_status in H.
    destruct (for_each RProp.body (RProp.batches r) r) as [[s1 [st1|]]|e] eqn:Hf;
      try discriminate.
    injection H as <- <-. eapply RProp_loop_value. exact Hf.
  - unfold AdaMax.minimize, return_status in H.
    destruct (for_each AdaMax.body (AdaMax.args a) a) as [[s1 [st1|]]|e] eqn:Hf;
      try discriminate.
    injection H as <- <-. eapply AdaMax_loop_value. exact Hf.
Qed.

Lemma X14_witness :
  exists r' args,
    RProp.minimize (rprop_identity [0; 0] 1001) = Return (r', stopped) /\
    In args (RProp.batches (rprop_identity [0; 0] 1001)) /\
    RProp.f_x r' = Stochastic.function (RProp.f r') (RProp.x r') args.
Proof.
  destruct (budget_loop_returns _ _ RProp.body RProp.iter RProp.max_iter
              RProp_body_break RProp_body_next
              (RProp.batches (rprop_identity [0; 0] 1001))
              (rprop_identity [0; 0] 1001)) as (r' & Hr & _).
  - cbn; lia.
  - cbn [rprop_identity RProp.iter RProp.max_iter RProp.batches].
    rewrite repeat_length. lia.
  - destruct (X14_stochastic_returned_value_is_objective_at_returned_point
                unit (rprop_identity [0; 0] 1001) r'
                (adamax_identity [0; 0] 1001) (adamax_identity [0; 0] 1001)
                stopped stopped) as [H _].
    destruct (H Hr) as (args & Hin & Hv).
    exists r', args. split; [exact Hr|]. split; assumption.
Defined.

(** X15: [AdaMax.__init__] builds an optimizer exactly when the base
    constructor succeeds, [beta1] and [beta2] lie in [[0,1)] and [offset]
    is a scalar [> 0]; the optimizer then carries these values and both
    moment estimates start at [0]. *)
Theorem X15_adamax_init_validates
        (Batch : Type) (super : result (Stochastic.StochasticOptimizer Batch))
        (beta1 beta2 : R) (offset : pyval) :
  ((exists s, AdaMax.init super beta1 beta2 offset = Return s) <->
   (exists o, super = Return o) /\ 0 <= beta1 < 1 /\ 0 <= beta2 < 1 /\
   (exists off, offset = PyScalar off /\ 0 < off)) /\
  (forall s, AdaMax.init super beta1 beta2 offset = Return s ->
     AdaMax.beta1 s = beta1 /\ AdaMax.beta2 s = beta2 /\
     offset = PyScalar (AdaMax.offset s) /\
     AdaMax.est_mom1 s = Scalar0 0 /\ AdaMax.est_mom2 s = Scalar0 0).
Proof.
  unfold AdaMax.init. destruct super as [o|e].
  2:{ split; [split|]; [intros (s & H); discriminate
                       | intros ((o & H) & _); discriminate
                       | intros s H; discriminate]. }
  destruct (Rleb_spec 0 beta1) as [H1|H1]; cbn [andb negb].
  2:{ split; [split|]; [intros (s & H); discriminate
                       | intros (_ & H & _); lra
                       | intros s H; discriminate]. }
  destruct (Rltb_spec beta1 1) as [H1'|H1']; cbn [andb negb].
  2:{ split; [split|]; [intros (s & H); discriminate
                       | intros (_ & H & _); lra
                       | intros s H; discriminate]. }
  destruct (Rleb_spec 0 beta2) as [H2|H2]; cbn [andb negb].
  2:{ split; [split|]; [intros (s & H); discriminate
                       | intros (_ & _ & H & _); lra
                       | intros s H; discriminate]. }
  destruct (Rltb_spec beta2 1) as [H2'|H2']; cbn [andb negb].
  2:{ split; [split|]; [intros (s & H); discriminate
                       | intros (_ & _ & H & _); lra
                       | intros s H; discriminate]. }
  destruct offset as [off|v].
  2:{ split; [split|]; [intros (s & H); discriminate
                       | intros (_ & _ & _ & off & H & _); discriminate
                       | intros s H; discriminate]. }
  destruct (Rltb_spec 0 off) as [Ho|Ho]; cbn [negb].
  2:{ split; [split|]; [intros (s & H); discriminate
                       | intros (_ & _ & _ & off' & H & Hp); injection H as <-; lra
                       | intros s H; discriminate]. }
  split; [split|].
  - intros _. split; [eauto|]. split; [lra|]. split; [lra|]. eauto.
  - intros _. eexists. reflexivity.
  - intros s H. injection H as <-. cbn. repeat split; reflexivity.
Qed.




(** X17: the first update of [AdaMax] (moment estimates still [0],
    counter [0], no momentum) moves coordinate [i] by
    [step_size * g_i / (|g_i| + offset)] against the gradient, hence by
    no more than [step_size], whatever the size of the gradient. *)
Theorem X17_adamax_first_update
        (Batch : Type) (s s' : AdaMax.t Batch) (a : Batch) (i : nat) :
  AdaMax.body a s = Next s' ->
  AdaMax.momentum_type s = "none"%string ->
  AdaMax.est_mom1 s = Scalar0 0 ->
  AdaMax.est_mom2 s = Scalar0 0 ->
  AdaMax.iter s = 0%Z ->
  0 <= AdaMax.beta1 s < 1 ->
  0 < AdaMax.offset s ->
  0 <= AdaMax.step_size s ->
  (i < List.length (AdaMax.x s))%nat ->
  List.length (Stochastic.jacobian (AdaMax.f s) (AdaMax.x s) a) =
    List.length (AdaMax.x s) ->
  let gi := nth i (Stochastic.jacobian (AdaMax.f s) (AdaMax.x s) a) 0 in
  nth i (AdaMax.x s') 0 =
    nth i (AdaMax.x s) 0 - AdaMax.step_size s * gi / (Rabs gi + AdaMax.offset s) /\
  Rabs (nth i (AdaMax.x s') 0 - nth i (AdaMax.x s) 0) <= AdaMax.step_size s.
Proof.
  intros Hb Hmt Hm1 Hm2 Hit Hb1 Ho Hss Hi Hlen gi.
  set (g := Stochastic.jacobian (AdaMax.f s) (AdaMax.x s) a) in *.
  assert (Hx : AdaMax.x s' = vsub (AdaMax.x s) (snd (AdaMax.moments s g))).
  { revert Hb. unfold AdaMax.body. rewrite Hmt.
    change ("none" =? "standard")%string with false.
    change ("none" =? "nesterov")%string with false.
    destruct (_ >=? _)%Z; [discriminate|]. cbv iota. fold g.
    destruct (AdaMax.moments s g) as [[m1 m2] st2].
    intros H. injection H as <-. reflexivity. }
  assert (Hgi : (i < List.length g)%nat) by lia.
  assert (Hst : nth i (snd (AdaMax.moments s g)) 0 =
                AdaMax.step_size s * gi / (Rabs gi + AdaMax.offset s)).
  { unfold AdaMax.moments. cbn [snd]. rewrite Hm1, Hm2, Hit.
    cbn [nd_scale nd_add nd_maximum Z.add]. unfold vscale.
    rewrite (nth_map2 _ _ _ _ 0 0)
      by (rewrite ?length_map; exact Hgi).
    rewrite (nth_map_in _ _ _ 0) by (rewrite ?length_map; exact Hgi).
    rewrite (nth_map_in _ _ _ 0) by (rewrite ?length_map; exact Hgi).
    rewrite (nth_map_in _ _ _ 0) by (rewrite ?length_map; exact Hgi).
    rewrite (nth_map_in _ _ _ 0) by (rewrite ?length_map; exact Hgi).
    rewrite (nth_map_in _ _ _ 0) by (rewrite ?length_map; exact Hgi).
    rewrite (nth_map_in _ _ _ 0) by (rewrite ?length_map; exact Hgi).
    rewrite (nth_map_in _ _ _ 0) by exact Hgi.
    fold gi. rewrite powerRZ_1.
    rewrite Rmax_right by (pose proof (Rabs_pos gi); lra).
    pose proof (Rabs_pos gi). field. lra. }
  assert (Hxi : nth i (AdaMax.x s') 0 =
                nth i (AdaMax.x s) 0 -
                AdaMax.step_size s * gi / (Rabs gi + AdaMax.offset s)).
  { rewrite Hx. unfold vsub. rewrite (nth_map2 _ _ _ _ 0 0).
    - rewrite Hst. reflexivity.
    - exact Hi.
    - unfold AdaMax.moments. cbn [snd]. rewrite Hm1, Hm2.
      cbn [nd_scale nd_add nd_maximum]. unfold vscale.
      rewrite map2_length, !length_map. lia. }
  split; [exact Hxi|]. rewrite Hxi.
  set (D := Rabs gi + AdaMax.offset s).
  assert (HD : 0 < D) by (unfold D; pose proof (Rabs_pos gi); lra).
  assert (Hk : 0 < / D) by (apply Rinv_0_lt_compat; exact HD).
  assert (HkD : / D * D = 1) by (field; lra).
  assert (Hg : - D <= gi <= D).
  { unfold D. pose proof (Rle_abs gi). pose proof (Rle_abs (- gi)) as H'.
    rewrite Rabs_Ropp in H'. lra. }
  assert (Hq : -1 <= gi * / D <= 1) by (split; nra).
  unfold Rdiv. unfold Rabs. destruct (Rcase_abs _); nra.
Qed.

Lemma X17_witness :
  exists s',
    AdaMax.body tt (adamax_identity [-1; 1] 1) = Next s' /\
    Rabs (nth 0 (AdaMax.x s') 0 - nth 0 (AdaMax.x (adamax_identity [-1; 1] 1)) 0)
      <= 2 / 1000.
Proof.
  destruct (AdaMax_body_next tt (adamax_identity [-1; 1] 1)) as (s' & Hb & _);
    [cbn; lia|].
  exists s'. split; [exact Hb|].
  apply (X17_adamax_first_update unit (adamax_identity [-1; 1] 1) s' tt 0 Hb);
    try reflexivity;
    cbn [adamax_identity AdaMax.beta1 AdaMax.offset AdaMax.step_size AdaMax.x
         List.length];
    try lra; lia.
Defined.

(** ** iter_mini_batches *)

Lemma firstn_add {A} (a b : nat) (l : list A) :
  firstn (a + b) l = firstn a l ++ firstn b (skipn a l).
Proof.
  revert l. induction a as [|a IH]; intros l; [reflexivity|].
  destruct l as [|x l]; [cbn; rewrite firstn_nil; reflexivity|].
  cbn. f_equal. apply IH.
Qed.

(** With bounds [0 <= start <= stop] the slice starts at [start], has at
    most [stop - start] entries and is cut at the end of the array. *)
Lemma slice_nonneg {A} (start stop : Z) (p : list A) :
  (0 <= start <= stop)%Z ->
  Utils.slice start stop p =
  firstn (Z.to_nat stop - Z.to_nat start) (skipn (Z.to_nat start) p).
Proof.
  intros [H0 H1]. unfold Utils.slice, Utils.slice_bound.
  destruct (Z.ltb_spec start 0) as [Hs|_]; [lia|].
  destruct (Z.ltb_spec stop 0) as [Hs|_]; [lia|].
  destruct (Z_le_gt_dec start (Z.of_nat (List.length p))) as [Hin|Hout].
  - rewrite (Z.min_l start) by exact Hin.
    destruct (Z_le_gt_dec stop (Z.of_nat (List.length p))) as [Hin'|Hout'].
    + rewrite Z.min_l by exact Hin'. f_equal. lia.
    + rewrite Z.min_r by lia.
      rewrite !firstn_all2; [reflexivity | |]; rewrite length_skipn; lia.
  - rewrite !Z.min_r by lia.
    replace (Z.to_nat (Z.of_nat (List.length p) - Z.of_nat (List.length p)))
      with 0%nat by lia.
    rewrite (skipn_all2 (n := Z.to_nat start)) by lia.
    rewrite firstn_nil. reflexivity.
Qed.

Lemma slice_batch {A} (bs : Z) (i : nat) (p : list A) :
  (0 < bs)%Z ->
  Utils.slice (Z.of_nat i * bs) ((Z.of_nat i + 1) * bs) p =
  firstn (Z.to_nat bs) (skipn (i * Z.to_nat bs) p).
Proof.
  intros Hbs. rewrite slice_nonneg by nia.
  assert (E1 : Z.to_nat (Z.of_nat i * bs) = (i * Z.to_nat bs)%nat)
    by (rewrite Z2Nat.inj_mul, Nat2Z.id by lia; reflexivity).
  assert (E2 : Z.to_nat ((Z.of_nat i + 1) * bs) = ((i + 1) * Z.to_nat bs)%nat).
  { rewrite Z2Nat.inj_mul, Z2Nat.inj_add, Nat2Z.id by lia. reflexivity. }
  rewrite E1, E2. f_equal. lia.
Qed.

(** The slices of the first [k] batch indices, in order, are the first
    [k * batch_size] entries. *)
Lemma slices_concat {A} (bs : Z) (p : list A) (k : nat) :
  (0 < bs)%Z ->
  List.concat (map (fun i => Utils.slice (i * bs) ((i + 1) * bs) p)
                   (map Z.of_nat (seq 0 k))) =
  firstn (k * Z.to_nat bs) p.
Proof.
  intros Hbs. induction k as [|k IH]; [reflexivity|].
  rewrite seq_S, !map_app, concat_app, IH. cbn [map List.concat plus].
  rewrite app_nil_r, slice_batch by exact Hbs.
  replace (S k * Z.to_nat bs)%nat with (k * Z.to_nat bs + Z.to_nat bs)%nat by lia.
  symmetry. apply firstn_add.
Qed.

(** For a positive [batch_size], [n_batches] is the least number of
    batches of that size that cover [len] examples. *)
Lemma n_batches_covers (len bs : Z) :
  (0 < bs)%Z ->
  (len <= Utils.n_batches len bs * bs)%Z /\
  (Utils.n_batches len bs * bs < len + bs)%Z.
Proof.
  intros Hbs. unfold Utils.n_batches.
  pose proof (Z.div_mod len bs ltac:(lia)) as E.
  pose proof (Z.mod_pos_bound len bs Hbs) as Hm.
  destruct (Z.eqb_spec (len mod bs) 0) as [H0|H0]; nia.
Qed.

(** For a negative [batch_size] there is no batch index. *)
Lemma n_batches_negative (len bs : Z) :
  (0 <= len)%Z -> (bs < 0)%Z -> (Utils.n_batches len bs <= 0)%Z.
Proof.
  intros Hlen Hbs. unfold Utils.n_batches.
  pose proof (Z.div_mod len bs ltac:(lia)) as E.
  pose proof (Z.mod_neg_bound len bs Hbs) as Hm.
  destruct (Z.eqb_spec (len mod bs) 0) as [H0|H0]; nia.
Qed.

Lemma slice_length {A} (bs : Z) (i : nat) (p : list A) :
  (0 < bs)%Z ->
  List.length (Utils.slice (Z.of_nat i * bs) ((Z.of_nat i + 1) * bs) p) =
  Nat.min (Z.to_nat bs) (List.length p - i * Z.to_nat bs).
Proof.
  intros Hbs. rewrite slice_batch by exact Hbs.
  rewrite length_firstn, length_skipn. reflexivity.
Qed.

(** X18: what [iter_mini_batches] does on every input.  It yields
    batches exactly when [X] and [y] have the same length and
    [0 < batch_size <= len(X)]; it then yields one batch per index, and
    the number of indices [n_batches] is the least count of batches of
    that size covering all the examples.  It raises [ValueError] exactly
    when the lengths differ or [batch_size > len(X)], and
    [ZeroDivisionError] exactly when the lengths agree and
    [batch_size = 0].  With equal lengths and a negative [batch_size] it
    neither raises nor yields: it runs forever. *)
Theorem X18_iter_mini_batches_checks_and_count
        (A : Type) (X y : list A) (others : list (list A))
        (batch_size : Z) (idx : list Z) :
  let len := Z.of_nat (List.length X) in
  let run := Utils.iter_mini_batches X y others batch_size idx in
  ((exists batches, run = Utils.Yielding batches) <->
   List.length X = List.length y /\ (0 < batch_size <= len)%Z) /\
  ((exists msg, run = Utils.Raising (ValueError msg)) <->
   List.length X <> List.length y \/ (len < batch_size)%Z) /\
  (run = Utils.Raising ZeroDivisionError <->
   List.length X = List.length y /\ batch_size = 0%Z) /\
  (run = Utils.Spinning <->
   List.length X = List.length y /\ (batch_size < 0)%Z) /\
  (forall batches,
     run = Utils.Yielding batches ->
     List.length batches = List.length idx /\
     (len <= Utils.n_batches len batch_size * batch_size)%Z /\
     (Utils.n_batches len batch_size * batch_size < len + batch_size)%Z).
Proof.
  intros len run. subst run. unfold Utils.iter_mini_batches. fold len.
  destruct (Nat.eqb_spec (List.length X) (List.length y)) as [E|E]; cbn [negb].
  2:{ split; [|split; [|split; [|split]]].
      - split; [intros (b & H); discriminate | intros (H & _); contradiction].
      - split; [intros _; left; exact E | intros _; eexists; reflexivity].
      - split; [discriminate | intros (H & _); contradiction].
      - split; [discriminate | intros (H & _); contradiction].
      - intros b H. discriminate. }
  destruct (Z.gtb_spec batch_size len) as [Hgt|Hle].
  { split; [|split; [|split; [|split]]].
    - split; [intros (b & H); discriminate | intros (_ & H); lia].
    - split; [intros _; right; lia | intros _; eexists; reflexivity].
    - split; [discriminate | intros (_ & H); lia].
    - split; [discriminate | intros (_ & H); lia].
    - intros b H. discriminate. }
  destruct (Z.eqb_spec batch_size 0) as [H0|H0].
  { split; [|split; [|split; [|split]]].
    - split; [intros (b & H); discriminate | intros (_ & H); lia].
    - split; [intros (m & H); discriminate | intros [H|H]; [contradiction | lia]].
    - split; [intros _; split; assumption | reflexivity].
    - split; [discriminate | intros (_ & H); lia].
    - intros b H. discriminate. }
  destruct (Z.leb_spec (Utils.n_batches len batch_size) 0) as [Hn|Hn].
  { assert (Hneg : (batch_size < 0)%Z).
    { destruct (Z_lt_le_dec batch_size 0) as [Hlt|Hge]; [exact Hlt|].
      destruct (n_batches_covers len batch_size ltac:(lia)) as [Hc _]. nia. }
    split; [|split; [|split; [|split]]].
    - split; [intros (b & H); discriminate | intros (_ & H); lia].
    - split; [intros (m & H); discriminate | intros [H|H]; [contradiction | lia]].
    - split; [discriminate | intros (_ & H); contradiction].
    - split; [intros _; split; assumption | reflexivity].
    - intros b H. discriminate. }
  assert (Hpos : (0 < batch_size)%Z).
  { destruct (Z_lt_le_dec 0 batch_size) as [Hlt|Hge]; [exact Hlt|].
    pose proof (n_batches_negative len batch_size ltac:(lia) ltac:(lia)). lia. }
  split; [|split; [|split; [|split]]].
  - split; [intros _; split; [exact E | lia] | intros _; eexists; reflexivity].
  - split; [intros (m & H); discriminate | intros [H|H]; [contradiction | lia]].
  - split; [discriminate | intros (_ & H); contradiction].
  - split; [discriminate | intros (_ & H); lia].
  - intros b H. injection H as <-. rewrite length_map.
    split; [reflexivity|]. apply n_batches_covers. exact Hpos.
Qed.

(** X19: for any order [idx] that is a shuffle of [range(n_batches)], the
    batches of one round contain every example exactly once: the [X]
    parts of the batches, concatenated, are a permutation of [X] (and
    equal to [X] for the unshuffled order), likewise the [y] parts; in
    every batch the [X] part and the [y] part have the same size, between
    [1] and [batch_size]. *)
Theorem X19_iter_mini_batches_partition
        (A : Type) (X y : list A) (others : list (list A))
        (batch_size : Z) (idx : list Z) :
  List.length X = List.length y ->
  (0 < batch_size <= Z.of_nat (List.length X))%Z ->
  Permutation.Permutation
    idx (Utils.range (Utils.n_batches (Z.of_nat (List.length X)) batch_size)) ->
  exists batches,
    Utils.iter_mini_batches X y others batch_size idx = Utils.Yielding batches /\
    Permutation.Permutation (List.concat (map (fun b => nth 0 b []) batches)) X /\
    Permutation.Permutation (List.concat (map (fun b => nth 1 b []) batches)) y /\
    (idx = Utils.range (Utils.n_batches (Z.of_nat (List.length X)) batch_size) ->
     List.concat (map (fun b => nth 0 b []) batches) = X /\
     List.concat (map (fun b => nth 1 b []) batches) = y) /\
    Forall (fun b =>
              List.length (nth 0 b []) = List.length (nth 1 b []) /\
              (0 < Z.of_nat (List.length (nth 0 b [])) <= batch_size)%Z) batches.
Proof.
  intros Hlen Hbs Hperm.
  assert (Hpos : (0 < batch_size)%Z) by lia.
  destruct (n_batches_covers (Z.of_nat (List.length X)) batch_size Hpos)
    as [Hcov Hmin].
  set (nb := Utils.n_batches (Z.of_nat (List.length X)) batch_size) in *.
  assert (Hnb : (0 < nb)%Z) by nia.
  exists (map (Utils.mini_batch (X :: y :: others) batch_size) idx).
  assert (HX : forall l, List.concat (map (fun b => nth 0 b [])
                 (map (Utils.mini_batch (X :: y :: others) batch_size) l)) =
               flat_map (fun i => Utils.slice (i * batch_size) ((i + 1) * batch_size) X) l).
  { intros l. rewrite map_map, flat_map_concat_map. reflexivity. }
  assert (Hy : forall l, List.concat (map (fun b => nth 1 b [])
                 (map (Utils.mini_batch (X :: y :: others) batch_size) l)) =
               flat_map (fun i => Utils.slice (i * batch_size) ((i + 1) * batch_size) y) l).
  { intros l. rewrite map_map, flat_map_concat_map. reflexivity. }
  assert (Hall : forall p : list A,
            List.length p = List.length X ->
            flat_map (fun i => Utils.slice (i * batch_size) ((i + 1) * batch_size) p)
                     (Utils.range nb) = p).
  { intros p Hp. unfold Utils.range.
    rewrite flat_map_concat_map, slices_concat by exact Hpos.
    apply firstn_all2. rewrite Hp.
    apply Nat2Z.inj_le. rewrite Nat2Z.inj_mul, !Z2Nat.id by lia. exact Hcov. }
  split; [|split; [|split; [|split]]].
  - unfold Utils.iter_mini_batches.
    rewrite (proj2 (Nat.eqb_eq _ _) Hlen). cbn [negb].
    destruct (Z.gtb_spec batch_size (Z.of_nat (List.length X))) as [Hgt|_]; [lia|].
    destruct (Z.eqb_spec batch_size 0) as [H0|_]; [lia|].
    fold nb. destruct (Z.leb_spec nb 0) as [Hn|_]; [lia|]. reflexivity.
  - rewrite HX. eapply Permutation.Permutation_trans.
    + apply Permutation.Permutation_flat_map. exact Hperm.
    + rewrite Hall by reflexivity. apply Permutation.Permutation_refl.
  - rewrite Hy. eapply Permutation.Permutation_trans.
    + apply Permutation.Permutation_flat_map. exact Hperm.
    + rewrite Hall by (symmetry; exact Hlen). apply Permutation.Permutation_refl.
  - intros ->. rewrite HX, Hy. split; apply Hall; [reflexivity | symmetry; exact Hlen].
  - apply Forall_map, Forall_forall. intros i Hin.
    apply (Permutation.Permutation_in _ Hperm) in Hin.
    unfold Utils.range in Hin. apply in_map_iff in Hin.
    destruct Hin as (j & <- & Hj). apply in_seq in Hj.
    assert (Hjn : (Z.of_nat j < nb)%Z) by lia.
    unfold Utils.mini_batch. cbn [map nth].
    rewrite !slice_length by exact Hpos. rewrite <- Hlen.
    assert (Hlt : (Z.of_nat j * batch_size < Z.of_nat (List.length X))%Z) by nia.
    assert (Hlt' : (j * Z.to_nat batch_size < List.length X)%nat).
    { apply Nat2Z.inj_lt. rewrite Nat2Z.inj_mul, Z2Nat.id by lia. exact Hlt. }
    split; [reflexivity | lia].
Qed.

Lemma X19_witness :
  exists batches,
    Utils.iter_mini_batches [1; 2; 3; 4; 5]%nat [10; 20; 30; 40; 50]%nat []
                            2 [2; 0; 1]%Z = Utils.Yielding batches /\
    Permutation.Permutation (List.concat (map (fun b => nth 0 b []) batches))
                            [1; 2; 3; 4; 5]%nat /\
    Permutation.Permutation (List.concat (map (fun b => nth 1 b []) batches))
                            [10; 20; 30; 40; 50]%nat.
Proof.
  destruct (X19_iter_mini_batches_partition nat
              [1; 2; 3; 4; 5]%nat [10; 20; 30; 40; 50]%nat [] 2 [2; 0; 1]%Z)
    as (batches & Hb & HX & Hy & _).
  - reflexivity.
  - cbn. lia.
  - apply (Permutation.Permutation_cons_append [0; 1]%Z 2%Z).
  - exists batches. split; [exact Hb|]. split; assumption.
Defined.

Lemma X18_witness :
  Utils.iter_mini_batches [1; 2; 3]%nat [4; 5; 6]%nat [] (-2) [] = Utils.Spinning.
Proof.
  destruct (X18_iter_mini_batches_checks_and_count nat
              [1; 2; 3]%nat [4; 5; 6]%nat [] (-2)%Z [])
    as (_ & _ & _ & Hspin & _).
  apply Hspin. split; [reflexivity | lia].
Defined.
